(** * stackcollapse-callgrind: a shallow embedding and its properties

    The program reads a Callgrind profile, builds a call graph
    ([Function] objects held in the global [functions] dictionary) and
    prints one collapsed stack line per call path.

    Conventions of the embedding:
    - Python [int] is [Z]; Python [float] is IEEE binary64, taken from the
      standard library's [SpecFloat] (precision 53, [emax] 1024);
    - Python [str] is [string]; its characters stand for the code points
      0..255;
    - a [dict] whose iteration order is never observed is a [gmap]; the
      [functions] dictionary, which [main] iterates, also keeps its keys in
      insertion order;
    - a [Function] object is referred to by the key under which
      [lookup_f] stores it in [functions] (every object the program uses
      comes from [lookup_f]);
    - a raised exception is a value of [exn]; functions that can raise
      return a [result];
    - the limits of the interpreter (recursion depth, memory, the length of
      a decimal numeral it agrees to convert) are not part of the
      embedding. *)

From Stdlib Require Import ZArith Ascii String List Bool Lia.
From Stdlib Require Import SpecFloat.
From stdpp Require Import base tactics option list gmap strings pretty.

Local Open Scope string_scope.
Local Open Scope Z_scope.
Local Open Scope list_scope.

(** ** Exceptions and results *)

(** The exceptions the program can raise. [BadReference] belongs to the
    embedding alone: a reference with no object under it, which the program
    never holds. *)
Inductive exn :=
| AssertionError
| OverflowError
| ValueError
| KeyError
| IndexError
| ZeroDivisionError
| RecursionError
| Exception (msg : string)
| BadReference.

Inductive result (A : Type) :=
| Ok (a : A)
| Raise (e : exn).
Arguments Ok {A} a.
Arguments Raise {A} e.

Definition rbind {A B} (m : result A) (k : A → result B) : result B :=
  match m with
  | Ok a => k a
  | Raise e => Raise e
  end.

Global Instance result_ret : MRet result := @Ok.
Global Instance result_bind : MBind result := λ A B k m, rbind m k.
Global Instance result_fmap : FMap result := λ A B f m, rbind m (λ a, Ok (f a)).

(** ** Python floats (binary64) *)

Module Float.

Definition prec : Z := 53.
Definition emax : Z := 1024.

Definition one : spec_float := S754_finite false 4503599627370496 (-52).

(** An integer as an unrounded mantissa with exponent 0. *)
Definition raw_of_int (n : Z) : spec_float :=
  match n with
  | Z0 => S754_zero false
  | Zpos p => S754_finite false p 0
  | Zneg p => S754_finite true p 0
  end.

Definition finite_or_overflow (x : spec_float) : result spec_float :=
  match x with
  | S754_infinity _ | S754_nan => Raise OverflowError
  | _ => Ok x
  end.

(** [float(n)] as done implicitly by [float * int]: round to nearest,
    ties to even; [OverflowError] when the integer is too large. *)
Definition of_int (n : Z) : result spec_float :=
  finite_or_overflow (binary_normalize prec emax n 0 false).

(** [a / b] on two integers: the correctly rounded quotient. *)
Definition int_truediv (a b : Z) : result spec_float :=
  if b =? 0 then Raise ZeroDivisionError
  else finite_or_overflow (SFdiv prec emax (raw_of_int a) (raw_of_int b)).

(** [x * n] for a float [x] and an integer [n]. *)
Definition mul_int (x : spec_float) (n : Z) : result spec_float :=
  y ← of_int n; Ok (SFmul prec emax x y).

(** Nearest integer to [m / d], ties to the even one ([0 < d]). *)
Definition div_half_even (m d : Z) : Z :=
  let q := m / d in
  let r := m mod d in
  match 2 * r ?= d with
  | Lt => q
  | Gt => q + 1
  | Eq => if Z.even q then q else q + 1
  end.

(** [round(x)] with one argument: an [int], ties to even. *)
Definition round (x : spec_float) : result Z :=
  match x with
  | S754_zero _ => Ok 0
  | S754_infinity _ => Raise OverflowError
  | S754_nan => Raise ValueError
  | S754_finite s m e =>
      let a := match e with
               | Zneg k => div_half_even (Zpos m) (Zpos (Pos.iter xO xH k))
               | _ => Zpos m * 2 ^ e
               end in
      Ok (if s then - a else a)
  end.

End Float.

(** ** Python strings *)

Module Str.

Definition code (c : ascii) : N := N_of_ascii c.

Definition is_digit (c : ascii) : bool :=
  ((48 <=? code c) && (code c <=? 57))%N.

Definition is_lower (c : ascii) : bool :=
  ((97 <=? code c) && (code c <=? 122))%N.

(** [str.isspace] on the code points below 256. *)
Definition is_space (c : ascii) : bool :=
  let n := code c in
  (((9 <=? n) && (n <=? 13)) || ((28 <=? n) && (n <=? 32))
   || (n =? 133) || (n =? 160))%N.

Definition is_newline (c : ascii) : bool := (code c =? 10)%N.

(** The longest prefix whose characters satisfy [p], and what follows. *)
Fixpoint span (p : ascii → bool) (s : string) : string * string :=
  match s with
  | EmptyString => (EmptyString, EmptyString)
  | String c r =>
      if p c then let '(a, b) := span p r in (String c a, b)
      else (EmptyString, s)
  end.

Fixpoint lstrip (s : string) : string :=
  match s with
  | String c r => if is_space c then lstrip r else s
  | EmptyString => EmptyString
  end.

Fixpoint rstrip (s : string) : string :=
  match s with
  | EmptyString => EmptyString
  | String c r =>
      match rstrip r with
      | EmptyString => if is_space c then EmptyString else String c EmptyString
      | r' => String c r'
      end
  end.

Definition strip (s : string) : string := rstrip (lstrip s).

(** What follows the prefix [p] in [s], when [s] starts with [p]. *)
Fixpoint after_prefix (p s : string) : option string :=
  match p, s with
  | EmptyString, _ => Some s
  | String a p', String b s' =>
      if Ascii.eqb a b then after_prefix p' s' else None
  | String _ _, EmptyString => None
  end.

(** [s.startswith(p)]. *)
Definition startswith (p s : string) : bool :=
  match after_prefix p s with
  | Some _ => true
  | None => false
  end.

(** [s.split(sep)] for a one-character separator. *)
Fixpoint split (sep : ascii) (s : string) : list string :=
  match s with
  | EmptyString => [EmptyString]
  | String c r =>
      if Ascii.eqb c sep then EmptyString :: split sep r
      else match split sep r with
           | w :: ws => String c w :: ws
           | [] => [String c EmptyString]
           end
  end.

(** [sep.join(l)]. *)
Fixpoint join (sep : string) (l : list string) : string :=
  match l with
  | [] => EmptyString
  | [x] => x
  | x :: r => x +:+ sep +:+ join sep r
  end.

Definition digit_value (c : ascii) : Z := Z.of_N (code c) - 48.

(** Decimal digits, with single underscores allowed between digits. *)
Fixpoint digits_value (acc : Z) (after_digit : bool) (s : string) : option Z :=
  match s with
  | EmptyString => if after_digit then Some acc else None
  | String c r =>
      if is_digit c then digits_value (10 * acc + digit_value c) true r
      else if Ascii.eqb c "_" && after_digit then digits_value acc false r
      else None
  end.

(** [int(s)]. *)
Definition int (s : string) : result Z :=
  let s := strip s in
  let '(neg, body) :=
    match s with
    | String "-" r => (true, r)
    | String "+" r => (false, r)
    | _ => (false, s)
    end in
  match digits_value 0 false body with
  | Some n => Ok (if neg then - n else n)
  | None => Raise ValueError
  end.

(** [l[i]] on a list. *)
Definition index {A} (l : list A) (i : nat) : result A :=
  match l !! i with
  | Some x => Ok x
  | None => Raise IndexError
  end.

(** [d[k]] on a dictionary. *)
Definition getitem `{Countable K} {A} (d : gmap K A) (k : K) : result A :=
  match d !! k with
  | Some x => Ok x
  | None => Raise KeyError
  end.

End Str.

(** ** The regular expressions of the program, matched at the start of
    the subject as [re.match] does *)

Module Re.

(** An opening parenthesis, one or more digits, a closing parenthesis:
    the number with its parentheses, and the rest. *)
Definition number (s : string) : option (string * string) :=
  match s with
  | String "(" r =>
      let '(ds, r1) := Str.span Str.is_digit r in
      match ds, r1 with
      | String _ _, String ")" r2 => Some ("(" +:+ ds +:+ ")", r2)
      | _, _ => None
      end
  | _ => None
  end.

(** Dot-star: everything up to the first newline. *)
Definition dot_star (s : string) : string :=
  fst (Str.span (λ c, negb (Str.is_newline c)) s).

(** The definition pattern: a parenthesised number, a space and a
    non-empty value that runs to the first newline. *)
Definition definition (s : string) : option (string * string) :=
  match number s with
  | Some (num, String " " r) =>
      match dot_star r with
      | EmptyString => None
      | val => Some (num, val)
      end
  | _ => None
  end.

(** The reference pattern: a parenthesised number. *)
Definition reference (s : string) : option string :=
  fst <$> number s.

(** One or more of a..z as the key, the separator, then dot-star as the
    value. *)
Definition key_value (sep : string) (s : string) : option (string * string) :=
  let '(key, r) := Str.span Str.is_lower s in
  match key with
  | EmptyString => None
  | _ =>
      match Str.after_prefix sep r with
      | Some v => Some (key, dot_star v)
      | None => None
      end
  end.

(** The directive pattern: key, an equals sign, value. *)
Definition directive : string → option (string * string) := key_value "=".

(** The header pattern: key, a colon and a space, value. *)
Definition header : string → option (string * string) := key_value ": ".

(** The cost-line pattern: one or more of the digits, minus, plus and
    star. *)
Definition cost_line (s : string) : bool :=
  match s with
  | String c _ =>
      Str.is_digit c || Ascii.eqb c "-" || Ascii.eqb c "+" || Ascii.eqb c "*"
  | EmptyString => false
  end.

End Re.

(** ** The resolver tables *)

(** [lookup(table, name)]: the value and the table afterwards. *)
Definition lookup (table : gmap string string) (name : string)
  : result (string * gmap string string) :=
  match Re.definition name with
  | Some (num, val) =>
      Ok (val, match table !! num with
               | None => <[num := val]> table
               | Some _ => table
               end)
  | None =>
      match Re.reference name with
      | Some num =>
          match table !! num with
          | None => Raise (Exception (num +:+ " not found"))
          | Some v => Ok (v, table)
          end
      | None => Ok (name, table)
      end
  end.

(** ** The writer of output lines, for code that prints *)

Inductive outcome (A : Type) :=
| Returned (a : A)
| Raised (e : exn)
| OutOfFuel.
Arguments Returned {A} a.
Arguments Raised {A} e.
Arguments OutOfFuel {A}.

(** The lines printed so far, and how the computation ended. *)
Definition printing (A : Type) : Type := list string * outcome A.

Definition pret {A} (a : A) : printing A := ([], Returned a).

Definition pbind {A B} (m : printing A) (k : A → printing B) : printing B :=
  match m with
  | (out, Returned a) => let '(out', o) := k a in (out ++ out', o)
  | (out, Raised e) => (out, Raised e)
  | (out, OutOfFuel) => (out, OutOfFuel)
  end.

Definition plift {A} (m : result A) : printing A :=
  match m with
  | Ok a => pret a
  | Raise e => ([], Raised e)
  end.

(** [print(a, b)]: one line, the two values separated by a space. *)
Definition print (a b : string) : printing unit :=
  ([a +:+ " " +:+ b], Returned tt).

(** A [for] loop whose body may print and raise; [s] is the state the
    body hands from one iteration to the next. *)
Fixpoint pfor {A S} (body : A → S → printing S) (l : list A) (s : S)
  : printing S :=
  match l with
  | [] => pret s
  | x :: r => pbind (body x s) (pfor body r)
  end.

Global Instance printing_ret : MRet printing := @pret.
Global Instance printing_bind : MBind printing := λ A B k m, pbind m k.

(** ** Function objects and the call graph *)

Module Function.

(** What [__eq__] compares and [__hash__] hashes: dictionaries and sets of
    [Function] objects are keyed by it. *)
Definition ident : Type := string * string * string.

Record t := mk {
  objectname : string;
  filename : string;
  name : string;
  callfunctions : gset ident;
  calls : list string;
  callcosts : gmap ident Z;
  callcounts : gmap ident Z;
  cost : Z;
  total_call_cost : Z;
  total_call_count : Z
}.

(** [Function(objectname, filename, name)]. *)
Definition init (objectname filename name : string) : t :=
  mk objectname filename name ∅ [] ∅ ∅ 0 0 0.

Definition repr (self : t) : string :=
  objectname self +:+ "#" +:+ filename self +:+ "#" +:+ name self.

Definition str (self : t) : string :=
  filename self +:+ "#" +:+ name self.

Definition eq (self o : t) : bool :=
  String.eqb (objectname o) (objectname self)
  && String.eqb (filename o) (filename self)
  && String.eqb (name o) (name self).

Definition key (self : t) : ident :=
  (objectname self, filename self, name self).

(** Field updates. *)
Definition with_callee (callee : string) (k : ident) (self : t) : t :=
  mk (objectname self) (filename self) (name self)
     ({[k]} ∪ callfunctions self) (calls self ++ [callee])
     (<[k := 0]> (callcosts self)) (<[k := 0]> (callcounts self))
     (cost self) (total_call_cost self) (total_call_count self).

Definition with_callcosts (d : gmap ident Z) (self : t) : t :=
  mk (objectname self) (filename self) (name self)
     (callfunctions self) (calls self) d (callcounts self)
     (cost self) (total_call_cost self) (total_call_count self).

Definition with_callcounts (d : gmap ident Z) (self : t) : t :=
  mk (objectname self) (filename self) (name self)
     (callfunctions self) (calls self) (callcosts self) d
     (cost self) (total_call_cost self) (total_call_count self).

Definition with_cost (c : Z) (self : t) : t :=
  mk (objectname self) (filename self) (name self)
     (callfunctions self) (calls self) (callcosts self) (callcounts self)
     c (total_call_cost self) (total_call_count self).

Definition with_total_call_cost (c : Z) (self : t) : t :=
  mk (objectname self) (filename self) (name self)
     (callfunctions self) (calls self) (callcosts self) (callcounts self)
     (cost self) c (total_call_count self).

Definition with_total_call_count (c : Z) (self : t) : t :=
  mk (objectname self) (filename self) (name self)
     (callfunctions self) (calls self) (callcosts self) (callcounts self)
     (cost self) (total_call_cost self) c.

(** The objects, by reference. *)
Abbreviation heap := (gmap string t).

Definition deref (fs : heap) (r : string) : result t :=
  match fs !! r with
  | Some f => Ok f
  | None => Raise BadReference
  end.

(** [self.add_call(callee, count)]. *)
Definition add_call (self callee : string) (count : Z) (fs : heap)
  : result heap :=
  me ← deref fs self;
  ce ← deref fs callee;
  let k := key ce in
  let me := if bool_decide (k ∈ callfunctions me) then me
            else with_callee callee k me in
  let fs := <[self := me]> fs in
  if eq me ce then Ok fs
  else
    c ← Str.getitem (callcosts me) k;
    let me := with_callcosts (<[k := c + 0]> (callcosts me)) me in
    n ← Str.getitem (callcounts me) k;
    let me := with_callcounts (<[k := n + count]> (callcounts me)) me in
    let fs := <[self := me]> fs in
    ce ← deref fs callee;
    Ok (<[callee := with_total_call_count (total_call_count ce + count) ce]> fs).

(** [self.add_callcost(callee, cost)]. *)
Definition add_callcost (self callee : string) (cost : Z) (fs : heap)
  : result heap :=
  me ← deref fs self;
  ce ← deref fs callee;
  if eq me ce then Ok fs
  else
    match last (calls me) with
    | None => Raise IndexError
    | Some l =>
        le ← deref fs l;
        c ← Str.getitem (callcosts me) (key le);
        let me := with_callcosts (<[key le := c + cost]> (callcosts me)) me in
        let fs := <[self := me]> fs in
        ce ← deref fs callee;
        Ok (<[callee := with_total_call_cost (total_call_cost ce + cost) ce]> fs)
    end.

(** [self.add_cost(cost)]. *)
Definition add_cost (self : string) (c : Z) (fs : heap) : result heap :=
  me ← deref fs self;
  Ok (<[self := with_cost (cost me + c) me]> fs).

(** [round(scale * x)]. *)
Definition scaled (scale : spec_float) (x : Z) : result Z :=
  v ← Float.mul_int scale x ; Float.round v.

(** The [scale] of a visit with [count] calls. *)
Definition scale_of (self : t) (count : Z) : result spec_float :=
  if 0 <? total_call_count self then
    if count <=? total_call_count self
    then Float.int_truediv count (total_call_count self)
    else Raise AssertionError
  else Ok Float.one.

(** [self.print_stacks(stack, count, cost)]; the stack is handed on and
    returned, as the one deque that all the calls share. The interpreter's
    bound on nested calls is left out here; [print_stacks_within], further
    down, has it. *)
Fixpoint print_stacks (fuel : nat) (fs : heap) (self : string)
    (stack : list string) (count cost : Z) : printing (list string) :=
  match fuel with
  | O => ([], OutOfFuel)
  | S fuel =>
      me ← plift (deref fs self);
      let signature := str me in
      if bool_decide (signature ∈ stack) then pret stack
      else
        let stack := stack ++ [signature] in
        stack ←
          (if (0 <? Z.of_nat (length (calls me))) then
             scale ← plift (scale_of me count);
             v ← plift (scaled scale (Function.cost me));
             _ ← print (Str.join ";" stack) (pretty v);
             pfor (λ f stack,
                     fe ← plift (deref fs f);
                     callcost ← plift (Str.getitem (callcosts me) (key fe));
                     callcount ← plift (Str.getitem (callcounts me) (key fe));
                     c ← plift (scaled scale callcost);
                     print_stacks fuel fs f stack callcount c)
                  (calls me) stack
           else
             _ ← print (Str.join ";" stack) (pretty cost);
             pret stack);
        pret (removelast stack)
  end.

End Function.

(** ** The global tables and the parser *)

Record globals := mk_globals {
  ob : gmap string string;
  fl : gmap string string;
  fn : gmap string string;
  functions : Function.heap;
  (** the keys of [functions] in insertion order *)
  functions_keys : list string
}.

Definition initial_globals : globals := mk_globals ∅ ∅ ∅ ∅ [].

(** Code that reads and writes the globals and may raise. *)
Definition run (A : Type) : Type := globals → result (A * globals).

Global Instance run_ret : MRet run := λ A a g, Ok (a, g).
Global Instance run_bind : MBind run := λ A B k m g,
  match m g with
  | Ok (a, g') => k a g'
  | Raise e => Raise e
  end.

Definition lift {A} (m : result A) : run A := λ g,
  match m with
  | Ok a => Ok (a, g)
  | Raise e => Raise e
  end.

Definition lookup_ob (name : string) : run string := λ g,
  '(v, t) ← lookup (ob g) name;
  Ok (v, mk_globals t (fl g) (fn g) (functions g) (functions_keys g)).

Definition lookup_fl (name : string) : run string := λ g,
  '(v, t) ← lookup (fl g) name;
  Ok (v, mk_globals (ob g) t (fn g) (functions g) (functions_keys g)).

Definition lookup_fn (name : string) : run string := λ g,
  '(v, t) ← lookup (fn g) name;
  Ok (v, mk_globals (ob g) (fl g) t (functions g) (functions_keys g)).

(** [functions[signature] = func] for a signature that may be new. *)
Definition store_function (signature : string) (func : Function.t)
  : run unit := λ g,
  Ok (tt, mk_globals (ob g) (fl g) (fn g) (<[signature := func]> (functions g))
            (if bool_decide (is_Some (functions g !! signature))
             then functions_keys g
             else functions_keys g ++ [signature])).

(** [signature in functions]. *)
Definition has_function (signature : string) : run bool := λ g,
  Ok (bool_decide (is_Some (functions g !! signature)), g).

(** A method that updates objects held in [functions]. *)
Definition on_functions (f : Function.heap → result Function.heap)
  : run unit := λ g,
  fs ← f (functions g);
  Ok (tt, mk_globals (ob g) (fl g) (fn g) fs (functions_keys g)).

(** [lookup_f(ob, fl, fn)]: a reference to the object in [functions]. *)
Definition lookup_f (ob fl fn : string) : run string :=
  obstr ← lookup_ob ob;
  flstr ← lookup_fl fl;
  fnstr ← lookup_fn fn;
  let func := Function.init obstr flstr fnstr in
  let signature := Function.str func in
  present ← has_function signature;
  _ ← (if negb present then store_function signature func else mret tt);
  mret signature.

Definition state_get (state : gmap string string) (key : string)
  : run string := lift (Str.getitem state key).

(** [calls(state, param)]. *)
Definition calls (state : gmap string string) (param : string) : run unit :=
  let costs := Str.split " " param in
  s_ob ← state_get state "ob";
  s_fl ← state_get state "fl";
  s_fn ← state_get state "fn";
  caller ← lookup_f s_ob s_fl s_fn;
  s_cob ← state_get state "cob";
  s_cfi ← state_get state "cfi";
  s_cfn ← state_get state "cfn";
  callee ← lookup_f s_cob s_cfi s_cfn;
  c0 ← lift (Str.index costs 0);
  count ← lift (Str.int c0);
  on_functions (Function.add_call caller callee count).

(** [callcost(state, param)]. *)
Definition callcost (state : gmap string string) (param : string)
  : run unit :=
  let costs := Str.split " " param in
  s_ob ← state_get state "ob";
  s_fl ← state_get state "fl";
  s_fn ← state_get state "fn";
  caller ← lookup_f s_ob s_fl s_fn;
  s_cob ← state_get state "cob";
  s_cfi ← state_get state "cfi";
  s_cfn ← state_get state "cfn";
  callee ← lookup_f s_cob s_cfi s_cfn;
  c1 ← lift (Str.index costs 1);
  c ← lift (Str.int c1);
  on_functions (Function.add_callcost caller callee c).

(** [cost(state, param)]. *)
Definition cost (state : gmap string string) (param : string) : run unit :=
  let costs := Str.split " " param in
  s_ob ← state_get state "ob";
  s_fl ← state_get state "fl";
  s_fn ← state_get state "fn";
  function ← lookup_f s_ob s_fl s_fn;
  c1 ← lift (Str.index costs 1);
  c ← lift (Str.int c1);
  on_functions (Function.add_cost function c).

(** The local variables of [parse_body]. *)
Record context := mk_context {
  state : gmap string string;
  in_call : bool
}.

Definition initial_context : context :=
  mk_context (<["fn" := "???"]> (<["fl" := "???"]> (<["ob" := "???"]> ∅)))
             false.

Definition alias (key : string) : string :=
  if String.eqb key "cfl" then "cfi" else key.

(** How one turn of the loop of [parse_body] ends. *)
Inductive turn :=
| Consumed (c : context)
| EndOfBody.

(** [state[dst] = state[src]] when [dst] is not set and [src] is. *)
Definition default_from (dst src : string) (state : gmap string string)
  : gmap string string :=
  match state !! dst, state !! src with
  | None, Some v => <[dst := v]> state
  | _, _ => state
  end.

(** One turn of the loop of [parse_body], on the line at the head of the
    queue. *)
Definition parse_body_line (raw : string) (c : context) : run turn :=
  let line := Str.strip raw in
  if Str.startswith "#" line then mret (Consumed c)
  else if (String.length line =? 0)%nat then mret (Consumed c)
  else
    match Re.directive line with
    | Some (key, value) =>
        let key := alias key in
        let state := <[key := value]> (state c) in
        _ ← (if String.eqb key "fi" || String.eqb key "fe"
             then (_ ← lookup_fl value; mret tt) else mret tt);
        if String.eqb key "calls" then
          let state := default_from "cob" "ob" state in
          let state := default_from "cfi" "fl" state in
          _ ← calls state value;
          mret (Consumed (mk_context state true))
        else mret (Consumed (mk_context state (in_call c)))
    | None =>
        if Re.cost_line line then
          if in_call c then
            _ ← callcost (state c) line;
            mret (Consumed (mk_context (delete "cfi" (delete "cob" (state c)))
                              false))
          else
            _ ← cost (state c) line;
            mret (Consumed c)
        else mret EndOfBody
    end.

(** The loop of [parse_body]: what is left of the queue. *)
Fixpoint parse_body_loop (queue : list string) (c : context)
  : run (list string) :=
  match queue with
  | [] => mret []
  | raw :: rest =>
      t ← parse_body_line raw c;
      match t with
      | Consumed c => parse_body_loop rest c
      | EndOfBody => mret queue
      end
  end.

Definition parse_body (queue : list string) : run (list string) :=
  parse_body_loop queue initial_context.

(** [parse_header(queue)]: what is left of the queue (its local [state]
    is written and never read). *)
Fixpoint parse_header (queue : list string) : list string :=
  match queue with
  | [] => []
  | raw :: rest =>
      let line := Str.strip raw in
      if Str.startswith "#" line then parse_header rest
      else if (String.length line =? 0)%nat then parse_header rest
      else match Re.header line with
           | Some _ => parse_header rest
           | None => queue
           end
  end.

(** The test of [main] on each function. *)
Definition is_root (func : Function.t) : bool :=
  (Function.total_call_count func =? 0)
  && (0 <? Z.of_nat (length (Function.calls func))).

(** The body of the loop of [main] over [functions.values()]. *)
Definition traverse_from (fs : Function.heap) (r : string) : printing unit :=
  func ← plift (Function.deref fs r);
  if is_root func
  then _ ← Function.print_stacks (S (size fs)) fs r [] 0 0; mret tt
  else mret tt.

(** [main(queue)]: the lines printed, and the queue left over. *)
Definition main (queue : list string) : printing (list string) :=
  let queue := parse_header queue in
  '(queue, g) ← plift (parse_body queue initial_globals);
  let queue := parse_header queue in
  _ ← pfor (λ r _, traverse_from (functions g) r) (functions_keys g) tt;
  mret queue.

(** * Notions used in the statements, and examples *)

(** How a computation that prints fails, when it does: with an exception,
    or by running out of fuel. *)
Inductive failure :=
| Fails (e : exn)
| Diverges.

Definition failure_of {A} (m : printing A) : option failure :=
  match snd m with
  | Returned _ => None
  | Raised e => Some (Fails e)
  | OutOfFuel => Some Diverges
  end.

(** The objects whose signature is not on the stack. *)
Definition unvisited (fs : Function.heap) (stack : list string)
  : Function.heap :=
  filter (λ kf, Function.str kf.2 ∉ stack) fs.

(** A graph with a cycle: [A] calls [B] and [B] calls [A]. *)
Definition cycle_input : list string :=
  ["fl=a.c"; "fn=A"; "1 3"; "cfn=B"; "calls=1 0"; "1 10";
   "fn=B"; "1 7"; "cfn=A"; "calls=1 0"; "1 5"].

Definition cycle_graph : Function.heap :=
  Eval vm_compute in
  match parse_body cycle_input initial_globals with
  | Ok (_, g) => functions g
  | Raise _ => ∅
  end.

(** The dictionaries of an object have an entry for each registered
    callee and for no one else. *)
Definition accumulators_registered (f : Function.t) : Prop :=
  dom (Function.callcosts f) = Function.callfunctions f
  ∧ dom (Function.callcounts f) = Function.callfunctions f.

(** The value of an accumulator; one that does not exist yet stands at
    the zero it is created with. *)
Definition accumulated (d : gmap Function.ident Z) (k : Function.ident) : Z :=
  default 0 (d !! k).

(** One function, about to register a call to itself. *)
Definition self_edge_example : Function.heap :=
  {["a.c#A" := Function.init "o" "a.c" "A"]}.

(** The context and the globals after one more line of the body. *)
Definition after_line (raw : string) (cg : context * globals)
  : context * globals :=
  match parse_body_line raw cg.1 cg.2 with
  | Ok (Consumed c, g) => (c, g)
  | _ => cg
  end.

(** A run of three lines: a call with no [cob] and no [cfi] set, its cost
    line, and one more cost line. *)
Definition call_example_0 : context * globals :=
  (mk_context (<["cfn" := "(2) func1"]>
                 (<["fn" := "(1) main"]>
                    (<["fl" := "(1) file1.c"]> (state initial_context))))
              false,
   initial_globals).
Definition call_example_1 : context * globals :=
  Eval vm_compute in after_line "calls=1 50" call_example_0.
Definition call_example_2 : context * globals :=
  Eval vm_compute in after_line "16 400" call_example_1.
Definition call_example_3 : context * globals :=
  Eval vm_compute in after_line "17 20" call_example_2.

(** The graph as the parser can build it. *)
Record graph_ok (fs : Function.heap) : Prop := mk_graph_ok {
  (** an object sits under its signature *)
  ok_signature : ∀ r f, fs !! r = Some f → Function.str f = r;
  (** totals are not negative *)
  ok_total : ∀ r f, fs !! r = Some f → 0 ≤ Function.total_call_count f;
  (** a call count is kept for objects of the graph only *)
  ok_callee : ∀ r f k, fs !! r = Some f →
    is_Some (Function.callcounts f !! k) →
    ∃ c ce, fs !! c = Some ce ∧ Function.key ce = k;
  (** the calls over one edge are among the calls the callee received *)
  ok_edge : ∀ r f c ce n, fs !! r = Some f → fs !! c = Some ce →
    Function.callcounts f !! Function.key ce = Some n →
    n ≤ Function.total_call_count ce
}.

(** The steps by which the parser builds the graph: [lookup_f] on resolved
    names, and the three methods. *)
Inductive construction :=
| NewFunction (objectname filename name : string)
| AddCall (caller callee : string) (count : Z)
| AddCallCost (caller callee : string) (cost : Z)
| AddCost (function : string) (cost : Z).

Definition construct (op : construction) (fs : Function.heap)
  : result Function.heap :=
  match op with
  | NewFunction o f n =>
      let func := Function.init o f n in
      let signature := Function.str func in
      Ok (if bool_decide (is_Some (fs !! signature)) then fs
          else <[signature := func]> fs)
  | AddCall caller callee count => Function.add_call caller callee count fs
  | AddCallCost caller callee c => Function.add_callcost caller callee c fs
  | AddCost function c => Function.add_cost function c fs
  end.

Fixpoint construct_all (ops : list construction) (fs : Function.heap)
  : result Function.heap :=
  match ops with
  | [] => Ok fs
  | op :: ops => fs ← construct op fs; construct_all ops fs
  end.

(** Every count handed to [add_call] is at least 0. *)
Definition counts_nonneg (ops : list construction) : Prop :=
  Forall (λ op, match op with
                | AddCall _ _ count => 0 ≤ count
                | _ => True
                end) ops.

(** The count of a [calls=] line, when it has one, is at least 0. *)
Definition call_count_nonneg (raw : string) : Prop :=
  ∀ value field n,
    Re.directive (Str.strip raw) = Some ("calls", value) →
    Str.split " " value !! 0%nat = Some field →
    Str.int field = Ok n → 0 ≤ n.

(** Code of the parser that does not raise [AssertionError]. *)
Definition never_asserts {A} (m : run A) : Prop :=
  ∀ g, m g ≠ Raise AssertionError.

(** Two callers of one callee, built step by step. *)
Definition shared_callee_steps : list construction :=
  [NewFunction "o" "a.c" "main"; NewFunction "o" "a.c" "f";
   NewFunction "o" "a.c" "g";
   AddCall "a.c#main" "a.c#f" 1; AddCallCost "a.c#main" "a.c#f" 400;
   AddCall "a.c#main" "a.c#g" 2; AddCallCost "a.c#main" "a.c#g" 400;
   AddCall "a.c#f" "a.c#g" 3; AddCallCost "a.c#f" "a.c#g" 300;
   AddCost "a.c#g" 700].

Definition shared_callee_graph : Function.heap :=
  Eval vm_compute in
  match construct_all shared_callee_steps ∅ with
  | Ok fs => fs
  | Raise _ => ∅
  end.

(** A root whose self cost is too large for a float. *)
Definition huge_root_steps : list construction :=
  [NewFunction "o" "a.c" "main"; NewFunction "o" "a.c" "f";
   AddCall "a.c#main" "a.c#f" 1; AddCallCost "a.c#main" "a.c#f" 5;
   AddCost "a.c#main" (2 ^ 1024)].

Definition huge_root_graph : Function.heap :=
  Eval vm_compute in
  match construct_all huge_root_steps ∅ with
  | Ok fs => fs
  | Raise _ => ∅
  end.

Definition huge_root : Function.t :=
  Eval vm_compute in
  default (Function.init "" "" "") (huge_root_graph !! "a.c#main").

(** The example input of the header of the program, and the graph the
    parser makes of it. *)
Definition documented_input : list string :=
  ["# callgrind format"; "events: Instructions"; "";
   "fl=(1) file1.c"; "fn=(1) main"; "16 20";
   "cfn=(2) func1"; "calls=1 50"; "16 400";
   "cfi=(2) file2.c"; "cfn=(3) func2"; "calls=3 20"; "16 400"; "";
   "fn=(2)"; "51 100"; "cfi=(2)"; "cfn=(3)"; "calls=2 20"; "51 300"; "";
   "fl=(2)"; "fn=(3)"; "20 700"].

Definition documented_graph : Function.heap :=
  Eval vm_compute in
  match parse_body (parse_header documented_input) initial_globals with
  | Ok (_, g) => functions g
  | Raise _ => ∅
  end.

Definition documented_function (r : string) : Function.t :=
  default (Function.init "" "" "") (documented_graph !! r).

Definition documented_main : Function.t :=
  Eval vm_compute in documented_function "file1.c#main".
Definition documented_func1 : Function.t :=
  Eval vm_compute in documented_function "file1.c#func1".
Definition documented_func2 : Function.t :=
  Eval vm_compute in documented_function "file2.c#func2".

(** Every object of the graph has its accumulators registered. *)
Definition all_registered (fs : Function.heap) : Prop :=
  ∀ r f, fs !! r = Some f → accumulators_registered f.

(** ** Notions for the further properties *)

(** Every character of [s] passes the test [p]. *)
Fixpoint string_forall (p : ascii → bool) (s : string) : bool :=
  match s with
  | EmptyString => true
  | String c r => p c && string_forall p r
  end.

(** The token that stands for the number [ds]: the digits in parentheses. *)
Definition token (ds : string) : string := "(" +:+ ds +:+ ")".

(** One or more decimal digits. *)
Definition is_number (ds : string) : Prop :=
  ds ≠ "" ∧ string_forall Str.is_digit ds = true.

(** A value a definition can carry: not empty, and all on one line. *)
Definition is_value (v : string) : Prop :=
  v ≠ "" ∧ string_forall (λ c, negb (Str.is_newline c)) v = true.

(** The key list of [functions] names each of its keys once. *)
Definition keys_listed (g : globals) : Prop :=
  NoDup (functions_keys g)
  ∧ ∀ k, k ∈ functions_keys g ↔ is_Some (functions g !! k).

(** A step that is a method call on objects that exist. *)
Definition is_method (op : construction) : Prop :=
  match op with
  | NewFunction _ _ _ => False
  | _ => True
  end.

(** A body with one caller and one callee, and the globals it leaves. *)
Definition small_body : list string :=
  ["fn=(1) main"; "1 2"; "cfn=(2) f"; "calls=1 3"; "1 4"].

Definition small_globals : globals :=
  Eval vm_compute in
  match parse_body small_body initial_globals with
  | Ok (_, g) => g
  | Raise _ => initial_globals
  end.

(** A line the loops of [parse_header] and [parse_body] pass over: a
    comment or a blank line. *)
Definition is_skipped (raw : string) : bool :=
  Str.startswith "#" (Str.strip raw)
  || (String.length (Str.strip raw) =? 0)%nat.

(** A line [parse_header] takes from the queue. *)
Definition is_header_line (raw : string) : bool :=
  is_skipped raw || bool_decide (is_Some (Re.header (Str.strip raw))).

(** The key of a directive line, as [parse_body] reads it. *)
Definition directive_key (raw : string) : option string :=
  (alias ∘ fst) <$> Re.directive (Str.strip raw).

(** A directive line that only writes the local [state] of [parse_body]. *)
Definition sets_state_only (raw : string) : bool :=
  match directive_key raw with
  | Some key =>
      negb (String.eqb key "calls" || String.eqb key "fi"
            || String.eqb key "fe")
  | None => false
  end.

(** The queue and the globals of a result, with the queue changed by [f]. *)
Definition on_queue (f : list string → list string)
    (m : result (list string * globals)) : result (list string * globals) :=
  match m with
  | Ok (rest, g) => Ok (f rest, g)
  | Raise e => Raise e
  end.

(** The lines that are neither comments nor blank. *)
Definition without_skipped (queue : list string) : list string :=
  filter (λ raw, is_skipped raw = false) queue.

(** The errors of a cost line that has no second field. *)
Definition field_missing (e : exn) : Prop :=
  e = IndexError ∨ e = KeyError ∨ ∃ msg, e = Exception msg.

(** A path of calls that starts at the object [r]: the signature of [r],
    then of one of its callees, and so on. *)
Inductive call_path (fs : Function.heap) : string → list string → Prop :=
| call_path_end r me :
    fs !! r = Some me → call_path fs r [Function.str me]
| call_path_step r me c frames :
    fs !! r = Some me → c ∈ Function.calls me → call_path fs c frames →
    call_path fs r (Function.str me :: frames).

(** A line of the output: the frames joined by semicolons, a space, and a
    number. *)
Definition stack_line (frames : list string) (v : Z) : string :=
  Str.join ";" frames +:+ " " +:+ pretty v.

(** No object of the graph has a callee. *)
Definition no_callees (fs : Function.heap) : Prop :=
  ∀ r f, fs !! r = Some f → Function.calls f = [].

(** Every callee listed by an object is an object of the graph, and is
    among the callees the object has registered. *)
Definition linked (fs : Function.heap) : Prop :=
  ∀ r me c, fs !! r = Some me → c ∈ Function.calls me →
    ∃ ce, fs !! c = Some ce ∧ Function.key ce ∈ Function.callfunctions me.

(** A float that is a number: not an infinity, not a NaN. *)
Definition is_finite (x : spec_float) : Prop :=
  match x with
  | S754_zero _ | S754_finite _ _ _ => True
  | S754_infinity _ | S754_nan => False
  end.

(** The exceptions with which the parser can end. *)
Definition parse_error (e : exn) : Prop :=
  e = KeyError ∨ e = IndexError ∨ e = ValueError ∨ ∃ msg, e = Exception msg.

(** The exceptions with which the walk can end. *)
Definition walk_error (e : exn) : Prop :=
  e = AssertionError ∨ e = OverflowError.

(** The three objects of the graph with two callers of one callee. *)
Definition shared_main : Function.t :=
  Eval vm_compute in
  default (Function.init "" "" "") (shared_callee_graph !! "a.c#main").
Definition shared_f : Function.t :=
  Eval vm_compute in
  default (Function.init "" "" "") (shared_callee_graph !! "a.c#f").
Definition shared_g : Function.t :=
  Eval vm_compute in
  default (Function.init "" "" "") (shared_callee_graph !! "a.c#g").

(** ** The graph of the parser, and the interpreter's bound *)

(** The calls a function has received over the edges of the graph: the sum
    of the counts that the objects keep for it. *)
Definition inbound (fs : Function.heap) (k : Function.ident) : Z :=
  map_fold (λ _ f acc, acc + accumulated (Function.callcounts f) k) 0 fs.

(** An object sits under its signature. *)
Definition signed (fs : Function.heap) : Prop :=
  ∀ r f, fs !! r = Some f → Function.str f = r.

(** A registered callee is a listed callee. *)
Definition listed (fs : Function.heap) : Prop :=
  ∀ r f k, fs !! r = Some f → k ∈ Function.callfunctions f →
    ∃ c ce, c ∈ Function.calls f ∧ fs !! c = Some ce ∧ Function.key ce = k.

(** The total of a function is the sum of the counts of the edges to it. *)
Definition balanced (fs : Function.heap) : Prop :=
  ∀ c ce, fs !! c = Some ce →
    Function.total_call_count ce = inbound fs (Function.key ce).

(** The graph as the parser builds it, whatever the numbers of the input. *)
Record graph_built (fs : Function.heap) : Prop := mk_graph_built {
  built_signed : signed fs;
  built_linked : linked fs;
  built_listed : listed fs;
  built_registered : all_registered fs;
  built_balanced : balanced fs
}.

(** The globals that the parser makes of the example of the header. *)
Definition documented_globals : globals :=
  Eval vm_compute in
  match parse_body (parse_header documented_input) initial_globals with
  | Ok (_, g) => g
  | Raise _ => initial_globals
  end.

(** Two functions that no one calls and that call a third: the first with a
    self cost too large for a float, the second with self cost 7. *)
Definition two_roots_input : list string :=
  Eval vm_compute in
  ["fn=a"; "1 " +:+ pretty (2 ^ 1024); "cfn=x"; "calls=1 1"; "1 5";
   "fn=b"; "1 7"; "cfn=x"; "calls=1 1"; "1 5"].

Definition two_roots_globals : globals :=
  Eval vm_compute in
  match parse_body (parse_header two_roots_input) initial_globals with
  | Ok (_, g) => g
  | Raise _ => initial_globals
  end.

Definition two_roots_b : Function.t :=
  Eval vm_compute in
  default (Function.init "" "" "") (functions two_roots_globals !! "???#b").

(** ** The walk under the interpreter's bound on nested calls

    CPython bounds the nesting of calls (1000 by default; the program does
    not change the bound) and raises [RecursionError] at the call that would
    exceed it. Every level of [print_stacks] nests one call deeper. Within a
    level the deepest calls are made by the dictionary lookups of the loop,
    which hash the callee: [__hash__] calls [__repr__], one call more than
    [str(self)] needs. So a level whose caller could do its lookups can be
    entered and can print its line, and the first call that does not fit is
    the lookup [self.callcosts[f]] of some level. [room] is the number of
    levels whose lookups still fit. *)
Fixpoint print_stacks_within (room : nat) (fs : Function.heap)
    (self : string) (stack : list string) (count cost : Z)
  : printing (list string) :=
  me ← plift (Function.deref fs self);
  let signature := Function.str me in
  if bool_decide (signature ∈ stack) then pret stack
  else
    let stack := stack ++ [signature] in
    stack ←
      (if (0 <? Z.of_nat (length (Function.calls me))) then
         scale ← plift (Function.scale_of me count);
         v ← plift (Function.scaled scale (Function.cost me));
         _ ← print (Str.join ";" stack) (pretty v);
         pfor (λ f stack,
                 match room with
                 | O => ([], Raised RecursionError)
                 | S room =>
                     fe ← plift (Function.deref fs f);
                     callcost ← plift (Str.getitem (Function.callcosts me)
                                         (Function.key fe));
                     callcount ← plift (Str.getitem (Function.callcounts me)
                                          (Function.key fe));
                     c ← plift (Function.scaled scale callcost);
                     print_stacks_within room fs f stack callcount c
                 end)
              (Function.calls me) stack
       else
         _ ← print (Str.join ";" stack) (pretty cost);
         pret stack);
    pret (removelast stack).

(** The body of the loop of [main], and [main], under the bound. *)
Definition traverse_within (room : nat) (fs : Function.heap) (r : string)
  : printing unit :=
  func ← plift (Function.deref fs r);
  if is_root func
  then _ ← print_stacks_within room fs r [] 0 0; mret tt
  else mret tt.

Definition main_within (room : nat) (queue : list string)
  : printing (list string) :=
  let queue := parse_header queue in
  '(queue, g) ← plift (parse_body queue initial_globals);
  let queue := parse_header queue in
  _ ← pfor (λ r _, traverse_within room (functions g) r) (functions_keys g) tt;
  mret queue.

(** * Properties *)

(** ** The monads *)

Ltac unfold_monad :=
  unfold mbind, mret, printing_bind, printing_ret, result_bind, result_ret,
    run_bind, run_ret in *.

Lemma pbind_Returned {A B} (m : printing A) (k : A → printing B) out b :
  pbind m k = (out, Returned b) →
  ∃ o1 a o2, m = (o1, Returned a) ∧ k a = (o2, Returned b) ∧ out = o1 ++ o2.
Proof.
  destruct m as [o1 [a|e|]]; simpl; try discriminate.
  destruct (k a) as [o2 o] eqn:Hk. intros [= <- ->]. by exists o1, a, o2.
Qed.

Lemma plift_Returned {A} (m : result A) out a :
  plift m = (out, Returned a) → m = Ok a ∧ out = [].
Proof. destruct m; simpl; intros [= <- <-] || discriminate; done. Qed.

Lemma pfor_state {A S} (body : A → S → printing S) l :
  (∀ x s out s', x ∈ l → body x s = (out, Returned s') → s' = s) →
  ∀ s out s', pfor body l s = (out, Returned s') → s' = s.
Proof.
  induction l as [|x l IH]; intros Hbody s out s'; simpl.
  - by intros [= _ ->].
  - intros (o1 & s1 & o2 & H1 & H2 & _)%pbind_Returned.
    apply Hbody in H1 as ->; [|left].
    eapply IH; [|done]. intros. eapply Hbody; [by right|done].
Qed.

(** ** The walk hands the stack back as it found it *)

Lemma print_stacks_S fuel fs self stack count cost :
  Function.print_stacks (S fuel) fs self stack count cost =
  (me ← plift (Function.deref fs self);
   let signature := Function.str me in
   if bool_decide (signature ∈ stack) then pret stack
   else
     let stack := stack ++ [signature] in
     stack ←
       (if (0 <? Z.of_nat (length (Function.calls me))) then
          scale ← plift (Function.scale_of me count);
          v ← plift (Function.scaled scale (Function.cost me));
          _ ← print (Str.join ";" stack) (pretty v);
          pfor (λ f stack,
                  fe ← plift (Function.deref fs f);
                  callcost ← plift (Str.getitem (Function.callcosts me)
                                      (Function.key fe));
                  callcount ← plift (Str.getitem (Function.callcounts me)
                                       (Function.key fe));
                  c ← plift (Function.scaled scale callcost);
                  Function.print_stacks fuel fs f stack callcount c)
               (Function.calls me) stack
        else
          _ ← print (Str.join ";" stack) (pretty cost);
          pret stack);
     pret (removelast stack)).
Proof. reflexivity. Qed.

Lemma print_stacks_returns_stack fuel :
  ∀ fs self stack count cost out stack',
    Function.print_stacks fuel fs self stack count cost = (out, Returned stack') →
    stack' = stack.
Proof.
  induction fuel as [|fuel IH]; intros fs self stack count cost out stack'.
  { discriminate. }
  rewrite print_stacks_S. unfold_monad.
  intros (o1 & me & o2 & [Hme ->]%plift_Returned & H & ->)%pbind_Returned.
  cbv zeta in H. case_bool_decide as Hin.
  { by injection H as _ ->. }
  apply pbind_Returned in H as (o3 & s3 & o4 & H & [= _ <-] & _).
  assert (s3 = stack ++ [Function.str me]) as ->; [|apply removelast_last].
  destruct (0 <? _).
  - apply pbind_Returned in H as (? & scale & ? & _ & H & _).
    apply pbind_Returned in H as (? & v & ? & _ & H & _).
    apply pbind_Returned in H as (? & [] & ? & _ & H & _).
    eapply pfor_state; [|exact H].
    intros f s out' s' _ Hb.
    apply pbind_Returned in Hb as (? & fe & ? & _ & Hb & _).
    apply pbind_Returned in Hb as (? & cc & ? & _ & Hb & _).
    apply pbind_Returned in Hb as (? & cn & ? & _ & Hb & _).
    apply pbind_Returned in Hb as (? & c & ? & _ & Hb & _).
    by eapply IH.
  - apply pbind_Returned in H as (? & [] & ? & _ & [= _ <-] & _). done.
Qed.

(** ** How a computation that prints can fail *)

Lemma failure_of_pbind {A B} (m : printing A) (k : A → printing B) f :
  failure_of (pbind m k) = Some f →
  failure_of m = Some f ∨
  ∃ out a, m = (out, Returned a) ∧ failure_of (k a) = Some f.
Proof.
  destruct m as [o1 [a|e|]]; unfold failure_of; simpl; auto.
  destruct (k a) as [o2 o] eqn:Hk. simpl. intros H. right.
  exists o1, a. by rewrite Hk.
Qed.

Lemma failure_of_plift {A} (m : result A) f :
  failure_of (plift m) = Some f → ∃ e, m = Raise e ∧ f = Fails e.
Proof. destruct m; unfold failure_of; simpl; [done|]. intros [= <-]; eauto. Qed.

Lemma failure_of_pfor {A S} (body : A → S → printing S) l s f :
  (∀ x out s', x ∈ l → body x s = (out, Returned s') → s' = s) →
  failure_of (pfor body l s) = Some f →
  ∃ x, x ∈ l ∧ failure_of (body x s) = Some f.
Proof.
  induction l as [|x l IH]; intros Hst; simpl; [done|].
  intros [H|(out & s' & H1 & H2)]%failure_of_pbind.
  - exists x. split; [left|done].
  - assert (s' = s) as -> by (eapply Hst; [left|done]).
    destruct IH as (y & Hy & Hf); [|done|].
    + intros ??? Hin. apply Hst. by right.
    + exists y. split; [by right|done].
Qed.

(** ** Termination of the walk *)

Lemma unvisited_size fs stack : (size (unvisited fs stack) ≤ size fs)%nat.
Proof. apply map_subseteq_size, map_filter_subseteq. Qed.

Lemma unvisited_push fs stack self me :
  fs !! self = Some me → Function.str me ∉ stack →
  (size (unvisited fs (stack ++ [Function.str me]))
   < size (unvisited fs stack))%nat.
Proof.
  intros Hme Hin. apply map_subset_size, map_subset_alt. split.
  - apply map_subseteq_spec. intros k f.
    unfold unvisited. rewrite !map_lookup_filter_Some. simpl.
    intros [? Hk]. split; [done|]. intros ?. apply Hk.
    apply elem_of_app. by left.
  - exists self. unfold unvisited. split.
    + apply map_lookup_filter_None. right. intros f Hf. simpl.
      rewrite Hme in Hf. injection Hf as <-. intros Hn. apply Hn.
      apply elem_of_app. right. by apply list_elem_of_singleton.
    + exists me. by apply map_lookup_filter_Some.
Qed.

Lemma print_stacks_enough_fuel fuel :
  ∀ fs self stack count cost,
    (size (unvisited fs stack) < fuel)%nat →
    failure_of (Function.print_stacks fuel fs self stack count cost)
    ≠ Some Diverges.
Proof.
  induction fuel as [|fuel IH]; intros fs self stack count cost Hsz; [lia|].
  rewrite print_stacks_S. unfold_monad.
  intros [(e & _ & [=])%failure_of_plift
         |(? & me & [Hme _]%plift_Returned & H)]%failure_of_pbind.
  cbv zeta in H. case_bool_decide as Hin; [done|].
  unfold Function.deref in Hme. destruct (fs !! self) as [me'|] eqn:Hfs; [|done].
  injection Hme as ->.
  pose proof (unvisited_push _ _ _ _ Hfs Hin) as Hlt.
  apply failure_of_pbind in H as [H|(? & ? & _ & [=])].
  destruct (0 <? _).
  - apply failure_of_pbind in H
      as [(e & _ & [=])%failure_of_plift|(? & scale & _ & H)].
    apply failure_of_pbind in H
      as [(e & _ & [=])%failure_of_plift|(? & v & _ & H)].
    apply failure_of_pbind in H as [[=]|(? & [] & _ & H)].
    apply failure_of_pfor in H as (f & _ & H).
    + apply failure_of_pbind in H
        as [(e & _ & [=])%failure_of_plift|(? & fe & _ & H)].
      apply failure_of_pbind in H
        as [(e & _ & [=])%failure_of_plift|(? & cc & _ & H)].
      apply failure_of_pbind in H
        as [(e & _ & [=])%failure_of_plift|(? & cn & _ & H)].
      apply failure_of_pbind in H
        as [(e & _ & [=])%failure_of_plift|(? & c & _ & H)].
      revert H. apply IH. lia.
    + intros f out' s' _ Hb.
      apply pbind_Returned in Hb as (? & fe & ? & _ & Hb & _).
      apply pbind_Returned in Hb as (? & cc & ? & _ & Hb & _).
      apply pbind_Returned in Hb as (? & cn & ? & _ & Hb & _).
      apply pbind_Returned in Hb as (? & c & ? & _ & Hb & _).
      by eapply print_stacks_returns_stack.
  - apply failure_of_pbind in H as [[=]|(? & [] & _ & [=])].
Qed.

(** The fuel that [main] gives the walk is enough. *)
Lemma print_stacks_terminates fs self stack count cost :
  failure_of (Function.print_stacks (S (size fs)) fs self stack count cost)
  ≠ Some Diverges.
Proof.
  apply print_stacks_enough_fuel. pose proof (unvisited_size fs stack). lia.
Qed.

(** The cycle guard: a signature already on the stack ends the call at
    once, with nothing printed and the stack as it was. *)
Lemma print_stacks_on_stack fuel fs self me stack count cost :
  fs !! self = Some me → Function.str me ∈ stack →
  Function.print_stacks (S fuel) fs self stack count cost
  = ([], Returned stack).
Proof.
  intros Hme Hin. rewrite print_stacks_S. unfold Function.deref.
  rewrite Hme. unfold_monad. unfold plift, pret, pbind.
  by rewrite bool_decide_eq_true_2.
Qed.

(** C2. The depth-first walk terminates on every graph, cyclic ones
    included: with the fuel [main] gives it (one more than the number of
    objects) it never runs out of fuel. A node whose signature is already
    on the path stack makes the call return at once, with nothing printed
    and nothing pushed. On the graph A→B→A the walk from A prints the line
    of A, then the line of B, and stops: A is not entered again. *)
Theorem C2_walk_terminates :
  (∀ fs self stack count cost,
     failure_of (Function.print_stacks (S (size fs)) fs self stack count cost)
     ≠ Some Diverges)
  ∧ (∀ fuel fs self me stack count cost,
       fs !! self = Some me → Function.str me ∈ stack →
       Function.print_stacks (S fuel) fs self stack count cost
       = ([], Returned stack))
  ∧ (Function.calls <$> cycle_graph !! "a.c#A" = Some ["a.c#B"]
     ∧ Function.calls <$> cycle_graph !! "a.c#B" = Some ["a.c#A"]
     ∧ Function.print_stacks (S (size cycle_graph)) cycle_graph "a.c#A" [] 0 0
       = (["a.c#A 0"; "a.c#A;a.c#B 7"], Returned [])).
Proof.
  split; [exact print_stacks_terminates|].
  split; [exact print_stacks_on_stack|].
  repeat split; vm_compute; reflexivity.
Qed.

Lemma C2_walk_terminates_witness :
  Function.print_stacks 1 cycle_graph "a.c#A" ["a.c#A"] 1 5
  = ([], Returned ["a.c#A"]).
Proof.
  eapply (proj1 (proj2 C2_walk_terminates)).
  - vm_compute. reflexivity.
  - vm_compute. left.
Defined.

(** ** Leaves *)

Lemma print_stacks_leaf fuel fs self me stack count cost :
  fs !! self = Some me → Function.calls me = [] →
  Function.str me ∉ stack →
  Function.print_stacks (S fuel) fs self stack count cost
  = ([Str.join ";" (stack ++ [Function.str me]) +:+ " " +:+ pretty cost],
     Returned stack).
Proof.
  intros Hme Hcalls Hin. rewrite print_stacks_S. unfold Function.deref.
  rewrite Hme. unfold_monad. unfold plift, pret, pbind at 1.
  rewrite bool_decide_eq_false_2 by done. cbv zeta. rewrite Hcalls.
  simpl. by rewrite removelast_last.
Qed.

(** C6. A node visited with no callees prints one line: the path stack
    joined by semicolons, a space, and the cost it received from the call
    that reached it. Its own self cost plays no part: the line is the same
    whatever value the [cost] field holds. *)
Theorem C6_leaf_line fuel fs self me stack count cost selfcost :
  fs !! self = Some me → Function.calls me = [] →
  Function.str me ∉ stack →
  Function.print_stacks (S fuel)
    (<[self := Function.with_cost selfcost me]> fs) self stack count cost
  = ([Str.join ";" (stack ++ [Function.str me]) +:+ " " +:+ pretty cost],
     Returned stack).
Proof.
  intros Hme Hcalls Hin.
  apply (print_stacks_leaf fuel _ self (Function.with_cost selfcost me));
    [by rewrite lookup_insert_eq|done|done].
Qed.

Lemma C6_leaf_line_witness :
  Function.print_stacks 1
    (<["a.c#B" := Function.with_cost 1000 (Function.init "o" "a.c" "B")]>
       {["a.c#B" := Function.init "o" "a.c" "B"]})
    "a.c#B" ["a.c#A"] 1 5
  = (["a.c#A;a.c#B 5"], Returned ["a.c#A"]).
Proof.
  apply (C6_leaf_line 0 {["a.c#B" := Function.init "o" "a.c" "B"]} "a.c#B"
           (Function.init "o" "a.c" "B") ["a.c#A"] 1 5 1000).
  - vm_compute. reflexivity.
  - reflexivity.
  - vm_compute. intros H. inversion H as [|??? H']. inversion H'.
Defined.

(** ** The resolver *)

(** C4. On a table with no entry for the tokens 1 and 2 (a fresh table
    in particular): resolving "(1) foo" returns "foo" and stores it;
    resolving "(1)" afterwards returns "foo"; the later definition
    "(1) bar" returns "bar" and leaves the stored entry as it is; and
    resolving "(2)" raises the exception that names the token. *)
Theorem C4_resolver_round_trip (T : gmap string string) :
  T !! "(1)" = None → T !! "(2)" = None →
  let T1 := <["(1)" := "foo"]> T in
  lookup T "(1) foo" = Ok ("foo", T1)
  ∧ T1 !! "(1)" = Some "foo"
  ∧ lookup T1 "(1)" = Ok ("foo", T1)
  ∧ lookup T1 "(1) bar" = Ok ("bar", T1)
  ∧ lookup T1 "(2)" = Raise (Exception "(2) not found").
Proof.
  intros H1 H2 T1.
  assert (T1 !! "(1)" = Some "foo") as H1' by apply lookup_insert_eq.
  assert (T1 !! "(2)" = None) as H2'
    by (subst T1; by rewrite lookup_insert_ne).
  unfold lookup.
  change (Re.definition "(1) foo") with (Some ("(1)", "foo")).
  change (Re.definition "(1) bar") with (Some ("(1)", "bar")).
  change (Re.definition "(1)") with (@None (string * string)).
  change (Re.definition "(2)") with (@None (string * string)).
  change (Re.reference "(1)") with (Some "(1)").
  change (Re.reference "(2)") with (Some "(2)").
  cbv beta iota. by rewrite H1, H1', H2'.
Qed.

Lemma C4_resolver_round_trip_witness :
  lookup ∅ "(1) foo" = Ok ("foo", <["(1)" := "foo"]> ∅)
  ∧ lookup (<["(1)" := "foo"]> ∅) "(2)" = Raise (Exception "(2) not found").
Proof.
  destruct (C4_resolver_round_trip ∅) as (H1 & _ & _ & _ & H2);
    [reflexivity|reflexivity|].
  split; [exact H1|exact H2].
Defined.

(** ** Self edges *)

Lemma eq_with_callee callee k me ce :
  Function.eq (Function.with_callee callee k me) ce = Function.eq me ce.
Proof. reflexivity. Qed.

Lemma eq_key self o :
  Function.eq self o = true ↔ Function.key o = Function.key self.
Proof.
  unfold Function.eq, Function.key. rewrite !andb_true_iff, !String.eqb_eq.
  split; [intros [[-> ->] ->]; done|intros [= -> -> ->]; done].
Qed.

Lemma key_with_callee callee k me :
  Function.key (Function.with_callee callee k me) = Function.key me.
Proof. reflexivity. Qed.

Lemma accumulated_fresh d k k' :
  d !! k = None → accumulated (<[k := 0]> d) k' = accumulated d k'.
Proof.
  intros Hk. unfold accumulated. destruct (decide (k = k')) as [->|Hne].
  - by rewrite lookup_insert_eq, Hk.
  - by rewrite lookup_insert_ne.
Qed.

(** C3. Registering a call from a function to itself ([caller == callee]
    by [__eq__]) with [add_call] and then [add_callcost] appends the callee
    to the caller's [calls] once if it was not registered yet and not at
    all if it was (so registering again appends nothing), and leaves the
    call count and call cost accumulators and [total_call_count] and
    [total_call_cost] of every object as they were, whatever the count and
    the cost. *)
Theorem C3_self_edge fs self callee me ce count count' cost :
  fs !! self = Some me → fs !! callee = Some ce →
  accumulators_registered me →
  Function.eq me ce = true →
  ∃ fs1 me1,
    Function.add_call self callee count fs = Ok fs1
    ∧ Function.add_callcost self callee cost fs1 = Ok fs1
    ∧ Function.add_call self callee count' fs1 = Ok fs1
    ∧ fs1 !! self = Some me1
    ∧ Function.calls me1
      = Function.calls me
        ++ (if bool_decide (Function.key ce ∈ Function.callfunctions me)
            then [] else [callee])
    ∧ dom fs1 = dom fs
    ∧ ∀ r f, fs !! r = Some f →
        ∃ f1, fs1 !! r = Some f1
          ∧ Function.total_call_count f1 = Function.total_call_count f
          ∧ Function.total_call_cost f1 = Function.total_call_cost f
          ∧ ∀ k, accumulated (Function.callcounts f1) k
                 = accumulated (Function.callcounts f) k
               ∧ accumulated (Function.callcosts f1) k
                 = accumulated (Function.callcosts f) k.
Proof.
  intros Hme Hce [Hcosts Hcounts] Heq.
  set (k := Function.key ce).
  set (me1 := if bool_decide (k ∈ Function.callfunctions me) then me
              else Function.with_callee callee k me).
  assert (Function.eq me1 ce = true) as Heq1.
  { unfold me1. case_bool_decide; exact Heq. }
  assert (k ∈ Function.callfunctions me1) as Hk1.
  { unfold me1. case_bool_decide; [done|]. simpl.
    apply elem_of_union_l. by apply elem_of_singleton. }
  assert (∀ ce', <[self := me1]> fs !! callee = Some ce' →
                 Function.key ce' = k ∧ Function.eq me1 ce' = true) as Hce1.
  { intros ce'. destruct (decide (self = callee)) as [->|Hne].
    - rewrite lookup_insert_eq. intros Hx. injection Hx as Hx. subst ce'.
      rewrite Hme in Hce. injection Hce as <-.
      assert (Function.key me1 = Function.key me) as Hkk
        by (unfold me1; case_bool_decide; reflexivity).
      split; [done|]. by apply eq_key.
    - rewrite lookup_insert_ne by done. rewrite Hce. by intros [= <-]. }
  assert (is_Some (<[self := me1]> fs !! callee)) as [ce' Hce'].
  { destruct (decide (self = callee)) as [->|Hne].
    - rewrite lookup_insert_eq. eauto.
    - rewrite lookup_insert_ne by done. eauto. }
  destruct (Hce1 ce' Hce') as [Hk' Heq'].
  exists (<[self := me1]> fs), me1. repeat split.
  - unfold Function.add_call, Function.deref. rewrite Hme, Hce.
    unfold_monad. simpl. fold k. fold me1. by rewrite Heq1.
  - unfold Function.add_callcost, Function.deref.
    rewrite lookup_insert_eq, Hce'. unfold_monad. simpl. by rewrite Heq'.
  - unfold Function.add_call, Function.deref.
    rewrite lookup_insert_eq, Hce'. unfold_monad. simpl. rewrite Hk'.
    rewrite bool_decide_eq_true_2 by done. rewrite Heq'.
    by rewrite insert_insert_eq.
  - apply lookup_insert_eq.
  - unfold me1. fold k. case_bool_decide; simpl; [by rewrite app_nil_r|done].
  - apply dom_insert_lookup_L. eauto.
  - intros r f Hf. destruct (decide (self = r)) as [<-|Hne].
    + rewrite lookup_insert_eq. exists me1. rewrite Hme in Hf.
      injection Hf as <-. unfold me1. case_bool_decide as Hin; [done|].
      simpl. repeat split; apply accumulated_fresh, not_elem_of_dom;
        by rewrite ?Hcosts, ?Hcounts.
    + rewrite lookup_insert_ne by done. by exists f.
Qed.

Lemma C3_self_edge_witness :
  ∃ fs1 me1,
    Function.add_call "a.c#A" "a.c#A" 5 self_edge_example = Ok fs1
    ∧ Function.add_callcost "a.c#A" "a.c#A" 100 fs1 = Ok fs1
    ∧ fs1 !! "a.c#A" = Some me1
    ∧ Function.calls me1 = ["a.c#A"]
    ∧ Function.total_call_count me1 = 0.
Proof.
  destruct (C3_self_edge self_edge_example "a.c#A" "a.c#A"
              (Function.init "o" "a.c" "A") (Function.init "o" "a.c" "A")
              5 5 100)
    as (fs1 & me1 & H1 & H2 & _ & H3 & H4 & _ & H5).
  - reflexivity.
  - reflexivity.
  - split; vm_compute; reflexivity.
  - reflexivity.
  - exists fs1, me1. repeat split; try assumption.
    destruct (H5 "a.c#A" (Function.init "o" "a.c" "A") eq_refl)
      as (f1 & Hf1 & Ht & _).
    rewrite H3 in Hf1. injection Hf1 as <-. exact Ht.
Defined.

(** ** The registry of functions *)

(** What [lookup_f] does, step by step: the three names are resolved in
    their tables, the signature is made of the file and the name, and an
    object is created and stored only when the signature is new. *)
Lemma lookup_f_Ok s_ob s_fl s_fn g r g' :
  lookup_f s_ob s_fl s_fn g = Ok (r, g') →
  ∃ obstr flstr fnstr,
    lookup (ob g) s_ob = Ok (obstr, ob g')
    ∧ lookup (fl g) s_fl = Ok (flstr, fl g')
    ∧ lookup (fn g) s_fn = Ok (fnstr, fn g')
    ∧ r = flstr +:+ "#" +:+ fnstr
    ∧ functions g'
      = match functions g !! r with
        | Some _ => functions g
        | None => <[r := Function.init obstr flstr fnstr]> (functions g)
        end
    ∧ functions_keys g'
      = match functions g !! r with
        | Some _ => functions_keys g
        | None => functions_keys g ++ [r]
        end.
Proof.
  unfold lookup_f, lookup_ob, lookup_fl, lookup_fn, has_function,
    store_function.
  unfold_monad. unfold rbind.
  destruct (lookup (ob g) s_ob) as [[obstr tob]|]; simpl; [|done].
  destruct (lookup (fl g) s_fl) as [[flstr tfl]|]; simpl; [|done].
  destruct (lookup (fn g) s_fn) as [[fnstr tfn]|]; simpl; [|done].
  unfold Function.str. simpl.
  destruct (functions g !! (flstr +:+ "#" +:+ fnstr)) as [f|] eqn:Hf.
  - rewrite bool_decide_eq_true_2 by eauto. simpl. intros [= <- <-].
    exists obstr, flstr, fnstr. simpl. by rewrite Hf.
  - rewrite bool_decide_eq_false_2 by (by intros [? ?]). simpl.
    intros [= <- <-]. exists obstr, flstr, fnstr. simpl. rewrite Hf.
    by rewrite bool_decide_eq_false_2 by (by intros [? ?]).
Qed.

(** C9. Function objects are looked up and created by the signature
    [file#name] alone. When two lookups resolve to the same file and the
    same name, whatever their object names, the second returns the
    reference the first returned and leaves [functions] as it is: one
    object, so one [cost], one [calls] and one set of accumulators. The
    object keeps the object name it was created with: when the first lookup
    created it, that is the first lookup's object name. *)
Theorem C9_signature_is_the_key g g1 g2 r1 r2
    o1 f1 n1 o2 f2 n2 obstr1 obstr2 flstr fnstr :
  lookup_f o1 f1 n1 g = Ok (r1, g1) →
  lookup_f o2 f2 n2 g1 = Ok (r2, g2) →
  fst <$> lookup (ob g) o1 = Ok obstr1 →
  fst <$> lookup (ob g1) o2 = Ok obstr2 →
  fst <$> lookup (fl g) f1 = Ok flstr →
  fst <$> lookup (fl g1) f2 = Ok flstr →
  fst <$> lookup (fn g) n1 = Ok fnstr →
  fst <$> lookup (fn g1) n2 = Ok fnstr →
  r1 = flstr +:+ "#" +:+ fnstr
  ∧ r2 = r1
  ∧ functions g2 = functions g1
  ∧ functions_keys g2 = functions_keys g1
  ∧ ∃ node, functions g2 !! r2 = Some node
      ∧ (functions g !! r1 = None →
         node = Function.init obstr1 flstr fnstr
         ∧ Function.objectname node = obstr1).
Proof.
  intros (a1 & b1 & c1 & Ho1 & Hf1 & Hn1 & -> & Hfs1 & Hks1)%lookup_f_Ok
         (a2 & b2 & c2 & Ho2 & Hf2 & Hn2 & -> & Hfs2 & Hks2)%lookup_f_Ok.
  rewrite Ho1, Ho2, Hf1, Hf2, Hn1, Hn2. unfold fmap, result_fmap. simpl.
  intros [= ->] [= ->] [= ->] [= ->] [= ->] [= ->].
  set (r := flstr +:+ "#" +:+ fnstr) in *.
  assert (∃ node, functions g1 !! r = Some node
            ∧ (functions g !! r = None →
               node = Function.init obstr1 flstr fnstr))
    as (node & Hnode & Hnew).
  { rewrite Hfs1. destruct (functions g !! r) as [node|] eqn:Hr.
    - by exists node.
    - exists (Function.init obstr1 flstr fnstr).
      by rewrite lookup_insert_eq. }
  rewrite Hnode in Hfs2, Hks2.
  repeat split; try done.
  exists node. rewrite Hfs2. split; [done|].
  intros ->%Hnew. done.
Qed.

Lemma C9_signature_is_the_key_witness :
  ∃ g1 g2,
    lookup_f "/bin/one" "a.c" "f" initial_globals = Ok ("a.c#f", g1)
    ∧ lookup_f "/lib/two" "a.c" "f" g1 = Ok ("a.c#f", g2)
    ∧ functions g2 = functions g1
    ∧ Function.objectname <$> functions g2 !! "a.c#f" = Some "/bin/one".
Proof.
  destruct (lookup_f "/bin/one" "a.c" "f" initial_globals)
    as [[r1 g1]|] eqn:H1; [|by vm_compute in H1].
  destruct (lookup_f "/lib/two" "a.c" "f" g1)
    as [[r2 g2]|] eqn:H2;
    [|injection H1 as <- <-; by vm_compute in H2].
  destruct (C9_signature_is_the_key initial_globals g1 g2 r1 r2
              "/bin/one" "a.c" "f" "/lib/two" "a.c" "f"
              "/bin/one" "/lib/two" "a.c" "f" H1 H2)
    as (-> & -> & Hfs & _ & node & Hnode & Hnew).
  - reflexivity.
  - injection H1 as <- <-. reflexivity.
  - reflexivity.
  - injection H1 as <- <-. reflexivity.
  - reflexivity.
  - injection H1 as <- <-. reflexivity.
  - exists g1, g2. split; [reflexivity|]. split; [exact H2|].
    split; [exact Hfs|].
    change "a.c#f" with ("a.c" +:+ "#" +:+ "f").
    rewrite Hnode. destruct Hnew as [-> _]; reflexivity.
Defined.

(** ** The loop of [parse_body] *)

Lemma lower_first_char c :
  Str.is_lower c = true →
  Ascii.eqb c "#" = false
  ∧ (Str.is_digit c || Ascii.eqb c "-" || Ascii.eqb c "+" || Ascii.eqb c "*")
    = false.
Proof.
  destruct c as [[] [] [] [] [] [] [] []]; vm_compute; intros; (done || auto).
Qed.

Lemma cost_first_char c :
  (Str.is_digit c || Ascii.eqb c "-" || Ascii.eqb c "+" || Ascii.eqb c "*")
  = true →
  Ascii.eqb c "#" = false ∧ Str.is_lower c = false.
Proof.
  destruct c as [[] [] [] [] [] [] [] []]; vm_compute; intros; (done || auto).
Qed.

Lemma key_value_first_char sep c r kv :
  Re.key_value sep (String c r) = Some kv → Str.is_lower c = true.
Proof.
  unfold Re.key_value. simpl. destruct (Str.is_lower c); [done|].
  simpl. done.
Qed.

(** A line that matches the directive pattern is no comment line, is not
    empty and does not match the cost-line pattern. *)
Lemma directive_line line kv :
  Re.directive line = Some kv →
  Str.startswith "#" line = false
  ∧ (String.length line =? 0)%nat = false
  ∧ Re.cost_line line = false.
Proof.
  destruct line as [|c r]; [done|].
  intros Hc%key_value_first_char. apply lower_first_char in Hc as [H1 H2].
  rewrite Ascii.eqb_sym in H1.
  unfold Str.startswith.
  change (Str.after_prefix "#" (String c r))
    with (if Ascii.eqb "#" c then Some r else None).
  rewrite H1. done.
Qed.

(** A line that matches the cost-line pattern is no comment line, is not
    empty and does not match the directive pattern. *)
Lemma cost_line_line line :
  Re.cost_line line = true →
  Str.startswith "#" line = false
  ∧ (String.length line =? 0)%nat = false
  ∧ Re.directive line = None.
Proof.
  destruct line as [|c r]; [done|]. simpl.
  intros [H1 H2]%cost_first_char.
  rewrite Ascii.eqb_sym in H1.
  unfold Str.startswith, Re.directive, Re.key_value.
  change (Str.after_prefix "#" (String c r))
    with (if Ascii.eqb "#" c then Some r else None).
  change (Str.span Str.is_lower (String c r))
    with (if Str.is_lower c
          then let '(a, b) := Str.span Str.is_lower r in (String c a, b)
          else (EmptyString, String c r)).
  rewrite H2, H1. done.
Qed.

(** C8, as the code has it. A line that, stripped of surrounding white
    space, is not empty, does not start with [#], and matches neither the
    directive pattern nor the cost-line pattern ends the body: the loop
    stops with that line still at the head of the queue, and the tables and
    the graph as they were. (Empty lines and comment lines are consumed and
    the loop goes on.) *)
Theorem C8_body_ends_at_other_line raw rest c g :
  Str.startswith "#" (Str.strip raw) = false →
  Str.strip raw ≠ "" →
  Re.directive (Str.strip raw) = None →
  Re.cost_line (Str.strip raw) = false →
  parse_body_line raw c g = Ok (EndOfBody, g)
  ∧ parse_body_loop (raw :: rest) c g = Ok (raw :: rest, g).
Proof.
  intros H1 H2 H3 H4.
  assert (parse_body_line raw c g = Ok (EndOfBody, g)) as Hline.
  { unfold parse_body_line. rewrite H1, H3, H4.
    destruct (Str.strip raw); [done|]. reflexivity. }
  split; [done|]. simpl. unfold_monad. by rewrite Hline.
Qed.

Lemma C8_body_ends_at_other_line_witness :
  parse_body_loop ["totals: 1120"; "fn=f"] initial_context initial_globals
  = Ok (["totals: 1120"; "fn=f"], initial_globals).
Proof.
  apply (C8_body_ends_at_other_line "totals: 1120" ["fn=f"]).
  - reflexivity.
  - discriminate.
  - reflexivity.
  - reflexivity.
Defined.

(** A comment line matches neither pattern, and yet the loop consumes it
    and goes on: the claim read for every line fails. *)
Lemma C8_comment_line_is_consumed :
  ¬ (∀ raw rest c g,
       Re.directive (Str.strip raw) = None →
       Re.cost_line (Str.strip raw) = false →
       parse_body_loop (raw :: rest) c g = Ok (raw :: rest, g)).
Proof.
  intros H.
  specialize (H "# a comment" ["16 20"] initial_context initial_globals
                eq_refl eq_refl).
  vm_compute in H. discriminate.
Qed.

(** ** Calls and the cost line that follows *)

Lemma run_bind_Ok {A B} (m : run A) (k : A → run B) g b g' :
  (m ≫= k) g = Ok (b, g') →
  ∃ a g1, m g = Ok (a, g1) ∧ k a g1 = Ok (b, g').
Proof.
  unfold_monad. destruct (m g) as [[a g1]|]; [|done]. intros H. by exists a, g1.
Qed.

Lemma lift_Ok {A} (m : result A) g a g' :
  lift m g = Ok (a, g') → m = Ok a ∧ g' = g.
Proof. unfold lift. destruct m; [|done]. by intros [= -> ->]. Qed.

Lemma state_get_Ok state key g v g' :
  state_get state key g = Ok (v, g') → state !! key = Some v ∧ g' = g.
Proof.
  intros [H ->]%lift_Ok. split; [|done]. unfold Str.getitem in H.
  destruct (state !! key); [|done]. by injection H as ->.
Qed.

Lemma on_functions_Ok f g u g' :
  on_functions f g = Ok (u, g') →
  ∃ fs, f (functions g) = Ok fs
    ∧ g' = mk_globals (ob g) (fl g) (fn g) fs (functions_keys g).
Proof.
  unfold on_functions. unfold_monad. unfold rbind.
  destruct (f (functions g)) as [fs|]; [|done]. intros [= _ <-]. by exists fs.
Qed.

(** What [cost] does when it succeeds: the second field of the line is
    added to the [cost] of the object of the current function, the one named
    by [ob], [fl] and [fn]. *)
Lemma cost_Ok state param g g' :
  cost state param g = Ok (tt, g') →
  ∃ s_ob s_fl s_fn r gm field n me,
    state !! "ob" = Some s_ob ∧ state !! "fl" = Some s_fl
    ∧ state !! "fn" = Some s_fn
    ∧ lookup_f s_ob s_fl s_fn g = Ok (r, gm)
    ∧ Str.split " " param !! 1%nat = Some field
    ∧ Str.int field = Ok n
    ∧ functions gm !! r = Some me
    ∧ functions g'
      = <[r := Function.with_cost (Function.cost me + n) me]> (functions gm).
Proof.
  unfold cost.
  intros (s_ob & ? & [Hob ->]%state_get_Ok & H)%run_bind_Ok.
  apply run_bind_Ok in H as (s_fl & ? & [Hfl ->]%state_get_Ok & H).
  apply run_bind_Ok in H as (s_fn & ? & [Hfn ->]%state_get_Ok & H).
  apply run_bind_Ok in H as (r & gm & Hf & H).
  apply run_bind_Ok in H as (field & ? & [Hi ->]%lift_Ok & H).
  apply run_bind_Ok in H as (n & ? & [Hn ->]%lift_Ok & H).
  apply on_functions_Ok in H as (fs & Hadd & ->).
  unfold Function.add_cost, Function.deref in Hadd.
  destruct (functions gm !! r) as [me|] eqn:Hme; [|done].
  unfold_monad. simpl in Hadd. injection Hadd as <-.
  exists s_ob, s_fl, s_fn, r, gm, field, n, me.
  repeat split; try done.
  unfold Str.index in Hi. destruct (_ !! 1%nat); [|done]. by injection Hi as ->.
Qed.

Lemma parse_body_line_calls raw c g value :
  Re.directive (Str.strip raw) = Some ("calls", value) →
  parse_body_line raw c g
  = (let state := default_from "cfi" "fl"
                    (default_from "cob" "ob"
                       (<["calls" := value]> (state c))) in
     _ ← calls state value; mret (Consumed (mk_context state true))) g.
Proof.
  intros Hd. unfold parse_body_line.
  destruct (directive_line _ _ Hd) as (-> & -> & _). rewrite Hd.
  reflexivity.
Qed.

Lemma parse_body_line_cost raw c g :
  Re.cost_line (Str.strip raw) = true →
  parse_body_line raw c g
  = (if in_call c then
       _ ← callcost (state c) (Str.strip raw);
       mret (Consumed (mk_context (delete "cfi" (delete "cob" (state c)))
                         false))
     else
       _ ← cost (state c) (Str.strip raw);
       mret (Consumed c)) g.
Proof.
  intros Hc. unfold parse_body_line.
  destruct (cost_line_line _ Hc) as (-> & -> & ->). rewrite Hc.
  by destruct (in_call c).
Qed.

Lemma default_from_lookup dst src state k :
  default_from dst src state !! k
  = if bool_decide (k = dst ∧ state !! dst = None) then state !! src
    else state !! k.
Proof.
  unfold default_from. case_bool_decide as Hk.
  - destruct Hk as [-> Hd]. rewrite Hd.
    destruct (state !! src) as [v|] eqn:Hs; [|done].
    by rewrite lookup_insert_eq.
  - destruct (state !! dst) eqn:Hd; [done|].
    destruct (state !! src) eqn:Hs; [|done].
    rewrite lookup_insert_ne; [done|]. intros <-. by apply Hk.
Qed.

(** The context a call is registered from. *)
Lemma call_defaults (st : gmap string string) value :
  let st1 := default_from "cfi" "fl"
               (default_from "cob" "ob" (<["calls" := value]> st)) in
  (st !! "cob" = None → st1 !! "cob" = st !! "ob")
  ∧ (st !! "cfi" = None → st1 !! "cfi" = st !! "fl")
  ∧ (is_Some (st !! "cob") → st1 !! "cob" = st !! "cob")
  ∧ (is_Some (st !! "cfi") → st1 !! "cfi" = st !! "cfi")
  ∧ st1 !! "ob" = st !! "ob"
  ∧ st1 !! "fl" = st !! "fl".
Proof.
  intros st1. subst st1. rewrite !default_from_lookup.
  rewrite !(lookup_insert_ne _ "calls") by done.
  repeat split.
  - intros Hn. repeat case_bool_decide; destruct_and?; try congruence; tauto.
  - intros Hn. repeat case_bool_decide; destruct_and?; try congruence; tauto.
  - intros [v Hv]. repeat case_bool_decide; destruct_and?; try congruence; tauto.
  - intros [v Hv]. repeat case_bool_decide; destruct_and?; try congruence; tauto.
Qed.

(** C7. When a [calls=] line is processed and the context has no [cob]
    (no [cfi]), the callee's object (file) is the caller's [ob] ([fl]):
    the context the call is registered from holds [ob] under [cob] and [fl]
    under [cfi]; an override that was set is kept. The cost line that
    follows is booked on the call, and after it the context has neither
    [cob] nor [cfi] and is otherwise as before. A cost line that comes
    next, with no new [calls=], leaves the context alone and is added to the
    [cost] of the object of the caller, the function that [ob], [fl] and
    [fn] name. *)
Theorem C7_call_context raw1 raw2 raw3 value c c1 c2 c3 g g1 g2 g3 :
  Re.directive (Str.strip raw1) = Some ("calls", value) →
  parse_body_line raw1 c g = Ok (Consumed c1, g1) →
  Re.cost_line (Str.strip raw2) = true →
  parse_body_line raw2 c1 g1 = Ok (Consumed c2, g2) →
  Re.cost_line (Str.strip raw3) = true →
  parse_body_line raw3 c2 g2 = Ok (Consumed c3, g3) →
  (state c !! "cob" = None → state c1 !! "cob" = state c !! "ob")
  ∧ (state c !! "cfi" = None → state c1 !! "cfi" = state c !! "fl")
  ∧ (is_Some (state c !! "cob") → state c1 !! "cob" = state c !! "cob")
  ∧ (is_Some (state c !! "cfi") → state c1 !! "cfi" = state c !! "cfi")
  ∧ state c1 !! "ob" = state c !! "ob"
  ∧ state c1 !! "fl" = state c !! "fl"
  ∧ calls (state c1) value g = Ok (tt, g1)
  ∧ in_call c1 = true
  ∧ callcost (state c1) (Str.strip raw2) g1 = Ok (tt, g2)
  ∧ state c2 !! "cob" = None
  ∧ state c2 !! "cfi" = None
  ∧ (∀ k, k ≠ "cob" → k ≠ "cfi" → state c2 !! k = state c1 !! k)
  ∧ in_call c2 = false
  ∧ c3 = c2
  ∧ ∃ s_ob s_fl s_fn r gm field n me,
      state c2 !! "ob" = Some s_ob ∧ state c2 !! "fl" = Some s_fl
      ∧ state c2 !! "fn" = Some s_fn
      ∧ lookup_f s_ob s_fl s_fn g2 = Ok (r, gm)
      ∧ Str.split " " (Str.strip raw3) !! 1%nat = Some field
      ∧ Str.int field = Ok n
      ∧ functions gm !! r = Some me
      ∧ functions g3
        = <[r := Function.with_cost (Function.cost me + n) me]> (functions gm).
Proof.
  intros Hd H1 Hc2 H2 Hc3 H3.
  rewrite (parse_body_line_calls _ _ _ _ Hd) in H1. cbv zeta in H1.
  apply run_bind_Ok in H1 as ([] & ? & Hcalls & [= <- <-]).
  rewrite (parse_body_line_cost _ _ _ Hc2) in H2. simpl in H2.
  apply run_bind_Ok in H2 as ([] & ? & Hcallcost & [= <- <-]).
  rewrite (parse_body_line_cost _ _ _ Hc3) in H3. simpl in H3.
  apply run_bind_Ok in H3 as ([] & ? & Hcost & [= <- <-]).
  apply cost_Ok in Hcost.
  destruct (call_defaults (state c) value) as (D1 & D2 & D3 & D4 & D5 & D6).
  simpl.
  repeat match goal with |- _ ∧ _ => split end; try done.
  - rewrite lookup_delete_ne by done. apply lookup_delete_eq.
  - apply lookup_delete_eq.
  - intros k Hk1 Hk2. by rewrite !lookup_delete_ne.
Qed.

Lemma C7_call_context_witness :
  state call_example_1.1 !! "cob" = Some "???"
  ∧ state call_example_1.1 !! "cfi" = Some "(1) file1.c"
  ∧ state call_example_2.1 !! "cob" = None
  ∧ state call_example_2.1 !! "cfi" = None
  ∧ call_example_3.1 = call_example_2.1
  ∧ Function.cost <$> functions call_example_3.2 !! "file1.c#main" = Some 20.
Proof.
  destruct (C7_call_context "calls=1 50" "16 400" "17 20" "1 50"
              call_example_0.1 call_example_1.1 call_example_2.1
              call_example_3.1
              call_example_0.2 call_example_1.2 call_example_2.2
              call_example_3.2)
    as (D1 & D2 & _ & _ & _ & _ & _ & _ & _ & D3 & D4 & _ & _ & D5 & _).
  - reflexivity.
  - vm_compute. reflexivity.
  - reflexivity.
  - vm_compute. reflexivity.
  - reflexivity.
  - vm_compute. reflexivity.
  - split; [rewrite D1 by reflexivity; reflexivity|].
    split; [rewrite D2 by reflexivity; reflexivity|].
    split; [exact D3|]. split; [exact D4|]. split; [exact D5|].
    vm_compute. reflexivity.
Defined.

(** ** Building the graph: what [add_call] keeps true *)

Lemma key_str f1 f2 :
  Function.key f1 = Function.key f2 → Function.str f1 = Function.str f2.
Proof. unfold Function.key, Function.str. by intros [= _ -> ->]. Qed.

Lemma graph_ok_key_inj fs r1 r2 f1 f2 :
  graph_ok fs → fs !! r1 = Some f1 → fs !! r2 = Some f2 →
  Function.key f1 = Function.key f2 → r1 = r2.
Proof.
  intros Hok H1 H2 Hk%key_str.
  by rewrite <-(ok_signature _ Hok _ _ H1), <-(ok_signature _ Hok _ _ H2).
Qed.

Lemma graph_ok_empty : graph_ok ∅.
Proof. split; intros *; by rewrite lookup_empty. Qed.

(** A new object, as [lookup_f] stores it. *)
Lemma graph_ok_new fs o f n :
  graph_ok fs → fs !! (f +:+ "#" +:+ n) = None →
  graph_ok (<[f +:+ "#" +:+ n := Function.init o f n]> fs).
Proof.
  intros Hok Hnew. set (r := f +:+ "#" +:+ n) in *.
  assert (∀ c ce, fs !! c = Some ce →
                  Function.key ce ≠ Function.key (Function.init o f n)) as Hk.
  { intros c ce Hc Hkey%key_str. rewrite (ok_signature _ Hok _ _ Hc) in Hkey.
    unfold Function.str in Hkey. simpl in Hkey. fold r in Hkey. congruence. }
  split.
  - intros r' f'. destruct (decide (r = r')) as [<-|Hne].
    + rewrite lookup_insert_eq. by intros [= <-].
    + rewrite lookup_insert_ne by done. apply (ok_signature _ Hok).
  - intros r' f'. destruct (decide (r = r')) as [<-|Hne].
    + rewrite lookup_insert_eq. by intros [= <-].
    + rewrite lookup_insert_ne by done. apply (ok_total _ Hok).
  - intros r' f' k. destruct (decide (r = r')) as [<-|Hne].
    + rewrite lookup_insert_eq. intros [= <-]. simpl.
      rewrite lookup_empty. by intros [? ?].
    + rewrite lookup_insert_ne by done. intros Hf' Hsome.
      destruct (ok_callee _ Hok _ _ _ Hf' Hsome) as (c & ce & Hc & Hkc).
      exists c, ce. split; [|done]. rewrite lookup_insert_ne; [done|].
      intros <-. by rewrite Hnew in Hc.
  - intros r' f' c ce m. destruct (decide (r = r')) as [<-|Hne].
    + rewrite lookup_insert_eq. intros [= <-] _. simpl.
      by rewrite lookup_empty.
    + rewrite lookup_insert_ne by done. intros Hf'.
      destruct (decide (r = c)) as [<-|Hnc].
      * rewrite lookup_insert_eq. intros [= <-] Hm.
        destruct (ok_callee _ Hok _ _ _ Hf' (mk_is_Some _ _ Hm))
          as (c & ce & Hc & Hkc).
        by destruct (Hk _ _ Hc).
      * rewrite lookup_insert_ne by done.
        apply (ok_edge _ Hok _ _ _ _ _ Hf').
Qed.

(** Replacing one object by one with the same identity, a total that has
    not shrunk, and call counts that are the old ones or are within the
    total of the callee they are kept for. *)
Lemma graph_ok_update fs r f f' :
  graph_ok fs → fs !! r = Some f →
  Function.key f' = Function.key f →
  Function.total_call_count f ≤ Function.total_call_count f' →
  (∀ k n, Function.callcounts f' !! k = Some n →
          Function.callcounts f !! k = Some n
          ∨ ∃ c ce, fs !! c = Some ce ∧ Function.key ce = k
              ∧ n ≤ (if decide (c = r) then Function.total_call_count f'
                     else Function.total_call_count ce)) →
  graph_ok (<[r := f']> fs).
Proof.
  intros Hok Hr Hkey Htot Hcounts.
  assert (∀ c ce', <[r := f']> fs !! c = Some ce' →
            ∃ ce, fs !! c = Some ce ∧ Function.key ce' = Function.key ce
              ∧ Function.total_call_count ce ≤ Function.total_call_count ce'
              ∧ (c ≠ r → ce' = ce) ∧ (c = r → ce' = f' ∧ ce = f)) as Hold.
  { intros c ce'. destruct (decide (r = c)) as [<-|Hne].
    - rewrite lookup_insert_eq. intros [= <-]. exists f. by repeat split.
    - rewrite lookup_insert_ne by done. intros Hc. exists ce'.
      repeat split; try done; try lia. }
  assert (∀ c ce, fs !! c = Some ce →
            ∃ ce', <[r := f']> fs !! c = Some ce'
              ∧ Function.key ce' = Function.key ce) as Hnew.
  { intros c ce Hc. destruct (decide (r = c)) as [<-|Hne].
    - rewrite lookup_insert_eq. exists f'. rewrite Hr in Hc.
      by injection Hc as <-.
    - rewrite lookup_insert_ne by done. by exists ce. }
  split.
  - intros r1 f1 (f0 & H0 & Hk & _)%Hold.
    rewrite (key_str _ _ Hk). by apply (ok_signature _ Hok).
  - intros r1 f1 (f0 & H0 & _ & Ht & _)%Hold.
    pose proof (ok_total _ Hok _ _ H0). lia.
  - intros r1 f1 k (f0 & H0 & _ & _ & Hne & Heq)%Hold [n Hn].
    assert (∃ c ce, fs !! c = Some ce ∧ Function.key ce = k)
      as (c & ce & Hc & Hkc).
    { destruct (decide (r1 = r)) as [->|Hr1].
      - destruct (Heq eq_refl) as [-> ->].
        destruct (Hcounts _ _ Hn) as [Ho|(c & ce & Hc & Hkc & _)].
        + by apply (ok_callee _ Hok _ _ _ H0).
        + by exists c, ce.
      - rewrite (Hne Hr1) in Hn. by apply (ok_callee _ Hok _ _ _ H0). }
    destruct (Hnew _ _ Hc) as (ce' & Hc' & Hk').
    exists c, ce'. split; [done|]. congruence.
  - intros r1 f1 c ce' n (f0 & H0 & _ & _ & Hne & Heq)%Hold
           (ce & Hc & Hkc & Htc & Hcne & Hceq)%Hold Hn.
    rewrite Hkc in Hn.
    assert (Function.callcounts f0 !! Function.key ce = Some n
            ∨ n ≤ Function.total_call_count ce') as [Ho|Hle]; [|  |done].
    { destruct (decide (r1 = r)) as [->|Hr1].
      - destruct (Heq eq_refl) as [-> ->].
        destruct (Hcounts _ _ Hn) as [Ho|(c2 & ce2 & Hc2 & Hkc2 & Hle)];
          [by left|right].
        assert (c2 = c) as -> by (by eapply graph_ok_key_inj).
        rewrite Hc in Hc2. injection Hc2 as <-.
        destruct (decide (c = r)) as [->|Hcr].
        + by destruct (Hceq eq_refl) as [-> _].
        + by rewrite (Hcne Hcr).
      - rewrite (Hne Hr1) in Hn. by left. }
    pose proof (ok_edge _ Hok _ _ _ _ _ H0 Hc Ho). lia.
Qed.

Lemma graph_ok_add_cost fs self c fs' :
  graph_ok fs → Function.add_cost self c fs = Ok fs' → graph_ok fs'.
Proof.
  intros Hok. unfold Function.add_cost, Function.deref.
  destruct (fs !! self) as [me|] eqn:Hme; [|done].
  unfold_monad. simpl. intros [= <-].
  apply (graph_ok_update _ _ me); try done. intros k n Hn. by left.
Qed.

Lemma eq_false_refs (fs : Function.heap) self callee me ce :
  fs !! self = Some me → fs !! callee = Some ce →
  Function.key me ≠ Function.key ce → self ≠ callee.
Proof. intros Hme Hce Hne <-. rewrite Hme in Hce. by injection Hce as <-. Qed.

Lemma eq_false_key me ce :
  Function.eq me ce = false → Function.key me ≠ Function.key ce.
Proof.
  intros Heq Hk. assert (Function.eq me ce = true) by (by apply eq_key).
  congruence.
Qed.

Lemma graph_ok_add_callcost fs self callee c fs' :
  graph_ok fs → Function.add_callcost self callee c fs = Ok fs' →
  graph_ok fs'.
Proof.
  intros Hok. unfold Function.add_callcost, Function.deref.
  destruct (fs !! self) as [me|] eqn:Hme; [|done].
  destruct (fs !! callee) as [ce|] eqn:Hce; [|done].
  unfold_monad. simpl. destruct (Function.eq me ce) eqn:Heq.
  { by intros [= <-]. }
  pose proof (eq_false_refs _ _ _ _ _ Hme Hce (eq_false_key _ _ Heq)) as Hne.
  destruct (last (Function.calls me)) as [l|]; [|done].
  destruct (fs !! l) as [le|]; [|done]. simpl.
  destruct (Str.getitem _ _) as [x|]; [|done]. simpl.
  rewrite lookup_insert_ne by done. rewrite Hce. simpl. intros [= <-].
  apply (graph_ok_update _ _ ce); try done.
  - apply (graph_ok_update _ _ me); try done. intros k n Hn. by left.
  - by rewrite lookup_insert_ne.
  - intros k n Hn. by left.
Qed.

Lemma graph_ok_add_call fs self callee count fs' :
  graph_ok fs → 0 ≤ count →
  Function.add_call self callee count fs = Ok fs' → graph_ok fs'.
Proof.
  intros Hok Hcount. unfold Function.add_call, Function.deref.
  destruct (fs !! self) as [me|] eqn:Hme; [|done].
  destruct (fs !! callee) as [ce|] eqn:Hce; [|done].
  unfold_monad. simpl.
  set (k := Function.key ce).
  set (me1 := if bool_decide (k ∈ Function.callfunctions me) then me
              else Function.with_callee callee k me).
  assert (Function.key me1 = Function.key me) as Hk1
    by (unfold me1; case_bool_decide; reflexivity).
  assert (Function.total_call_count me1 = Function.total_call_count me) as Ht1
    by (unfold me1; case_bool_decide; reflexivity).
  assert (∀ k' n, Function.callcounts me1 !! k' = Some n →
            Function.callcounts me !! k' = Some n ∨ (k' = k ∧ n = 0)) as Hc1.
  { intros k' n. unfold me1. case_bool_decide; [by left|]. simpl.
    destruct (decide (k = k')) as [<-|Hne].
    - rewrite lookup_insert_eq. intros [= <-]. by right.
    - rewrite lookup_insert_ne by done. by left. }
  pose proof (ok_total _ Hok _ _ Hce) as Htce.
  destruct (Function.eq me1 ce) eqn:Heq.
  { intros [= <-]. apply (graph_ok_update _ _ me _ Hok Hme Hk1); [lia|].
    intros k' n [Ho|[-> ->]]%Hc1; [by left|right].
    exists callee, ce. repeat split; try done.
    case_decide as Hd; [|done]. subst callee.
    assert (ce = me) as Hx by congruence. rewrite Hx in Htce. lia. }
  apply eq_false_key in Heq. rewrite Hk1 in Heq.
  pose proof (eq_false_refs _ _ _ _ _ Hme Hce Heq) as Hne.
  destruct (Str.getitem (Function.callcosts me1) k) as [x|]; [|done]. simpl.
  destruct (Str.getitem (Function.callcounts me1) k) as [n0|] eqn:Hn0;
    [|done]. simpl.
  rewrite insert_insert_eq, lookup_insert_ne by done. rewrite Hce. simpl.
  intros [= <-]. rewrite insert_insert_ne by done.
  unfold Str.getitem in Hn0.
  destruct (Function.callcounts me1 !! k) as [n0'|] eqn:Hn0'; [|done].
  injection Hn0 as ->.
  apply (graph_ok_update _ _ me); try done.
  - apply (graph_ok_update _ _ ce); try done; [simpl; lia|].
    intros k' n Hn. by left.
  - by rewrite lookup_insert_ne.
  - simpl. lia.
  - simpl. intros k' n. destruct (decide (k = k')) as [<-|Hkk].
    + rewrite lookup_insert_eq. intros [= <-]. right.
      eexists callee, _. split; [apply lookup_insert_eq|].
      split; [done|]. rewrite decide_False by done. simpl.
      destruct (Hc1 _ _ Hn0') as [Ho|[_ ->]]; [|lia].
      pose proof (ok_edge _ Hok _ _ _ _ _ Hme Hce Ho). lia.
    + rewrite lookup_insert_ne by done.
      intros [Ho|[? _]]%Hc1; [by left|done].
Qed.

(** ** The assertion of [print_stacks] *)

Lemma scale_of_assertion me count e :
  Function.scale_of me count = Raise e → e = AssertionError →
  0 < Function.total_call_count me ∧ Function.total_call_count me < count.
Proof.
  unfold Function.scale_of.
  destruct (0 <? Function.total_call_count me) eqn:Ht; [|done].
  destruct (count <=? Function.total_call_count me) eqn:Hc.
  - unfold Float.int_truediv, Float.finite_or_overflow.
    destruct (_ =? 0); [by intros [= <-]|].
    destruct (SFdiv _ _ _ _); by intros [= <-].
  - intros _ _. lia.
Qed.

Lemma scaled_no_assertion scale x :
  Function.scaled scale x ≠ Raise AssertionError.
Proof.
  unfold Function.scaled, Float.mul_int, Float.of_int,
    Float.finite_or_overflow.
  unfold_monad. unfold rbind.
  destruct (binary_normalize _ _ _ _ _); simpl; try done;
    unfold Float.round; by destruct (SFmul _ _ _ _).
Qed.

Lemma deref_no_assertion fs r : Function.deref fs r ≠ Raise AssertionError.
Proof. unfold Function.deref. by destruct (fs !! r). Qed.

Lemma getitem_no_assertion (d : gmap Function.ident Z) k :
  Str.getitem d k ≠ Raise AssertionError.
Proof. unfold Str.getitem. by destruct (d !! k). Qed.

(** When every call count kept in the graph is within the total of its
    callee, a visit whose own count is within the total of its node never
    fails the assertion, and neither does any visit below it. *)
Lemma print_stacks_no_assertion fs fuel :
  (∀ r f c ce n, fs !! r = Some f → fs !! c = Some ce →
     Function.callcounts f !! Function.key ce = Some n →
     n ≤ Function.total_call_count ce) →
  ∀ self stack count cost,
    (∀ me, fs !! self = Some me → 0 < Function.total_call_count me →
           count ≤ Function.total_call_count me) →
    failure_of (Function.print_stacks fuel fs self stack count cost)
    ≠ Some (Fails AssertionError).
Proof.
  intros Hedge.
  induction fuel as [|fuel IH]; intros self stack count cost Hcount; [done|].
  rewrite print_stacks_S. unfold_monad.
  intros [(e & He & [= <-])%failure_of_plift
         |(? & me & [Hme _]%plift_Returned & H)]%failure_of_pbind.
  { by apply deref_no_assertion in He. }
  cbv zeta in H. case_bool_decide as Hin; [done|].
  unfold Function.deref in Hme.
  destruct (fs !! self) as [me'|] eqn:Hfs; [|done]. injection Hme as ->.
  apply failure_of_pbind in H as [H|(? & ? & _ & [=])].
  destruct (0 <? _).
  - apply failure_of_pbind in H
      as [(e & He & [= <-])%failure_of_plift|(? & scale & _ & H)].
    { apply scale_of_assertion in He as [? ?]; [|done].
      specialize (Hcount _ eq_refl). lia. }
    apply failure_of_pbind in H
      as [(e & He & [= <-])%failure_of_plift|(? & v & _ & H)].
    { by apply scaled_no_assertion in He. }
    apply failure_of_pbind in H as [[=]|(? & [] & _ & H)].
    apply failure_of_pfor in H as (f & _ & H).
    + apply failure_of_pbind in H
        as [(e & He & [= <-])%failure_of_plift
           |(? & fe & [Hfe _]%plift_Returned & H)].
      { by apply deref_no_assertion in He. }
      apply failure_of_pbind in H
        as [(e & He & [= <-])%failure_of_plift|(? & cc & _ & H)].
      { by apply getitem_no_assertion in He. }
      apply failure_of_pbind in H
        as [(e & He & [= <-])%failure_of_plift
           |(? & cn & [Hcn _]%plift_Returned & H)].
      { by apply getitem_no_assertion in He. }
      apply failure_of_pbind in H
        as [(e & He & [= <-])%failure_of_plift|(? & c & _ & H)].
      { by apply scaled_no_assertion in He. }
      revert H. apply IH. intros fe' Hfe' _.
      unfold Function.deref in Hfe. rewrite Hfe' in Hfe. injection Hfe as ->.
      unfold Str.getitem in Hcn.
      destruct (Function.callcounts me !! Function.key fe) as [n|] eqn:Hn;
        [|done].
      injection Hcn as ->. exact (Hedge _ _ _ _ _ Hfs Hfe' Hn).
    + intros f out' s' _ Hb.
      apply pbind_Returned in Hb as (? & fe & ? & _ & Hb & _).
      apply pbind_Returned in Hb as (? & cc & ? & _ & Hb & _).
      apply pbind_Returned in Hb as (? & cn & ? & _ & Hb & _).
      apply pbind_Returned in Hb as (? & c & ? & _ & Hb & _).
      by eapply print_stacks_returns_stack.
  - apply failure_of_pbind in H as [[=]|(? & [] & _ & [=])].
Qed.

(** The loop of [main] starts at functions no one calls: their count of 0
    is their total. *)
Lemma traverse_no_assertion fs keys :
  (∀ r f c ce n, fs !! r = Some f → fs !! c = Some ce →
     Function.callcounts f !! Function.key ce = Some n →
     n ≤ Function.total_call_count ce) →
  failure_of (pfor (λ r _, traverse_from fs r) keys tt)
  ≠ Some (Fails AssertionError).
Proof.
  intros Hedge (r & _ & H)%failure_of_pfor; [|by intros ??[]].
  unfold traverse_from in H. unfold_monad.
  apply failure_of_pbind in H
    as [(e & He & [= <-])%failure_of_plift
       |(? & me & [Hme _]%plift_Returned & H)].
  { by apply deref_no_assertion in He. }
  destruct (is_root me) eqn:Hroot; [|done].
  apply failure_of_pbind in H as [H|(? & ? & _ & [=])].
  revert H. apply print_stacks_no_assertion; [done|].
  intros me' Hme' Hpos. unfold Function.deref in Hme. rewrite Hme' in Hme.
  injection Hme as ->. unfold is_root in Hroot.
  apply andb_true_iff in Hroot as [?%Z.eqb_eq _]. lia.
Qed.

(** ** Graphs under construction *)

Lemma graph_ok_construct op fs fs' :
  graph_ok fs →
  match op with AddCall _ _ count => 0 ≤ count | _ => True end →
  construct op fs = Ok fs' → graph_ok fs'.
Proof.
  intros Hok Hop. destruct op as [o f n|a b count|a b c|a c]; simpl.
  - intros [= <-]. case_bool_decide as Hs; [done|].
    apply graph_ok_new; [done|]. apply eq_None_not_Some. exact Hs.
  - by apply graph_ok_add_call.
  - by apply graph_ok_add_callcost.
  - by apply graph_ok_add_cost.
Qed.

Lemma graph_ok_construct_all ops :
  ∀ fs fs', graph_ok fs → counts_nonneg ops →
            construct_all ops fs = Ok fs' → graph_ok fs'.
Proof.
  induction ops as [|op ops IH]; intros fs fs' Hok Hops; simpl.
  - by intros [= <-].
  - apply Forall_cons in Hops as [Hop Hops]. unfold_monad. unfold rbind.
    destruct (construct op fs) as [fs1|] eqn:H1; [|done].
    apply IH; [|done]. by eapply graph_ok_construct.
Qed.

(** ** The parser builds the graph by these steps *)

Lemma construct_all_app ops1 ops2 fs :
  construct_all (ops1 ++ ops2) fs
  = (fs1 ← construct_all ops1 fs; construct_all ops2 fs1).
Proof.
  revert fs. induction ops1 as [|op ops1 IH]; intros fs; simpl; [done|].
  unfold_monad. unfold rbind. destruct (construct op fs); [|done]. apply IH.
Qed.

Lemma construct_all_app_Ok ops1 ops2 fs fs1 fs2 :
  construct_all ops1 fs = Ok fs1 → construct_all ops2 fs1 = Ok fs2 →
  construct_all (ops1 ++ ops2) fs = Ok fs2.
Proof. intros H1 H2. rewrite construct_all_app. by rewrite H1. Qed.

Lemma lookup_f_constructs s_ob s_fl s_fn g r g' :
  lookup_f s_ob s_fl s_fn g = Ok (r, g') →
  ∃ o f n, construct (NewFunction o f n) (functions g) = Ok (functions g').
Proof.
  intros (o & f & n & _ & _ & _ & -> & Hfs & _)%lookup_f_Ok.
  exists o, f, n. simpl. unfold Function.str. simpl. rewrite Hfs.
  destruct (functions g !! _) eqn:Hr.
  - by rewrite bool_decide_eq_true_2 by eauto.
  - by rewrite bool_decide_eq_false_2 by (by intros [? ?]).
Qed.

Lemma lookup_fl_functions name g v g' :
  lookup_fl name g = Ok (v, g') → functions g' = functions g.
Proof.
  unfold lookup_fl. unfold_monad. unfold rbind.
  destruct (lookup (fl g) name) as [[? ?]|]; [|done]. by intros [= _ <-].
Qed.

(** The steps of a call, of a call cost and of a self cost. *)
Lemma calls_constructs state param g g' :
  calls state param g = Ok (tt, g') →
  ∃ o1 f1 n1 o2 f2 n2 caller callee field count,
    Str.split " " param !! 0%nat = Some field
    ∧ Str.int field = Ok count
    ∧ construct_all [NewFunction o1 f1 n1; NewFunction o2 f2 n2;
                     AddCall caller callee count] (functions g)
      = Ok (functions g').
Proof.
  unfold calls.
  intros (s_ob & ? & [Hob ->]%state_get_Ok & H)%run_bind_Ok.
  apply run_bind_Ok in H as (s_fl & ? & [Hfl ->]%state_get_Ok & H).
  apply run_bind_Ok in H as (s_fn & ? & [Hfn ->]%state_get_Ok & H).
  apply run_bind_Ok in H as (caller & ga & (o1 & f1 & n1 & Ha)%lookup_f_constructs & H).
  apply run_bind_Ok in H as (s_cob & ? & [Hcob ->]%state_get_Ok & H).
  apply run_bind_Ok in H as (s_cfi & ? & [Hcfi ->]%state_get_Ok & H).
  apply run_bind_Ok in H as (s_cfn & ? & [Hcfn ->]%state_get_Ok & H).
  apply run_bind_Ok in H as (callee & gb & (o2 & f2 & n2 & Hb)%lookup_f_constructs & H).
  apply run_bind_Ok in H as (field & ? & [Hi ->]%lift_Ok & H).
  apply run_bind_Ok in H as (count & ? & [Hn ->]%lift_Ok & H).
  apply on_functions_Ok in H as (fs & Hadd & ->).
  exists o1, f1, n1, o2, f2, n2, caller, callee, field, count.
  split.
  { unfold Str.index in Hi. destruct (_ !! 0%nat); [|done].
    by injection Hi as ->. }
  split; [done|].
  cbn [construct_all]. unfold_monad. unfold rbind.
  rewrite Ha, Hb. simpl in *. by rewrite Hadd.
Qed.

Lemma callcost_constructs state param g g' :
  callcost state param g = Ok (tt, g') →
  ∃ o1 f1 n1 o2 f2 n2 caller callee c,
    construct_all [NewFunction o1 f1 n1; NewFunction o2 f2 n2;
                   AddCallCost caller callee c] (functions g)
    = Ok (functions g').
Proof.
  unfold callcost.
  intros (s_ob & ? & [Hob ->]%state_get_Ok & H)%run_bind_Ok.
  apply run_bind_Ok in H as (s_fl & ? & [Hfl ->]%state_get_Ok & H).
  apply run_bind_Ok in H as (s_fn & ? & [Hfn ->]%state_get_Ok & H).
  apply run_bind_Ok in H as (caller & ga & (o1 & f1 & n1 & Ha)%lookup_f_constructs & H).
  apply run_bind_Ok in H as (s_cob & ? & [Hcob ->]%state_get_Ok & H).
  apply run_bind_Ok in H as (s_cfi & ? & [Hcfi ->]%state_get_Ok & H).
  apply run_bind_Ok in H as (s_cfn & ? & [Hcfn ->]%state_get_Ok & H).
  apply run_bind_Ok in H as (callee & gb & (o2 & f2 & n2 & Hb)%lookup_f_constructs & H).
  apply run_bind_Ok in H as (field & ? & [Hi ->]%lift_Ok & H).
  apply run_bind_Ok in H as (c & ? & [Hn ->]%lift_Ok & H).
  apply on_functions_Ok in H as (fs & Hadd & ->).
  exists o1, f1, n1, o2, f2, n2, caller, callee, c.
  cbn [construct_all]. unfold_monad. unfold rbind.
  rewrite Ha, Hb. simpl in *. by rewrite Hadd.
Qed.

Lemma cost_constructs state param g g' :
  cost state param g = Ok (tt, g') →
  ∃ o1 f1 n1 function c,
    construct_all [NewFunction o1 f1 n1; AddCost function c] (functions g)
    = Ok (functions g').
Proof.
  unfold cost.
  intros (s_ob & ? & [Hob ->]%state_get_Ok & H)%run_bind_Ok.
  apply run_bind_Ok in H as (s_fl & ? & [Hfl ->]%state_get_Ok & H).
  apply run_bind_Ok in H as (s_fn & ? & [Hfn ->]%state_get_Ok & H).
  apply run_bind_Ok in H as (function & ga & (o1 & f1 & n1 & Ha)%lookup_f_constructs & H).
  apply run_bind_Ok in H as (field & ? & [Hi ->]%lift_Ok & H).
  apply run_bind_Ok in H as (c & ? & [Hn ->]%lift_Ok & H).
  apply on_functions_Ok in H as (fs & Hadd & ->).
  exists o1, f1, n1, function, c.
  cbn [construct_all]. unfold_monad. unfold rbind.
  rewrite Ha. simpl in *. by rewrite Hadd.
Qed.

Lemma alias_calls key : String.eqb (alias key) "calls" = true → key = "calls".
Proof.
  unfold alias. destruct (String.eqb key "cfl"); [done|].
  by intros ?%String.eqb_eq.
Qed.

Lemma constructs_nothing fs :
  ∃ ops, counts_nonneg ops ∧ construct_all ops fs = Ok fs.
Proof. exists []. split; [constructor|done]. Qed.

Lemma parse_body_line_constructs raw c g t g' :
  call_count_nonneg raw →
  parse_body_line raw c g = Ok (t, g') →
  ∃ ops, counts_nonneg ops
    ∧ construct_all ops (functions g) = Ok (functions g').
Proof.
  intros Hraw. unfold parse_body_line. unfold mret, run_ret.
  destruct (Str.startswith "#" (Str.strip raw)).
  { intros [= _ <-]. apply constructs_nothing. }
  destruct (String.length (Str.strip raw) =? 0)%nat.
  { intros [= _ <-]. apply constructs_nothing. }
  destruct (Re.directive (Str.strip raw)) as [[key value]|] eqn:Hd.
  - intros ([] & g1 & H1 & H)%run_bind_Ok.
    assert (functions g1 = functions g) as Hg1.
    { destruct (_ || _).
      - apply run_bind_Ok in H1 as (? & ? & ?%lookup_fl_functions & [= <-]).
        done.
      - by injection H1 as <-. }
    destruct (String.eqb (alias key) "calls") eqn:Hk.
    + apply alias_calls in Hk as ->.
      apply run_bind_Ok in H as ([] & g2 & Hcalls & [= _ <-]).
      apply calls_constructs in Hcalls
        as (o1 & f1 & n1 & o2 & f2 & n2 & a & b & field & count
            & Hfield & Hcount & Hops).
      rewrite Hg1 in Hops. eexists. split; [|exact Hops].
      repeat constructor. by eapply Hraw.
    + injection H as _ <-. rewrite Hg1. apply constructs_nothing.
  - destruct (Re.cost_line (Str.strip raw)).
    + destruct (in_call c).
      * intros ([] & g1 & H1 & [= _ <-])%run_bind_Ok.
        apply callcost_constructs in H1
          as (o1 & f1 & n1 & o2 & f2 & n2 & a & b & x & Hops).
        eexists. split; [|exact Hops]. by repeat constructor.
      * intros ([] & g1 & H1 & [= _ <-])%run_bind_Ok.
        apply cost_constructs in H1 as (o1 & f1 & n1 & a & x & Hops).
        eexists. split; [|exact Hops]. by repeat constructor.
    + intros [= _ <-]. apply constructs_nothing.
Qed.

Lemma parse_body_loop_constructs queue :
  ∀ c g rest g',
    Forall call_count_nonneg queue →
    parse_body_loop queue c g = Ok (rest, g') →
    ∃ ops, counts_nonneg ops
      ∧ construct_all ops (functions g) = Ok (functions g').
Proof.
  induction queue as [|raw queue IH]; intros c g rest g' Hq; simpl;
    unfold mret, run_ret.
  - intros [= _ <-]. apply constructs_nothing.
  - apply Forall_cons in Hq as [Hraw Hq].
    intros (t & g1 & H1 & H)%run_bind_Ok.
    apply parse_body_line_constructs in H1 as (ops1 & Hn1 & Hc1); [|done].
    destruct t as [c1|].
    + apply IH in H as (ops2 & Hn2 & Hc2); [|done].
      exists (ops1 ++ ops2). split; [by apply Forall_app|].
      by eapply construct_all_app_Ok.
    + injection H as _ <-. by exists ops1.
Qed.

(** ** The parser raises no [AssertionError] *)

Lemma never_asserts_bind {A B} (m : run A) (k : A → run B) :
  never_asserts m → (∀ a, never_asserts (k a)) → never_asserts (m ≫= k).
Proof.
  intros Hm Hk g. unfold_monad. specialize (Hm g).
  destruct (m g) as [[a g1]|e]; [apply Hk|congruence].
Qed.

Lemma never_asserts_ret {A} (a : A) : never_asserts (mret a).
Proof. by intros g. Qed.

Lemma never_asserts_lift {A} (m : result A) :
  m ≠ Raise AssertionError → never_asserts (lift m).
Proof.
  intros Hm g. unfold lift. destruct m as [a|e]; [done|].
  intros [= ->]. by apply Hm.
Qed.

Lemma lookup_no_assertion table name :
  lookup table name ≠ Raise AssertionError.
Proof.
  unfold lookup. destruct (Re.definition name) as [[? ?]|]; [done|].
  destruct (Re.reference name); [|done]. by destruct (table !! _).
Qed.

Lemma rbind_no_assertion {A B} (m : result A) (k : A → result B) :
  m ≠ Raise AssertionError → (∀ a, k a ≠ Raise AssertionError) →
  rbind m k ≠ Raise AssertionError.
Proof.
  intros Hm Hk. destruct m as [a|e]; simpl; [apply Hk|].
  intros [= ->]. by apply Hm.
Qed.

Lemma never_asserts_lookup_ob name : never_asserts (lookup_ob name).
Proof.
  intros g. unfold lookup_ob. unfold_monad.
  apply rbind_no_assertion; [apply lookup_no_assertion|by intros [? ?]].
Qed.

Lemma never_asserts_lookup_fl name : never_asserts (lookup_fl name).
Proof.
  intros g. unfold lookup_fl. unfold_monad.
  apply rbind_no_assertion; [apply lookup_no_assertion|by intros [? ?]].
Qed.

Lemma never_asserts_lookup_fn name : never_asserts (lookup_fn name).
Proof.
  intros g. unfold lookup_fn. unfold_monad.
  apply rbind_no_assertion; [apply lookup_no_assertion|by intros [? ?]].
Qed.

Lemma never_asserts_lookup_f a b c : never_asserts (lookup_f a b c).
Proof.
  unfold lookup_f.
  apply never_asserts_bind; [apply never_asserts_lookup_ob|intros ?].
  apply never_asserts_bind; [apply never_asserts_lookup_fl|intros ?].
  apply never_asserts_bind; [apply never_asserts_lookup_fn|intros ?].
  apply never_asserts_bind; [by intros g|intros present].
  apply never_asserts_bind; [|intros ?; apply never_asserts_ret].
  destruct (negb present); [by intros g|apply never_asserts_ret].
Qed.

Lemma never_asserts_state_get state key : never_asserts (state_get state key).
Proof.
  apply never_asserts_lift. unfold Str.getitem. by destruct (state !! key).
Qed.

Lemma index_no_assertion {A} (l : list A) i :
  Str.index l i ≠ Raise AssertionError.
Proof. unfold Str.index. by destruct (l !! i). Qed.

Lemma int_no_assertion s : Str.int s ≠ Raise AssertionError.
Proof.
  unfold Str.int. destruct (Str.strip s) as [|c r]; simpl; [done|].
  by repeat case_match.
Qed.

Lemma never_asserts_on_functions f :
  (∀ fs, f fs ≠ Raise AssertionError) → never_asserts (on_functions f).
Proof.
  intros Hf g. unfold on_functions. unfold_monad.
  apply rbind_no_assertion; [apply Hf|done].
Qed.

Lemma add_call_no_assertion self callee count fs :
  Function.add_call self callee count fs ≠ Raise AssertionError.
Proof.
  unfold Function.add_call. unfold_monad.
  apply rbind_no_assertion; [apply deref_no_assertion|intros me].
  apply rbind_no_assertion; [apply deref_no_assertion|intros ce].
  cbv zeta. destruct (Function.eq _ _); [done|].
  apply rbind_no_assertion; [apply getitem_no_assertion|intros x].
  apply rbind_no_assertion; [apply getitem_no_assertion|intros n].
  apply rbind_no_assertion; [apply deref_no_assertion|done].
Qed.

Lemma add_callcost_no_assertion self callee c fs :
  Function.add_callcost self callee c fs ≠ Raise AssertionError.
Proof.
  unfold Function.add_callcost. unfold_monad.
  apply rbind_no_assertion; [apply deref_no_assertion|intros me].
  apply rbind_no_assertion; [apply deref_no_assertion|intros ce].
  destruct (Function.eq _ _); [done|].
  destruct (last _); [|done].
  apply rbind_no_assertion; [apply deref_no_assertion|intros le].
  apply rbind_no_assertion; [apply getitem_no_assertion|intros x].
  apply rbind_no_assertion; [apply deref_no_assertion|done].
Qed.

Lemma add_cost_no_assertion self c fs :
  Function.add_cost self c fs ≠ Raise AssertionError.
Proof.
  unfold Function.add_cost. unfold_monad.
  apply rbind_no_assertion; [apply deref_no_assertion|done].
Qed.

Ltac never_asserts_step :=
  first
    [ apply never_asserts_ret
    | apply never_asserts_state_get
    | apply never_asserts_lookup_f
    | apply never_asserts_lookup_fl
    | apply never_asserts_lift, index_no_assertion
    | apply never_asserts_lift, int_no_assertion
    | apply never_asserts_on_functions; intros ?;
      first [ apply add_call_no_assertion
            | apply add_callcost_no_assertion
            | apply add_cost_no_assertion ]
    | apply never_asserts_bind; [|intros ?] ].

Lemma never_asserts_calls state param : never_asserts (calls state param).
Proof. unfold calls. repeat never_asserts_step. Qed.

Lemma never_asserts_callcost state param :
  never_asserts (callcost state param).
Proof. unfold callcost. repeat never_asserts_step. Qed.

Lemma never_asserts_cost state param : never_asserts (cost state param).
Proof. unfold cost. repeat never_asserts_step. Qed.

Lemma never_asserts_parse_body_line raw c :
  never_asserts (parse_body_line raw c).
Proof.
  unfold parse_body_line.
  destruct (Str.startswith _ _); [apply never_asserts_ret|].
  destruct (_ =? _)%nat; [apply never_asserts_ret|].
  destruct (Re.directive _) as [[key value]|].
  - apply never_asserts_bind.
    + destruct (_ || _); repeat never_asserts_step.
    + intros _. destruct (String.eqb _ _).
      * apply never_asserts_bind; [apply never_asserts_calls|].
        intros _. apply never_asserts_ret.
      * apply never_asserts_ret.
  - destruct (Re.cost_line _); [|apply never_asserts_ret].
    destruct (in_call c).
    + apply never_asserts_bind; [apply never_asserts_callcost|].
      intros _. apply never_asserts_ret.
    + apply never_asserts_bind; [apply never_asserts_cost|].
      intros _. apply never_asserts_ret.
Qed.

Lemma never_asserts_parse_body_loop queue :
  ∀ c, never_asserts (parse_body_loop queue c).
Proof.
  induction queue as [|raw queue IH]; intros c; simpl.
  - apply never_asserts_ret.
  - apply never_asserts_bind; [apply never_asserts_parse_body_line|].
    intros [c1|]; [apply IH|apply never_asserts_ret].
Qed.

Lemma parse_header_suffix queue :
  ∃ skipped, queue = skipped ++ parse_header queue.
Proof.
  induction queue as [|raw queue [skipped IH]]; simpl; [by exists []|].
  destruct (Str.startswith _ _); [exists (raw :: skipped); by rewrite IH at 1|].
  destruct (_ =? _)%nat; [exists (raw :: skipped); by rewrite IH at 1|].
  destruct (Re.header _); [exists (raw :: skipped); by rewrite IH at 1|].
  by exists [].
Qed.

(** From the input to the output: when no [calls=] line carries a negative
    count, the program does not end in an [AssertionError]. *)
Lemma main_no_assertion queue :
  Forall call_count_nonneg queue →
  failure_of (main queue) ≠ Some (Fails AssertionError).
Proof.
  intros Hq. unfold main. unfold_monad.
  destruct (parse_header_suffix queue) as [skipped Hs].
  rewrite Hs in Hq. apply Forall_app in Hq as [_ Hq].
  intros [(e & He & [= <-])%failure_of_plift
         |(? & [rest g] & [Hp _]%plift_Returned & H)]%failure_of_pbind.
  { by apply never_asserts_parse_body_loop in He. }
  apply parse_body_loop_constructs in Hp as (ops & Hn & Hc); [|done].
  pose proof (graph_ok_construct_all _ _ _ graph_ok_empty Hn Hc) as Hok.
  apply failure_of_pbind in H as [H|(? & ? & _ & [=])].
  revert H. apply traverse_no_assertion, (ok_edge _ Hok).
Qed.

(** ** The assertion never fires *)

(** C10. In a graph built with counts that are never negative, the calls
    recorded over one edge are at most the calls the callee received in
    all. So a visit that comes down an edge, or starts at a function no one
    calls as [main] does, passes the assertion [count <= total_call_count],
    and so does every visit below it: the walk never raises
    [AssertionError]. The same from the input: when no [calls=] line
    carries a negative count, [main] does not end in an [AssertionError]. *)
Theorem C10_assertion_never_fires :
  (∀ ops fs,
     construct_all ops ∅ = Ok fs → counts_nonneg ops →
     (∀ r f c ce n, fs !! r = Some f → fs !! c = Some ce →
        Function.callcounts f !! Function.key ce = Some n →
        n ≤ Function.total_call_count ce)
     ∧ (∀ fuel r me stack cost c ce n,
          fs !! r = Some me → fs !! c = Some ce →
          Function.callcounts me !! Function.key ce = Some n →
          failure_of (Function.print_stacks fuel fs c stack n cost)
          ≠ Some (Fails AssertionError))
     ∧ (∀ keys, failure_of (pfor (λ r _, traverse_from fs r) keys tt)
                ≠ Some (Fails AssertionError)))
  ∧ (∀ queue,
       Forall call_count_nonneg queue →
       failure_of (main queue) ≠ Some (Fails AssertionError)).
Proof.
  split; [|exact main_no_assertion].
  intros ops fs Hfs Hops.
  pose proof (graph_ok_construct_all _ _ _ graph_ok_empty Hops Hfs) as Hok.
  split; [apply (ok_edge _ Hok)|]. split.
  - intros fuel r me stack cost c ce n Hme Hce Hn.
    apply print_stacks_no_assertion; [apply (ok_edge _ Hok)|].
    intros ce' Hce' _. rewrite Hce in Hce'. injection Hce' as <-.
    exact (ok_edge _ Hok _ _ _ _ _ Hme Hce Hn).
  - intros keys. apply traverse_no_assertion, (ok_edge _ Hok).
Qed.

Lemma C10_assertion_never_fires_witness :
  failure_of (pfor (λ r _, traverse_from shared_callee_graph r)
                ["a.c#main"; "a.c#f"; "a.c#g"] tt)
  ≠ Some (Fails AssertionError)
  ∧ failure_of (main ["fn=main"; "cfn=f"; "calls=2 0"; "1 5"])
    ≠ Some (Fails AssertionError).
Proof.
  split.
  - apply (proj1 C10_assertion_never_fires shared_callee_steps
             shared_callee_graph).
    + vm_compute. reflexivity.
    + repeat constructor; simpl; lia.
  - apply (proj2 C10_assertion_never_fires).
    repeat constructor; intros value field n Hd Hf Hn;
      vm_compute in Hd; try discriminate.
    injection Hd as <-. vm_compute in Hf. injection Hf as <-.
    vm_compute in Hn. injection Hn as <-. lia.
Defined.

(** ** Floats: a scale of one *)

Lemma div_eucl_mul_exact a b :
  0 < b → IntDef.Z.div_eucl (b * a) b = (a, 0).
Proof.
  intros Hb. rewrite Z.mul_comm.
  pose proof (Z.div_mul a b ltac:(lia)) as Hq.
  pose proof (Z.mod_mul a b ltac:(lia)) as Hr.
  unfold Z.div, Z.modulo in Hq, Hr.
  change IntDef.Z.div_eucl with Z.div_eucl.
  destruct (Z.div_eucl (a * b) b) as [q r]. simpl in *. by subst.
Qed.

Lemma new_location_exact n : new_location n 0 = loc_Exact.
Proof. unfold new_location. by destruct (Z.even n). Qed.

(** [n / n] is [1.0]. *)
Lemma int_truediv_same n : 0 < n → Float.int_truediv n n = Ok Float.one.
Proof.
  intros Hn. unfold Float.int_truediv.
  destruct n as [|p|p]; [lia| |lia]. simpl (_ =? _). cbv iota.
  unfold Float.raw_of_int, SFdiv, SFdiv_core_binary.
  replace (Zdigits2 (Z.pos p) + 0 - (Zdigits2 (Z.pos p) + 0)) with 0 by lia.
  change (Z.min (fexp Float.prec Float.emax 0) (0 - 0)) with (-53).
  change (0 - 0 - -53) with 53. cbv iota.
  rewrite Z.shiftl_mul_pow2 by lia.
  rewrite div_eucl_mul_exact by lia.
  rewrite new_location_exact. reflexivity.
Qed.

Lemma digits2_pos_shift p k :
  digits2_pos (Pos.iter xO p k) = (digits2_pos p + k)%positive.
Proof.
  induction k as [|k IH] using Pos.peano_ind.
  - simpl. lia.
  - rewrite Pos.iter_succ. simpl. rewrite IH. lia.
Qed.

Lemma Zpos_shift p k :
  Z.pos (Pos.iter xO p k) = Z.pos p * Z.pos (Pos.iter xO xH k).
Proof.
  induction k as [|k IH] using Pos.peano_ind.
  - simpl. lia.
  - rewrite !Pos.iter_succ.
    rewrite (Pos2Z.inj_xO (Pos.iter xO p k)), (Pos2Z.inj_xO (Pos.iter xO xH k)).
    rewrite IH. lia.
Qed.

Lemma digits2_pos_bound p :
  ∀ n, 0 ≤ n → Z.pos p < 2 ^ n → Z.pos (digits2_pos p) ≤ n.
Proof.
  induction p as [p IH|p IH|]; intros n Hn Hp; simpl.
  - assert (n ≠ 0) by (intros ->; simpl in Hp; lia).
    replace n with (Z.succ (n - 1)) in Hp by lia.
    rewrite Z.pow_succ_r in Hp by lia.
    specialize (IH (n - 1) ltac:(lia) ltac:(lia)). lia.
  - assert (n ≠ 0) by (intros ->; simpl in Hp; lia).
    replace n with (Z.succ (n - 1)) in Hp by lia.
    rewrite Z.pow_succ_r in Hp by lia.
    specialize (IH (n - 1) ltac:(lia) ltac:(lia)). lia.
  - assert (n ≠ 0) by (intros ->; simpl in Hp; lia). lia.
Qed.

Lemma shr_fexp_canonical m e :
  digits2_pos m = 53%positive → -1074 ≤ e →
  shr_fexp Float.prec Float.emax (Z.pos m) e loc_Exact
  = (Build_shr_record (Z.pos m) false false, e).
Proof.
  intros Hd He.
  unfold shr_fexp, fexp, emin, Zdigits2, Float.prec, Float.emax.
  rewrite Hd.
  replace (Z.max (53 + e - 53) (3 - 1024 - 53) - e) with 0 by lia.
  reflexivity.
Qed.

(** Rounding a mantissa of 53 bits at an exponent in range changes
    nothing. *)
Lemma binary_round_aux_canonical s m e :
  digits2_pos m = 53%positive → -1074 ≤ e ≤ 971 →
  binary_round_aux Float.prec Float.emax s (Z.pos m) e loc_Exact
  = S754_finite s m e.
Proof.
  intros Hd He. unfold binary_round_aux.
  rewrite shr_fexp_canonical by (done || lia).
  cbn [shr_m loc_of_shr_record round_nearest_even].
  rewrite shr_fexp_canonical by (done || lia). cbn [shr_m].
  unfold Float.prec, Float.emax.
  destruct (Z.leb_spec e (1024 - 53)); [done|lia].
Qed.

Lemma shr_52 m :
  SpecFloat.iter_pos shr_1 52
    (Build_shr_record (Z.pos (4503599627370496 * m)) false false)
  = Build_shr_record (Z.pos m) false false.
Proof. reflexivity. Qed.

Lemma digits_mul_52 m :
  Z.pos (digits2_pos (4503599627370496 * m)) = Z.pos (digits2_pos m) + 52.
Proof.
  change (4503599627370496 * m)%positive with (Pos.iter xO m 52).
  rewrite digits2_pos_shift. lia.
Qed.

(** [1.0 * y] is [y]. *)
Lemma mul_one s m e :
  digits2_pos m = 53%positive → -1022 ≤ e ≤ 971 →
  SFmul Float.prec Float.emax Float.one (S754_finite s m e)
  = S754_finite s m e.
Proof.
  intros Hd He. unfold SFmul, Float.one, binary_round_aux.
  assert (shr_fexp Float.prec Float.emax
            (Z.pos (4503599627370496 * m)) (-52 + e) loc_Exact
          = (Build_shr_record (Z.pos m) false false, e)) as Hshr.
  { unfold shr_fexp, fexp, emin, Zdigits2, Float.prec, Float.emax.
    rewrite digits_mul_52, Hd.
    replace (Z.max (53 + 52 + (-52 + e) - 53) (3 - 1024 - 53) - (-52 + e))
      with 52 by lia.
    unfold shr, shr_record_of_loc. rewrite shr_52. f_equal. lia. }
  rewrite Hshr. cbn [shr_m loc_of_shr_record round_nearest_even].
  rewrite shr_fexp_canonical by (done || lia). cbn [shr_m].
  unfold Float.prec, Float.emax.
  destruct (Z.leb_spec e (1024 - 53)); [done|lia].
Qed.

(** An integer below 2^53 in magnitude is a float, and rounds back to
    itself. *)
Lemma of_int_small k :
  Z.abs k < 2 ^ 53 → k ≠ 0 →
  ∃ m e, Float.of_int k = Ok (S754_finite (k <? 0) m e)
    ∧ digits2_pos m = 53%positive ∧ -52 ≤ e ≤ 0
    ∧ Float.round (S754_finite (k <? 0) m e) = Ok k.
Proof.
  intros Hk Hk0.
  assert (∀ s p, Z.pos p < 2 ^ 53 →
            ∃ m e, binary_round Float.prec Float.emax s p 0
                   = S754_finite s m e
              ∧ digits2_pos m = 53%positive ∧ -52 ≤ e ≤ 0
              ∧ Float.round (S754_finite s m e)
                = Ok (if s then - Z.pos p else Z.pos p)) as Hpos.
  { intros s p Hp. pose proof (digits2_pos_bound p 53 ltac:(lia) Hp) as Hd.
    unfold binary_round, shl_align, fexp, emin, Float.prec, Float.emax.
    destruct (Z.max (Z.pos (digits2_pos p) + 0 - 53) (3 - 1024 - 53) - 0)
      as [|d|d] eqn:Hs; [|lia|].
    - exists p, 0. assert (digits2_pos p = 53%positive) as Hd53 by lia.
      split; [by apply binary_round_aux_canonical|].
      split; [done|]. split; [lia|]. destruct s; simpl; f_equal; lia.
    - exists (Pos.iter xO p d), (Z.max (Z.pos (digits2_pos p) + 0 - 53)
                                   (3 - 1024 - 53)).
      assert (Z.max (Z.pos (digits2_pos p) + 0 - 53) (3 - 1024 - 53)
              = Z.neg d) as -> by lia.
      assert (digits2_pos (Pos.iter xO p d) = 53%positive) as Hd53
        by (rewrite digits2_pos_shift; lia).
      split; [apply binary_round_aux_canonical; [done|lia]|].
      split; [done|]. split; [lia|].
      unfold Float.round, Float.div_half_even.
      rewrite Zpos_shift.
      rewrite Z.div_mul, Z.mod_mul by lia. destruct s; simpl; f_equal; lia. }
  unfold Float.of_int, binary_normalize.
  destruct k as [|p|p]; [done| |].
  - destruct (Hpos false p ltac:(lia)) as (m & e & -> & ? & ? & ?).
    by exists m, e.
  - destruct (Hpos true p ltac:(lia)) as (m & e & -> & ? & ? & ?).
    by exists m, e.
Qed.

(** [round(1.0 * k)] is [k]. *)
Lemma scaled_one k :
  Z.abs k < 2 ^ 53 → Function.scaled Float.one k = Ok k.
Proof.
  intros Hk. unfold Function.scaled, Float.mul_int. unfold_monad.
  destruct (decide (k = 0)) as [->|Hk0]; [reflexivity|].
  destruct (of_int_small k Hk Hk0) as (m & e & -> & Hd & He & Hr).
  cbn [rbind]. rewrite mul_one by (done || lia). exact Hr.
Qed.

(** ** The line of a node that has callees *)

Lemma length_pos_nonempty {A} (l : list A) :
  l ≠ [] → (0 <? Z.of_nat (length l)) = true.
Proof. destruct l; [done|]. intros _. reflexivity. Qed.

Lemma pbind_plift_Ok {A B} (a : A) (k : A → printing B) :
  pbind (plift (Ok a)) k = k a.
Proof. unfold plift, pret, pbind. by destruct (k a). Qed.

Lemma pbind_plift_Raise {A B} e (k : A → printing B) :
  pbind (plift (Raise e)) k = ([], Raised e).
Proof. reflexivity. Qed.

Lemma pbind_pret {A B} (a : A) (k : A → printing B) :
  pbind (pret a) k = k a.
Proof. unfold pret, pbind. by destruct (k a). Qed.

Lemma pbind_print {B} a b (k : unit → printing B) :
  pbind (print a b) k = ((a +:+ " " +:+ b) :: fst (k tt), snd (k tt)).
Proof. unfold print, pbind. by destruct (k tt). Qed.

(** A node with callees, not yet on the stack, first prints its own line:
    the path and its self cost scaled. *)
Lemma print_stacks_first_line fuel fs self me stack count cost scale v :
  fs !! self = Some me → Function.str me ∉ stack →
  Function.calls me ≠ [] →
  Function.scale_of me count = Ok scale →
  Function.scaled scale (Function.cost me) = Ok v →
  ∃ rest o,
    Function.print_stacks (S fuel) fs self stack count cost
    = ((Str.join ";" (stack ++ [Function.str me]) +:+ " " +:+ pretty v) :: rest,
       o).
Proof.
  intros Hme Hin Hcalls Hscale Hv. rewrite print_stacks_S.
  unfold Function.deref. rewrite Hme. unfold_monad.
  rewrite pbind_plift_Ok.
  rewrite bool_decide_eq_false_2 by done. cbv zeta.
  rewrite length_pos_nonempty by done. rewrite Hscale, pbind_plift_Ok.
  rewrite Hv, pbind_plift_Ok, pbind_print.
  destruct (pfor _ _ _) as [out [s|e|]]; simpl; eauto.
Qed.

(** When the scale or the scaled self cost cannot be computed, the call
    ends in the exception with nothing printed. *)
Lemma print_stacks_first_line_raises fuel fs self me stack count cost e :
  fs !! self = Some me → Function.str me ∉ stack →
  Function.calls me ≠ [] →
  (scale ← Function.scale_of me count;
   Function.scaled scale (Function.cost me)) = Raise e →
  Function.print_stacks (S fuel) fs self stack count cost = ([], Raised e).
Proof.
  intros Hme Hin Hcalls Hv. rewrite print_stacks_S.
  unfold Function.deref. rewrite Hme. unfold_monad.
  rewrite pbind_plift_Ok.
  rewrite bool_decide_eq_false_2 by done. cbv zeta.
  rewrite length_pos_nonempty by done.
  destruct (Function.scale_of me count) as [scale|e']; simpl in Hv.
  - rewrite pbind_plift_Ok, Hv. reflexivity.
  - injection Hv as ->. reflexivity.
Qed.

(** ** Where [main] starts *)

Lemma is_root_spec me :
  is_root me = true
  ↔ Function.total_call_count me = 0 ∧ Function.calls me ≠ [].
Proof.
  unfold is_root. rewrite andb_true_iff, Z.eqb_eq.
  destruct (Function.calls me); simpl; split; intros [? ?]; done.
Qed.

Lemma scale_of_root me count :
  Function.total_call_count me = 0 → Function.scale_of me count = Ok Float.one.
Proof. intros Ht. unfold Function.scale_of. by rewrite Ht. Qed.

(** One turn of the loop of [main], taken alone: it starts a walk exactly
    at a function with [total_call_count] 0 and callees; the walk first
    prints the line of that function, whenever [round(1.0 * cost)] can be
    computed, and ends in the exception otherwise. *)
Lemma traverse_from_cases fs r me :
  fs !! r = Some me →
  (is_root me = true
   ↔ Function.total_call_count me = 0 ∧ Function.calls me ≠ [])
  ∧ (is_root me = false → traverse_from fs r = ([], Returned tt))
  ∧ (Function.total_call_count me = 0 → Function.calls me = [] →
     traverse_from fs r = ([], Returned tt))
  ∧ (is_root me = true → ∀ v,
     Function.scaled Float.one (Function.cost me) = Ok v →
     ∃ rest o,
       traverse_from fs r
       = ((Function.str me +:+ " " +:+ pretty v) :: rest, o))
  ∧ (is_root me = true → Z.abs (Function.cost me) < 2 ^ 53 →
     ∃ rest o,
       traverse_from fs r
       = ((Function.str me +:+ " " +:+ pretty (Function.cost me)) :: rest, o))
  ∧ (is_root me = true → ∀ e,
     Function.scaled Float.one (Function.cost me) = Raise e →
     traverse_from fs r = ([], Raised e)).
Proof.
  intros Hme.
  assert (∀ v, is_root me = true →
            Function.scaled Float.one (Function.cost me) = Ok v →
            ∃ rest o,
              traverse_from fs r
              = ((Function.str me +:+ " " +:+ pretty v) :: rest, o)) as Hline.
  { intros v Hroot Hv. pose proof Hroot as [Ht Hc]%is_root_spec.
    unfold traverse_from, Function.deref. rewrite Hme. unfold_monad.
    rewrite pbind_plift_Ok, Hroot.
    destruct (print_stacks_first_line (size fs) fs r me [] 0 0 Float.one v)
      as (rest & o & ->); try done.
    - by intros ?%elem_of_nil.
    - by apply scale_of_root.
    - destruct o as [s|e|]; simpl; eauto. }
  split; [apply is_root_spec|].
  split; [|split; [|split; [|split]]].
  - intros Hroot. unfold traverse_from, Function.deref. rewrite Hme.
    unfold_monad. by rewrite pbind_plift_Ok, Hroot.
  - intros Ht Hc. unfold traverse_from, Function.deref. rewrite Hme.
    unfold_monad. rewrite pbind_plift_Ok. unfold is_root. rewrite Hc.
    by rewrite andb_false_r.
  - intros Hroot v Hv. by apply Hline.
  - intros Hroot Hk. apply Hline; [done|]. by apply scaled_one.
  - intros Hroot e He. pose proof Hroot as [Ht Hc]%is_root_spec.
    unfold traverse_from, Function.deref. rewrite Hme. unfold_monad.
    rewrite pbind_plift_Ok, Hroot.
    rewrite (print_stacks_first_line_raises _ _ _ me _ _ _ e); try done.
    + by intros ?%elem_of_nil.
    + rewrite scale_of_root by done. exact He.
Qed.

(** ** The cost that reaches a callee *)

Lemma pfor_Returned_elem {A S} (body : A → S → printing S) l x :
  (∀ y s out s', y ∈ l → body y s = (out, Returned s') → s' = s) →
  x ∈ l →
  ∀ s out s', pfor body l s = (out, Returned s') →
    ∃ o, body x s = (o, Returned s) ∧ ∀ line, line ∈ o → line ∈ out.
Proof.
  induction l as [|y l IH]; intros Hst Hx s out s'; [by apply elem_of_nil in Hx|].
  simpl. intros (o1 & s1 & o2 & H1 & H2 & ->)%pbind_Returned.
  assert (s1 = s) as -> by (eapply Hst; [left|done]).
  apply elem_of_cons in Hx as [->|Hx].
  - exists o1. split; [done|]. intros line ?. apply elem_of_app. by left.
  - destruct (IH (λ y s out s' Hy, Hst y s out s' (list_elem_of_further _ _ _ Hy))
                Hx s o2 s' H2) as (o & Hb & Ho).
    exists o. split; [done|]. intros line ?%Ho. apply elem_of_app. by right.
Qed.

Lemma deref_Some (fs : Function.heap) r f :
  fs !! r = Some f → Function.deref fs r = Ok f.
Proof. intros H. unfold Function.deref. by rewrite H. Qed.

Lemma getitem_Some (d : gmap Function.ident Z) k x :
  d !! k = Some x → Str.getitem d k = Ok x.
Proof. intros H. unfold Str.getitem. by rewrite H. Qed.

(** A leaf is printed with the cost of the edge scaled by the caller's
    scale. *)
Lemma print_stacks_leaf_line fuel fs p P c C stack count cost scale K v out s :
  fs !! p = Some P → Function.str P ∉ stack →
  Function.scale_of P count = Ok scale →
  c ∈ Function.calls P → fs !! c = Some C → Function.calls C = [] →
  Function.str C ∉ stack ++ [Function.str P] →
  Function.callcosts P !! Function.key C = Some K →
  Function.scaled scale K = Ok v →
  Function.print_stacks (S (S fuel)) fs p stack count cost = (out, Returned s) →
  Str.join ";" (stack ++ [Function.str P; Function.str C]) +:+ " " +:+ pretty v
  ∈ out.
Proof.
  intros HP Hin Hscale Hc HC Hleaf HinC HK Hv. rewrite print_stacks_S.
  rewrite (deref_Some _ _ _ HP). unfold_monad.
  rewrite pbind_plift_Ok.
  rewrite bool_decide_eq_false_2 by done. cbv zeta.
  rewrite length_pos_nonempty by (intros E; rewrite E in Hc; by apply elem_of_nil in Hc).
  rewrite Hscale, pbind_plift_Ok.
  intros (o1 & s1 & o2 & H & _ & ->)%pbind_Returned.
  apply pbind_Returned in H as (o3 & v0 & o4 & _ & H & ->).
  apply pbind_Returned in H as (o5 & [] & o6 & _ & H & ->).
  eapply (pfor_Returned_elem _ _ c) in H as (o & Hb & Ho); [|clear H|done].
  - rewrite (deref_Some _ _ _ HC), pbind_plift_Ok in Hb.
    rewrite (getitem_Some _ _ _ HK), pbind_plift_Ok in Hb.
    apply pbind_Returned in Hb as (? & n & o7 & [_ ->]%plift_Returned & Hb & ->).
    rewrite Hv, pbind_plift_Ok in Hb.
    rewrite (print_stacks_leaf _ _ _ C) in Hb by done.
    injection Hb as <-.
    apply elem_of_app. left. apply elem_of_app. right.
    apply elem_of_app. right. apply Ho. simpl.
    rewrite <-app_assoc. simpl. left.
  - intros f s0 out' s' _ Hb.
    apply pbind_Returned in Hb as (? & fe & ? & _ & Hb & _).
    apply pbind_Returned in Hb as (? & cc & ? & _ & Hb & _).
    apply pbind_Returned in Hb as (? & cn & ? & _ & Hb & _).
    apply pbind_Returned in Hb as (? & cx & ? & _ & Hb & _).
    by eapply print_stacks_returns_stack.
Qed.

(** ** The example of the program's header *)

(** The embedding prints what the header of the program says it prints. *)
Example documented_output :
  main documented_input
  = (["file1.c#main 20";
      "file1.c#main;file1.c#func1 100";
      "file1.c#main;file1.c#func1;file2.c#func2 300";
      "file1.c#main;file2.c#func2 400"],
     Returned []).
Proof. vm_compute. reflexivity. Qed.

(** ** One caller *)

(** In the example of the header, [func1] has one caller, [main], that
    calls it once over an edge of cost 400; the line of the path that enters
    [func1] shows 100, the self cost of [func1]. *)
Lemma C1_line_shows_self_cost :
  ¬ (∀ fs p P c C K fuel out o v,
       fs !! p = Some P → fs !! c = Some C → c ∈ Function.calls P →
       map_Forall (λ q Q, c ∈ Function.calls Q → q = p) fs →
       Function.callcounts P !! Function.key C = Some 1 →
       Function.total_call_count C = 1 →
       Function.callcosts P !! Function.key C = Some K →
       Function.print_stacks fuel fs p [] 0 0 = (out, o) →
       Str.join ";" [Function.str P; Function.str C] +:+ " " +:+ pretty v
       ∈ out →
       v = K).
Proof.
  intros H.
  specialize (H documented_graph
                "file1.c#main" documented_main
                "file1.c#func1" documented_func1
                400 4%nat
                ["file1.c#main 20";
                 "file1.c#main;file1.c#func1 100";
                 "file1.c#main;file1.c#func1;file2.c#func2 300";
                 "file1.c#main;file2.c#func2 400"]
                (Returned []) 100).
  assert (100 = 400) as Habsurd; [|discriminate].
  apply H.
  - vm_compute. reflexivity.
  - vm_compute. reflexivity.
  - vm_compute. apply list_elem_of_here.
  - match goal with |- ?G => apply (bool_decide_unpack G) end.
    vm_compute. exact I.
  - vm_compute. reflexivity.
  - reflexivity.
  - vm_compute. reflexivity.
  - vm_compute. reflexivity.
  - vm_compute. apply list_elem_of_further, list_elem_of_here.
Qed.

(** ** Every object the program builds keeps its accumulators registered *)

Lemma all_registered_insert fs r f :
  all_registered fs → accumulators_registered f →
  all_registered (<[r := f]> fs).
Proof.
  intros Hall Hf r' f'. destruct (decide (r = r')) as [<-|Hne].
  - rewrite lookup_insert_eq. by intros [= <-].
  - rewrite lookup_insert_ne by done. apply Hall.
Qed.

Lemma registered_update_costs f k x y :
  accumulators_registered f → Function.callcosts f !! k = Some x →
  accumulators_registered
    (Function.with_callcosts (<[k := y]> (Function.callcosts f)) f).
Proof.
  intros [Hc Hn] Hk. split; simpl; [|done].
  rewrite dom_insert_lookup_L; [done|eauto].
Qed.

Lemma registered_update_counts f k x y :
  accumulators_registered f → Function.callcounts f !! k = Some x →
  accumulators_registered
    (Function.with_callcounts (<[k := y]> (Function.callcounts f)) f).
Proof.
  intros [Hc Hn] Hk. split; simpl; [done|].
  rewrite dom_insert_lookup_L; [done|eauto].
Qed.

Lemma registered_with_callee callee k f :
  accumulators_registered f →
  accumulators_registered (Function.with_callee callee k f).
Proof. intros [Hc Hn]. split; simpl; rewrite dom_insert_L; congruence. Qed.

Lemma getitem_Ok (d : gmap Function.ident Z) k x :
  Str.getitem d k = Ok x → d !! k = Some x.
Proof. unfold Str.getitem. destruct (d !! k); [|done]. by intros [= ->]. Qed.

Lemma deref_Ok (fs : Function.heap) r f :
  Function.deref fs r = Ok f → fs !! r = Some f.
Proof. unfold Function.deref. destruct (fs !! r); [|done]. by intros [= ->]. Qed.

Lemma rbind_Ok {A B} (m : result A) (k : A → result B) b :
  rbind m k = Ok b → ∃ a, m = Ok a ∧ k a = Ok b.
Proof. destruct m as [a|]; [|done]. simpl. eauto. Qed.

Lemma all_registered_construct op fs fs' :
  all_registered fs → construct op fs = Ok fs' → all_registered fs'.
Proof.
  intros Hall. destruct op as [o f n|self callee count|self callee c|self c];
    simpl.
  - intros [= <-]. case_bool_decide; [done|].
    apply all_registered_insert; [done|]. split; simpl; by rewrite dom_empty_L.
  - unfold Function.add_call. unfold_monad.
    intros (me & Hme%deref_Ok & H)%rbind_Ok.
    apply rbind_Ok in H as (ce & Hce%deref_Ok & H). cbv zeta in H.
    set (me1 := if bool_decide _ then me else _) in H.
    assert (accumulators_registered me1) as H1.
    { unfold me1. case_bool_decide; [by eapply Hall|].
      apply registered_with_callee. by eapply Hall. }
    destruct (Function.eq me1 ce).
    { injection H as <-. by apply all_registered_insert. }
    apply rbind_Ok in H as (x & Hx%getitem_Ok & H).
    apply rbind_Ok in H as (n & Hn%getitem_Ok & H).
    apply rbind_Ok in H as (ce' & Hce'%deref_Ok & [= <-]).
    pose proof (registered_update_costs _ _ _ (x + 0) H1 Hx) as H2.
    pose proof (registered_update_counts _ _ _ (n + count) H2 Hn) as H3.
    pose proof (all_registered_insert _ self _
                  (all_registered_insert _ self _ Hall H1) H3) as H4.
    apply all_registered_insert; [exact H4|].
    destruct (H4 _ _ Hce'). by split.
  - unfold Function.add_callcost. unfold_monad.
    intros (me & Hme%deref_Ok & H)%rbind_Ok.
    apply rbind_Ok in H as (ce & Hce%deref_Ok & H).
    destruct (Function.eq me ce); [by injection H as <-|].
    destruct (last (Function.calls me)) as [l|]; [|done].
    apply rbind_Ok in H as (le & Hle%deref_Ok & H).
    apply rbind_Ok in H as (x & Hx%getitem_Ok & H).
    apply rbind_Ok in H as (ce' & Hce'%deref_Ok & [= <-]).
    pose proof (registered_update_costs _ _ _ (x + c) (Hall _ _ Hme) Hx) as H2.
    assert (all_registered
              (<[self := Function.with_callcosts
                   (<[Function.key le := x + c]> (Function.callcosts me)) me]>
                 fs)) as H4
      by (apply all_registered_insert; [exact Hall|exact H2]).
    apply all_registered_insert; [exact H4|].
    destruct (H4 _ _ Hce'). by split.
  - unfold Function.add_cost. unfold_monad.
    intros (me & Hme%deref_Ok & [= <-])%rbind_Ok.
    apply all_registered_insert; [done|].
    destruct (Hall _ _ Hme). by split.
Qed.

Lemma all_registered_construct_all ops :
  ∀ fs fs', all_registered fs → construct_all ops fs = Ok fs' →
            all_registered fs'.
Proof.
  induction ops as [|op ops IH]; intros fs fs' Hall; simpl.
  - by intros [= <-].
  - unfold_monad. intros (fs1 & H1 & H)%rbind_Ok.
    eapply IH; [|done]. by eapply all_registered_construct.
Qed.

(** Every object of a graph the parser has built satisfies the condition
    under which self edges are studied. *)
Lemma constructed_registered ops fs r f :
  construct_all ops ∅ = Ok fs → fs !! r = Some f →
  accumulators_registered f.
Proof.
  intros Hc. apply (all_registered_construct_all ops ∅ fs); [|done].
  intros ??. by rewrite lookup_empty.
Qed.

(** * Further properties of the code *)

(** ** The resolver, for every token *)

Lemma append_String c a b : String c a +:+ b = String c (a +:+ b).
Proof. reflexivity. Qed.

Lemma span_all p a :
  string_forall p a = true → Str.span p a = (a, "").
Proof.
  induction a as [|c a IH]; simpl; [done|].
  intros [-> Ha]%andb_true_iff. by rewrite IH.
Qed.

Lemma span_stop p a c r :
  string_forall p a = true → p c = false →
  Str.span p (a +:+ String c r) = (a, String c r).
Proof.
  intros Ha Hc. induction a as [|d a IH].
  - change ("" +:+ String c r) with (String c r). simpl. by rewrite Hc.
  - simpl in Ha. apply andb_true_iff in Ha as [Hd Ha].
    rewrite append_String. simpl. by rewrite Hd, IH.
Qed.

Lemma string_app_assoc a b c : (a +:+ b) +:+ c = a +:+ (b +:+ c).
Proof.
  induction a as [|x a IH]; [reflexivity|].
  rewrite !append_String. by rewrite IH.
Qed.

Lemma string_app_empty a : a +:+ "" = a.
Proof.
  induction a as [|x a IH]; [reflexivity|].
  rewrite append_String. by rewrite IH.
Qed.

Lemma number_token ds rest :
  is_number ds →
  Re.number (token ds +:+ rest) = Some (token ds, rest).
Proof.
  intros [Hne Hds]. unfold token. rewrite !string_app_assoc.
  change (Re.number ("(" +:+ ds +:+ ")" +:+ rest))
    with (let '(ds0, r1) := Str.span Str.is_digit (ds +:+ String ")" rest) in
          match ds0, r1 with
          | String _ _, String ")" r2 => Some ("(" +:+ ds0 +:+ ")", r2)
          | _, _ => None
          end).
  rewrite span_stop by done. by destruct ds.
Qed.

Lemma definition_token ds v :
  is_number ds → is_value v →
  Re.definition (token ds +:+ " " +:+ v) = Some (token ds, v).
Proof.
  intros Hds [Hne Hv]. unfold Re.definition.
  rewrite number_token by done. simpl.
  unfold Re.dot_star. rewrite span_all by done. simpl. by destruct v.
Qed.

Lemma reference_token ds :
  is_number ds →
  Re.definition (token ds) = None ∧ Re.reference (token ds) = Some (token ds).
Proof.
  intros Hds. pose proof (number_token ds "" Hds) as H.
  rewrite string_app_empty in H. unfold Re.definition, Re.reference. by rewrite H.
Qed.

(** X1. A definition token stores its value under its number unless the
    number is taken, and returns the value it carries either way; the
    reference that follows returns what the table holds: the value of the
    first definition. *)
Theorem lookup_define_then_refer (T : gmap string string) ds v :
  is_number ds → is_value v →
  ∃ T',
    lookup T (token ds +:+ " " +:+ v) = Ok (v, T')
    ∧ T' !! token ds = Some (default v (T !! token ds))
    ∧ lookup T' (token ds) = Ok (default v (T !! token ds), T')
    ∧ ∀ k, k ≠ token ds → T' !! k = T !! k.
Proof.
  intros Hds Hv. unfold lookup. rewrite definition_token by done.
  destruct (reference_token ds Hds) as [-> ->].
  destruct (T !! token ds) as [old|] eqn:Hold; simpl.
  - exists T. by rewrite Hold.
  - exists (<[token ds := v]> T). rewrite lookup_insert_eq.
    repeat split; try done. intros k Hk. by rewrite lookup_insert_ne.
Qed.

Lemma lookup_define_then_refer_witness :
  ∃ T', lookup {["(12)" := "old.c"]} "(12) new.c" = Ok ("new.c", T')
    ∧ lookup T' "(12)" = Ok ("old.c", T').
Proof.
  destruct (lookup_define_then_refer {["(12)" := "old.c"]} "12" "new.c")
    as (T' & H1 & _ & H2 & _).
  - split; [discriminate|reflexivity].
  - split; [discriminate|reflexivity].
  - exists T'. split; [exact H1|exact H2].
Defined.

(** X2. A reference to a number the table does not hold raises the
    exception that names the token, whatever the number. *)
Theorem lookup_undefined_reference (T : gmap string string) ds :
  is_number ds → T !! token ds = None →
  lookup T (token ds) = Raise (Exception (token ds +:+ " not found")).
Proof.
  intros Hds HT. unfold lookup.
  destruct (reference_token ds Hds) as [-> ->]. by rewrite HT.
Qed.

Lemma lookup_undefined_reference_witness :
  lookup {["(1)" := "a.c"]} "(27)" = Raise (Exception "(27) not found").
Proof.
  apply (lookup_undefined_reference {["(1)" := "a.c"]} "27").
  - split; [discriminate|reflexivity].
  - reflexivity.
Defined.

Lemma lookup_subseteq (T T' : gmap string string) name v :
  lookup T name = Ok (v, T') → T ⊆ T'.
Proof.
  unfold lookup. destruct (Re.definition name) as [[num val]|].
  - destruct (T !! num) as [old|] eqn:Hnum; intros [= <- <-]; [done|].
    by apply insert_subseteq.
  - destruct (Re.reference name) as [num|]; [|by intros [= <- <-]].
    destruct (T !! num); [|done]. by intros [= <- <-].
Qed.

Lemma lookup_again (T T' : gmap string string) name v :
  lookup T name = Ok (v, T') → lookup T' name = Ok (v, T').
Proof.
  unfold lookup. destruct (Re.definition name) as [[num val]|].
  - destruct (T !! num) as [old|] eqn:Hnum; intros [= <- <-].
    + by rewrite Hnum.
    + by rewrite lookup_insert_eq.
  - destruct (Re.reference name) as [num|]; [|by intros [= <- <-]].
    destruct (T !! num) as [x|] eqn:Hnum; [|done]. intros [= <- <-].
    by rewrite Hnum.
Qed.

(** X3. [lookup] never overwrites and never removes: every entry of the
    table is still there afterwards with the same value, and at most one
    entry is new, the one the definition token carries. *)
Theorem lookup_write_once (T T' : gmap string string) name v :
  lookup T name = Ok (v, T') →
  T ⊆ T'
  ∧ ∀ k x, T' !! k = Some x →
      T !! k = Some x
      ∨ (T !! k = None ∧ Re.definition name = Some (k, x) ∧ x = v).
Proof.
  intros H. split; [by eapply lookup_subseteq|]. revert H.
  unfold lookup. destruct (Re.definition name) as [[num val]|].
  - destruct (T !! num) as [old|] eqn:Hnum; intros [= <- <-].
    + intros k x Hk. by left.
    + intros k x.
      destruct (decide (num = k)) as [<-|Hne].
      * rewrite lookup_insert_eq. intros [= <-]. by right.
      * rewrite lookup_insert_ne by done. by left.
  - destruct (Re.reference name) as [num|].
    + destruct (T !! num); [|done]. intros [= <- <-]. by left.
    + intros [= <- <-]. by left.
Qed.

Lemma lookup_write_once_witness :
  ({["(1)" := "a.c"]} : gmap string string)
  ⊆ <["(2)" := "b.c"]> {["(1)" := "a.c"]}.
Proof.
  apply (lookup_write_once {["(1)" := "a.c"]}
           (<["(2)" := "b.c"]> {["(1)" := "a.c"]}) "(2) b.c" "b.c").
  vm_compute. reflexivity.
Defined.

(** X4. A lookup that succeeded stays valid: on the table it left, and on
    any table that extends it, the same name resolves to the same value and
    changes nothing. *)
Theorem lookup_idempotent (T T' T'' : gmap string string) name v :
  lookup T name = Ok (v, T') → T' ⊆ T'' → lookup T'' name = Ok (v, T'').
Proof.
  unfold lookup. destruct (Re.definition name) as [[num val]|].
  - destruct (T !! num) as [old|] eqn:Hnum; intros [= <- <-] Hsub.
    + by rewrite (lookup_weaken _ _ _ _ Hnum Hsub).
    + by rewrite (lookup_weaken _ T'' num val (lookup_insert_eq _ _ _) Hsub).
  - destruct (Re.reference name) as [num|]; [|by intros [= <- <-]].
    destruct (T !! num) as [x|] eqn:Hnum; [|done]. intros [= <- <-] Hsub.
    by rewrite (lookup_weaken _ _ _ _ Hnum Hsub).
Qed.

Lemma lookup_idempotent_witness :
  lookup (<["(3)" := "c.c"]> (<["(2)" := "b.c"]> ∅)) "(2) b.c"
  = Ok ("b.c", <["(3)" := "c.c"]> (<["(2)" := "b.c"]> ∅)).
Proof.
  apply (lookup_idempotent ∅ (<["(2)" := "b.c"]> ∅) _ "(2) b.c" "b.c").
  - vm_compute. reflexivity.
  - apply insert_subseteq. vm_compute. reflexivity.
Defined.

(** ** The registry: what [lookup_f] keeps *)

Lemma globals_eta g :
  mk_globals (ob g) (fl g) (fn g) (functions g) (functions_keys g) = g.
Proof. by destruct g. Qed.

(** [lookup_f] run forward, from the three resolutions. *)
Lemma lookup_f_run s_ob s_fl s_fn g obstr flstr fnstr t1 t2 t3 :
  lookup (ob g) s_ob = Ok (obstr, t1) →
  lookup (fl g) s_fl = Ok (flstr, t2) →
  lookup (fn g) s_fn = Ok (fnstr, t3) →
  lookup_f s_ob s_fl s_fn g
  = Ok (flstr +:+ "#" +:+ fnstr,
        mk_globals t1 t2 t3
          (match functions g !! (flstr +:+ "#" +:+ fnstr) with
           | Some _ => functions g
           | None => <[flstr +:+ "#" +:+ fnstr
                       := Function.init obstr flstr fnstr]> (functions g)
           end)
          (match functions g !! (flstr +:+ "#" +:+ fnstr) with
           | Some _ => functions_keys g
           | None => functions_keys g ++ [flstr +:+ "#" +:+ fnstr]
           end)).
Proof.
  intros H1 H2 H3.
  unfold lookup_f, lookup_ob, lookup_fl, lookup_fn, has_function,
    store_function.
  unfold_monad. unfold rbind. rewrite H1. simpl. rewrite H2. simpl.
  rewrite H3. simpl. unfold Function.str. simpl.
  destruct (functions g !! (flstr +:+ "#" +:+ fnstr)) as [f|] eqn:Hf.
  - by rewrite bool_decide_eq_true_2 by (rewrite ?Hf; eauto).
  - rewrite !bool_decide_eq_false_2 by (rewrite ?Hf; by intros [? ?]).
    simpl. by rewrite !bool_decide_eq_false_2 by (rewrite ?Hf; by intros [? ?]).
Qed.

(** X5. [lookup_f] changes and removes no object: every function already
    in [functions] is still there, unchanged; the three tables only grow;
    the reference it returns has an object under it; the key list is as it
    was or one longer, by that reference; and the same lookup, repeated,
    returns the same reference and changes nothing more. *)
Theorem lookup_f_keeps_functions s_ob s_fl s_fn g r g' :
  lookup_f s_ob s_fl s_fn g = Ok (r, g') →
  functions g ⊆ functions g'
  ∧ ob g ⊆ ob g' ∧ fl g ⊆ fl g' ∧ fn g ⊆ fn g'
  ∧ is_Some (functions g' !! r)
  ∧ (functions_keys g' = functions_keys g
     ∨ (functions g !! r = None ∧ functions_keys g' = functions_keys g ++ [r]))
  ∧ lookup_f s_ob s_fl s_fn g' = Ok (r, g').
Proof.
  intros (o & f & n & Ho & Hf & Hn & -> & Hfs & Hks)%lookup_f_Ok.
  set (r := f +:+ "#" +:+ n) in *.
  split; [|split; [|split; [|split; [|split; [|split]]]]].
  - rewrite Hfs. destruct (functions g !! r) eqn:Hr; [reflexivity|].
    by apply insert_subseteq.
  - by apply lookup_subseteq in Ho.
  - by apply lookup_subseteq in Hf.
  - by apply lookup_subseteq in Hn.
  - rewrite Hfs. destruct (functions g !! r) eqn:Hr; [by rewrite Hr|].
    rewrite lookup_insert_eq. eauto.
  - rewrite Hks. destruct (functions g !! r) eqn:Hr; [by left|by right].
  - rewrite (lookup_f_run _ _ _ _ o f n (ob g') (fl g') (fn g'));
      try by eapply lookup_again.
    fold r.
    assert (is_Some (functions g' !! r)) as [x Hx].
    { rewrite Hfs. destruct (functions g !! r) eqn:Hr; [by rewrite Hr|].
      rewrite lookup_insert_eq. eauto. }
    rewrite Hx. by rewrite globals_eta.
Qed.

Lemma lookup_f_keeps_functions_witness :
  ∃ r g', lookup_f "(1) /bin/a" "(1) a.c" "(1) f" initial_globals = Ok (r, g')
    ∧ lookup_f "(1) /bin/a" "(1) a.c" "(1) f" g' = Ok (r, g').
Proof.
  destruct (lookup_f "(1) /bin/a" "(1) a.c" "(1) f" initial_globals)
    as [[r g']|] eqn:H; [|by vm_compute in H].
  exists r, g'. split; [reflexivity|].
  by apply (lookup_f_keeps_functions _ _ _ initial_globals).
Defined.

(** ** What the parser keeps true of the globals *)

(** A property of the globals that [lookup_f], [lookup_fl] and the three
    methods keep is kept by the whole body. *)
Section parser_invariant.
Variable P : globals → Prop.
Hypothesis P_lookup_f : ∀ a b c g r g',
  P g → lookup_f a b c g = Ok (r, g') → P g'.
Hypothesis P_lookup_fl : ∀ v g x g',
  P g → lookup_fl v g = Ok (x, g') → P g'.
Hypothesis P_method : ∀ op g u g',
  is_method op → P g → on_functions (construct op) g = Ok (u, g') → P g'.

Lemma calls_invariant state param g g' :
  P g → calls state param g = Ok (tt, g') → P g'.
Proof.
  intros HP. unfold calls.
  intros (s_ob & ? & [_ ->]%state_get_Ok & H)%run_bind_Ok.
  apply run_bind_Ok in H as (s_fl & ? & [_ ->]%state_get_Ok & H).
  apply run_bind_Ok in H as (s_fn & ? & [_ ->]%state_get_Ok & H).
  apply run_bind_Ok in H as (caller & ga & Ha & H).
  apply run_bind_Ok in H as (s_cob & ? & [_ ->]%state_get_Ok & H).
  apply run_bind_Ok in H as (s_cfi & ? & [_ ->]%state_get_Ok & H).
  apply run_bind_Ok in H as (s_cfn & ? & [_ ->]%state_get_Ok & H).
  apply run_bind_Ok in H as (callee & gb & Hb & H).
  apply run_bind_Ok in H as (field & ? & [_ ->]%lift_Ok & H).
  apply run_bind_Ok in H as (count & ? & [_ ->]%lift_Ok & H).
  apply (P_method (AddCall caller callee count) gb tt g'); [done| |done].
  eapply P_lookup_f; [|exact Hb]. eapply P_lookup_f; [|exact Ha]. done.
Qed.

Lemma callcost_invariant state param g g' :
  P g → callcost state param g = Ok (tt, g') → P g'.
Proof.
  intros HP. unfold callcost.
  intros (s_ob & ? & [_ ->]%state_get_Ok & H)%run_bind_Ok.
  apply run_bind_Ok in H as (s_fl & ? & [_ ->]%state_get_Ok & H).
  apply run_bind_Ok in H as (s_fn & ? & [_ ->]%state_get_Ok & H).
  apply run_bind_Ok in H as (caller & ga & Ha & H).
  apply run_bind_Ok in H as (s_cob & ? & [_ ->]%state_get_Ok & H).
  apply run_bind_Ok in H as (s_cfi & ? & [_ ->]%state_get_Ok & H).
  apply run_bind_Ok in H as (s_cfn & ? & [_ ->]%state_get_Ok & H).
  apply run_bind_Ok in H as (callee & gb & Hb & H).
  apply run_bind_Ok in H as (field & ? & [_ ->]%lift_Ok & H).
  apply run_bind_Ok in H as (c & ? & [_ ->]%lift_Ok & H).
  apply (P_method (AddCallCost caller callee c) gb tt g'); [done| |done].
  eapply P_lookup_f; [|exact Hb]. eapply P_lookup_f; [|exact Ha]. done.
Qed.

Lemma cost_invariant state param g g' :
  P g → cost state param g = Ok (tt, g') → P g'.
Proof.
  intros HP. unfold cost.
  intros (s_ob & ? & [_ ->]%state_get_Ok & H)%run_bind_Ok.
  apply run_bind_Ok in H as (s_fl & ? & [_ ->]%state_get_Ok & H).
  apply run_bind_Ok in H as (s_fn & ? & [_ ->]%state_get_Ok & H).
  apply run_bind_Ok in H as (function & ga & Ha & H).
  apply run_bind_Ok in H as (field & ? & [_ ->]%lift_Ok & H).
  apply run_bind_Ok in H as (c & ? & [_ ->]%lift_Ok & H).
  apply (P_method (AddCost function c) ga tt g'); [done| |done].
  eapply P_lookup_f; [|exact Ha]. done.
Qed.

Lemma parse_body_line_invariant raw c g t g' :
  P g → parse_body_line raw c g = Ok (t, g') → P g'.
Proof.
  intros HP. unfold parse_body_line. unfold mret, run_ret.
  destruct (Str.startswith "#" (Str.strip raw)); [by intros [= _ <-]|].
  destruct (String.length (Str.strip raw) =? 0)%nat; [by intros [= _ <-]|].
  destruct (Re.directive (Str.strip raw)) as [[key value]|].
  - intros ([] & g1 & H1 & H)%run_bind_Ok.
    assert (P g1) as HP1.
    { destruct (_ || _).
      - apply run_bind_Ok in H1 as (? & ? & Hfl & [= <-]).
        by eapply P_lookup_fl.
      - by injection H1 as <-. }
    destruct (String.eqb (alias key) "calls").
    + apply run_bind_Ok in H as ([] & g2 & Hcalls & [= _ <-]).
      by eapply calls_invariant.
    + by injection H as _ <-.
  - destruct (Re.cost_line (Str.strip raw)); [|by intros [= _ <-]].
    destruct (in_call c).
    + intros ([] & g1 & H1 & [= _ <-])%run_bind_Ok.
      by eapply callcost_invariant.
    + intros ([] & g1 & H1 & [= _ <-])%run_bind_Ok.
      by eapply cost_invariant.
Qed.

Lemma parse_body_loop_invariant queue :
  ∀ c g rest g',
    P g → parse_body_loop queue c g = Ok (rest, g') → P g'.
Proof.
  induction queue as [|raw queue IH]; intros c g rest g' HP; simpl;
    unfold mret, run_ret.
  - by intros [= _ <-].
  - intros (t & g1 & H1 & H)%run_bind_Ok.
    apply parse_body_line_invariant in H1; [|done].
    destruct t as [c1|]; [by eapply IH|]. by injection H as _ <-.
Qed.
End parser_invariant.

Lemma method_dom op fs fs' :
  is_method op → construct op fs = Ok fs' → dom fs' = dom fs.
Proof.
  destruct op as [o f n|self callee count|self callee c|self c]; simpl;
    [done| | |]; intros _.
  - unfold Function.add_call. unfold_monad.
    intros (me & Hme%deref_Ok & H)%rbind_Ok.
    apply rbind_Ok in H as (ce & Hce%deref_Ok & H). cbv zeta in H.
    destruct (Function.eq _ ce).
    { injection H as <-. apply dom_insert_lookup_L. eauto. }
    apply rbind_Ok in H as (x & _ & H).
    apply rbind_Ok in H as (n & _ & H).
    apply rbind_Ok in H as (ce' & Hce'%deref_Ok & [= <-]).
    rewrite dom_insert_lookup_L by eauto.
    rewrite !dom_insert_lookup_L; [done|eauto|].
    rewrite lookup_insert_eq. eauto.
  - unfold Function.add_callcost. unfold_monad.
    intros (me & Hme%deref_Ok & H)%rbind_Ok.
    apply rbind_Ok in H as (ce & Hce%deref_Ok & H).
    destruct (Function.eq me ce); [by injection H as <-|].
    destruct (last (Function.calls me)) as [l|]; [|done].
    apply rbind_Ok in H as (le & _ & H).
    apply rbind_Ok in H as (x & _ & H).
    apply rbind_Ok in H as (ce' & Hce'%deref_Ok & [= <-]).
    rewrite dom_insert_lookup_L by eauto.
    apply dom_insert_lookup_L. eauto.
  - unfold Function.add_cost. unfold_monad.
    intros (me & Hme%deref_Ok & [= <-])%rbind_Ok.
    apply dom_insert_lookup_L. eauto.
Qed.

Lemma keys_listed_lookup_f a b c g r g' :
  keys_listed g → lookup_f a b c g = Ok (r, g') → keys_listed g'.
Proof.
  intros [Hnd Hk] (o & f & n & _ & _ & _ & -> & Hfs & Hks)%lookup_f_Ok.
  set (r := f +:+ "#" +:+ n) in *. unfold keys_listed. rewrite Hfs, Hks.
  destruct (functions g !! r) eqn:Hr; [done|]. split.
  - apply NoDup_app. split; [done|]. split; [|apply NoDup_singleton].
    intros x Hx ->%list_elem_of_singleton. apply Hk in Hx as [? ?]. congruence.
  - intros k. rewrite elem_of_app, list_elem_of_singleton, Hk.
    destruct (decide (r = k)) as [<-|Hne].
    + rewrite lookup_insert_eq. split; eauto.
    + rewrite lookup_insert_ne by done. split; [intros [?|?]; congruence|eauto].
Qed.

(** X6. The key list of [functions] names every function once, under the
    key it is stored at, after any body the parser gets through: the loop of
    [main] meets each function exactly once. *)
Theorem parse_body_lists_each_function_once queue rest g :
  parse_body queue initial_globals = Ok (rest, g) →
  NoDup (functions_keys g)
  ∧ ∀ k, k ∈ functions_keys g ↔ is_Some (functions g !! k).
Proof.
  apply (parse_body_loop_invariant keys_listed).
  - apply keys_listed_lookup_f.
  - intros v g0 x g1 [Hnd Hk]. unfold lookup_fl. unfold_monad.
    intros ([? ?] & _ & [= _ <-])%rbind_Ok. by split.
  - intros op g0 u g1 Hop [Hnd Hk]
      (fs & Hfs%(method_dom _ _ _ Hop) & ->)%on_functions_Ok.
    split; [done|]. simpl. intros k. rewrite Hk.
    by rewrite <-!elem_of_dom, Hfs.
  - split; [apply NoDup_nil_2|]. intros k. simpl.
    rewrite lookup_empty, elem_of_nil. split; [done|by intros [? ?]].
Qed.

Lemma parse_body_lists_each_function_once_witness :
  parse_body small_body initial_globals = Ok ([], small_globals)
  ∧ NoDup (functions_keys small_globals).
Proof.
  assert (parse_body small_body initial_globals = Ok ([], small_globals))
    as H by (vm_compute; reflexivity).
  split; [exact H|].
  exact (proj1 (parse_body_lists_each_function_once small_body [] small_globals H)).
Defined.

(** ** The two loops over the queue *)

Lemma parse_header_cons raw queue :
  parse_header (raw :: queue)
  = if is_header_line raw then parse_header queue else raw :: queue.
Proof.
  unfold is_header_line, is_skipped. simpl.
  destruct (Str.startswith _ _); [done|].
  destruct (_ =? _)%nat; [done|]. simpl.
  destruct (Re.header _); [|done].
  rewrite bool_decide_eq_true_2; [done|eauto].
Qed.

(** X7. [parse_header] takes comment lines, blank lines and header lines from
    the front of the queue and stops at the first line that is none of the
    three; what it leaves it would leave again. *)
Theorem parse_header_stops_at_first_other queue :
  ∃ taken,
    queue = taken ++ parse_header queue
    ∧ Forall (λ raw, is_header_line raw = true) taken
    ∧ Forall (λ raw, is_header_line raw = false) (take 1 (parse_header queue))
    ∧ parse_header (parse_header queue) = parse_header queue.
Proof.
  induction queue as [|raw queue (taken & IH1 & IH2 & IH3 & IH4)].
  { exists []. repeat split; constructor. }
  rewrite parse_header_cons. destruct (is_header_line raw) eqn:Hraw.
  - exists (raw :: taken). repeat split; [by rewrite IH1 at 1|by constructor|done..].
  - exists []. repeat split; [constructor|by repeat constructor|].
    by rewrite parse_header_cons, Hraw.
Qed.

Lemma parse_body_line_skipped raw c g :
  is_skipped raw = true → parse_body_line raw c g = Ok (Consumed c, g).
Proof.
  unfold is_skipped, parse_body_line. intros H.
  destruct (Str.startswith _ _); [done|]. simpl in H. by rewrite H.
Qed.

Lemma parse_body_loop_without_skipped queue :
  ∀ c g,
    parse_body_loop (without_skipped queue) c g
    = on_queue without_skipped (parse_body_loop queue c g).
Proof.
  unfold without_skipped.
  induction queue as [|raw queue IH]; intros c g; [done|].
  destruct (is_skipped raw) eqn:Hraw.
  - rewrite filter_cons_False by (by rewrite Hraw).
    rewrite IH. simpl. unfold mbind, run_bind.
    by rewrite parse_body_line_skipped.
  - rewrite filter_cons_True by done. simpl. unfold mbind, run_bind.
    destruct (parse_body_line raw c g) as [[[c1|] g1]|]; [apply IH| |done].
    simpl. unfold mret, run_ret. simpl. by rewrite filter_cons_True.
Qed.

(** X8. Comment lines and blank lines do not matter to [parse_body]: with
    them removed from the queue it builds the same globals, fails with the
    same exception, and leaves the same lines but for the removed ones. *)
Theorem comments_do_not_matter queue g :
  parse_body (without_skipped queue) g
  = on_queue without_skipped (parse_body queue g).
Proof. apply parse_body_loop_without_skipped. Qed.

(** ** Directive lines *)

Lemma alias_calls_iff key : alias key = "calls" ↔ key = "calls".
Proof.
  unfold alias. destruct (String.eqb key "cfl") eqn:H; [|done].
  apply String.eqb_eq in H as ->. done.
Qed.

Lemma parse_body_line_directive raw c g key value :
  Re.directive (Str.strip raw) = Some (key, value) →
  parse_body_line raw c g
  = (let key := alias key in
     let state := <[key := value]> (state c) in
     _ ← (if String.eqb key "fi" || String.eqb key "fe"
          then (_ ← lookup_fl value; mret tt) else mret tt);
     if String.eqb key "calls" then
       let state := default_from "cob" "ob" state in
       let state := default_from "cfi" "fl" state in
       _ ← calls state value;
       mret (Consumed (mk_context state true))
     else mret (Consumed (mk_context state (in_call c)))) g.
Proof.
  intros Hd. unfold parse_body_line.
  destruct (directive_line _ _ Hd) as (-> & -> & _). by rewrite Hd.
Qed.

Lemma parse_body_line_state_only raw c g :
  sets_state_only raw = true →
  ∃ c', parse_body_line raw c g = Ok (Consumed c', g)
        ∧ in_call c' = in_call c.
Proof.
  unfold sets_state_only, directive_key.
  destruct (Re.directive (Str.strip raw)) as [[key value]|] eqn:Hd; [|done].
  simpl. intros H%negb_true_iff.
  apply orb_false_iff in H as [[H1 H2]%orb_false_iff H3].
  rewrite (parse_body_line_directive _ _ _ _ _ Hd). cbv zeta.
  unfold mbind, run_bind, mret, run_ret. rewrite H1, H2, H3. simpl.
  by eexists.
Qed.

(** X9. Names are resolved late: a body of directive lines other than
    [calls], [fi] and [fe] (with comments and blank lines between them) is
    read to its end and leaves every global as it was. A name that [fn=],
    [fl=], [ob=] or [cfn=] defines is not entered in its table before a cost
    line or a [calls] line uses it. *)
Theorem names_are_resolved_late queue g :
  Forall (λ raw, is_skipped raw || sets_state_only raw = true) queue →
  parse_body queue g = Ok ([], g).
Proof.
  unfold parse_body. generalize initial_context.
  induction queue as [|raw queue IH]; intros c Hq; [done|].
  apply Forall_cons in Hq as [Hraw Hq]. simpl. unfold mbind, run_bind.
  apply orb_true_iff in Hraw as [Hraw|Hraw].
  - rewrite parse_body_line_skipped by done. by apply IH.
  - destruct (parse_body_line_state_only raw c g Hraw) as (c' & -> & _).
    by apply IH.
Qed.

Lemma names_are_resolved_late_witness :
  parse_body ["fl=(1) a.c"; "# main"; "fn=(1) main"; ""; "cfn=(2) f"]
    initial_globals
  = Ok ([], initial_globals).
Proof.
  apply names_are_resolved_late.
  repeat (apply Forall_cons; split; [vm_compute; reflexivity|]).
  apply Forall_nil_2.
Defined.

(** ** Lines that cannot be accepted *)

Lemma calls_uses_cfn st param g u g' :
  calls st param g = Ok (u, g') → is_Some (st !! "cfn").
Proof.
  unfold calls.
  intros (s_ob & ? & _ & H)%run_bind_Ok.
  apply run_bind_Ok in H as (s_fl & ? & _ & H).
  apply run_bind_Ok in H as (s_fn & ? & _ & H).
  apply run_bind_Ok in H as (caller & ga & _ & H).
  apply run_bind_Ok in H as (s_cob & ? & _ & H).
  apply run_bind_Ok in H as (s_cfi & ? & _ & H).
  apply run_bind_Ok in H as (s_cfn & ? & [Hcfn _]%state_get_Ok & H).
  eauto.
Qed.

Lemma parse_body_line_keeps_no_cfn raw c g c' g' :
  directive_key raw ≠ Some "cfn" →
  state c !! "cfn" = None →
  parse_body_line raw c g = Ok (Consumed c', g') →
  state c' !! "cfn" = None.
Proof.
  intros Hk Hc. unfold parse_body_line, directive_key in *.
  unfold mret, run_ret.
  destruct (Str.startswith "#" (Str.strip raw)); [by intros [= <- _]|].
  destruct (String.length (Str.strip raw) =? 0)%nat; [by intros [= <- _]|].
  destruct (Re.directive (Str.strip raw)) as [[key value]|].
  - simpl in Hk.
    intros ([] & g1 & _ & H)%run_bind_Ok.
    destruct (String.eqb (alias key) "calls").
    + apply run_bind_Ok in H as ([] & g2 & _ & [= <- _]). simpl.
      rewrite !default_from_lookup.
      rewrite !bool_decide_eq_false_2 by (by intros [? _]).
      rewrite lookup_insert_ne; [done|congruence].
    + injection H as <- _. simpl.
      rewrite lookup_insert_ne; [done|congruence].
  - destruct (Re.cost_line (Str.strip raw)); [|done].
    destruct (in_call c).
    + intros ([] & g1 & _ & [= <- _])%run_bind_Ok. simpl.
      by rewrite !lookup_delete_ne.
    + by intros ([] & g1 & _ & [= <- _])%run_bind_Ok.
Qed.

Lemma parse_body_line_calls_without_cfn raw c g :
  directive_key raw = Some "calls" →
  state c !! "cfn" = None →
  ∃ e, parse_body_line raw c g = Raise e.
Proof.
  unfold directive_key.
  destruct (Re.directive (Str.strip raw)) as [[key value]|] eqn:Hd; [|done].
  simpl. intros [= ->%alias_calls_iff] Hc.
  rewrite (parse_body_line_calls _ _ _ _ Hd). cbv zeta.
  unfold mbind, run_bind.
  destruct (calls _ value g) as [[u g1]|e] eqn:Hcalls; [|by eexists].
  apply calls_uses_cfn in Hcalls as [x Hx].
  rewrite !default_from_lookup in Hx.
  rewrite !bool_decide_eq_false_2 in Hx by (by intros [? _]).
  rewrite lookup_insert_ne in Hx by done. congruence.
Qed.

(** X10. A [calls] line is never accepted before a [cfn] line has been read:
    when no line in front of it is a [cfn] directive, a body that
    [parse_body] gets through has ended in front of the [calls] line. *)
Theorem calls_needs_cfn pre raw post g rest g' :
  Forall (λ l, directive_key l ≠ Some "cfn") pre →
  directive_key raw = Some "calls" →
  parse_body (pre ++ raw :: post) g = Ok (rest, g') →
  ∃ pre1 l pre2, pre = pre1 ++ l :: pre2 ∧ rest = l :: pre2 ++ raw :: post.
Proof.
  intros Hpre Hraw. unfold parse_body.
  assert (state initial_context !! "cfn" = None) as Hc by done.
  revert Hc. generalize initial_context. revert g.
  induction pre as [|l pre IH]; intros g c Hc; simpl; unfold mbind, run_bind.
  - destruct (parse_body_line_calls_without_cfn raw c g Hraw Hc) as [e ->].
    done.
  - apply Forall_cons in Hpre as [Hl Hpre].
    destruct (parse_body_line l c g) as [[[c1|] g1]|] eqn:Hline; [| |done].
    + intros (pre1 & l' & pre2 & -> & ->)%IH; [|done|].
      * by exists (l :: pre1), l', pre2.
      * by eapply parse_body_line_keeps_no_cfn.
    + intros [= <- <-]. by exists [], l, pre.
Qed.

Lemma calls_needs_cfn_witness :
  ∃ pre1 l pre2,
    ["# no callee named"; "totals: 2"] = pre1 ++ l :: pre2
    ∧ ["totals: 2"; "calls=1 3"; "1 4"] = l :: pre2 ++ ["calls=1 3"; "1 4"].
Proof.
  apply (calls_needs_cfn ["# no callee named"; "totals: 2"] "calls=1 3"
           ["1 4"] initial_globals _ initial_globals).
  - repeat (apply Forall_cons; split; [by vm_compute|]). apply Forall_nil_2.
  - vm_compute. reflexivity.
  - vm_compute. reflexivity.
Defined.

Lemma split_no_sep sep s :
  string_forall (λ ch, negb (Ascii.eqb ch sep)) s = true →
  Str.split sep s = [s].
Proof.
  induction s as [|ch s IH]; [done|]. simpl.
  intros [Hch Hs]%andb_true_iff. apply negb_true_iff in Hch as ->.
  by rewrite (IH Hs).
Qed.

Lemma run_bind_Raise {A B} (m : run A) (k : A → run B) g e :
  (m ≫= k) g = Raise e →
  m g = Raise e ∨ ∃ a g1, m g = Ok (a, g1) ∧ k a g1 = Raise e.
Proof.
  unfold_monad. destruct (m g) as [[a g1]|e']; [|intros [= <-]; by left].
  intros H. right. by exists a, g1.
Qed.

Lemma lookup_Raise T name e :
  lookup T name = Raise e → ∃ msg, e = Exception msg.
Proof.
  unfold lookup. destruct (Re.definition name) as [[num val]|]; [done|].
  destruct (Re.reference name) as [num|]; [|done].
  destruct (T !! num); [done|]. intros [= <-]. eauto.
Qed.

Lemma lookup_f_Raise a b c g e :
  lookup_f a b c g = Raise e → ∃ msg, e = Exception msg.
Proof.
  unfold lookup_f, lookup_ob, lookup_fl, lookup_fn, has_function,
    store_function.
  unfold_monad. unfold rbind.
  destruct (lookup (ob g) a) as [[o t1]|e1] eqn:H1;
    [|intros [= <-]; by eapply lookup_Raise].
  simpl.
  destruct (lookup (fl g) b) as [[f t2]|e2] eqn:H2;
    [|intros [= <-]; by eapply lookup_Raise].
  simpl.
  destruct (lookup (fn g) c) as [[n t3]|e3] eqn:H3;
    [|intros [= <-]; by eapply lookup_Raise].
  simpl. by destruct (negb _).
Qed.

Lemma state_get_Raise st key g e :
  state_get st key g = Raise e → e = KeyError.
Proof.
  unfold state_get, lift, Str.getitem. destruct (st !! key); [done|].
  by intros [= <-].
Qed.

Lemma cost_one_field st line g :
  Str.split " " line = [line] →
  ∃ e, cost st line g = Raise e ∧ field_missing e.
Proof.
  intros Hs. unfold cost. rewrite Hs.
  match goal with
  | |- ∃ e, ?m = _ ∧ _ => destruct m as [[u g']|e] eqn:H
  end.
  - apply run_bind_Ok in H as (s_ob & ? & _ & H).
    apply run_bind_Ok in H as (s_fl & ? & _ & H).
    apply run_bind_Ok in H as (s_fn & ? & _ & H).
    apply run_bind_Ok in H as (f & ? & _ & H).
    by apply run_bind_Ok in H as (? & ? & [[=] _]%lift_Ok & _).
  - exists e. split; [done|]. unfold field_missing.
    apply run_bind_Raise in H as [->%state_get_Raise|(? & ? & _ & H)]; [auto|].
    apply run_bind_Raise in H as [->%state_get_Raise|(? & ? & _ & H)]; [auto|].
    apply run_bind_Raise in H as [->%state_get_Raise|(? & ? & _ & H)]; [auto|].
    apply run_bind_Raise in H as [?%lookup_f_Raise|(? & ? & _ & H)]; [auto|].
    apply run_bind_Raise in H as [H|(? & ? & [[=] _]%lift_Ok & _)].
    unfold lift, Str.index in H. simpl in H. injection H as <-. auto.
Qed.

Lemma callcost_one_field st line g :
  Str.split " " line = [line] →
  ∃ e, callcost st line g = Raise e ∧ field_missing e.
Proof.
  intros Hs. unfold callcost. rewrite Hs.
  match goal with
  | |- ∃ e, ?m = _ ∧ _ => destruct m as [[u g']|e] eqn:H
  end.
  - apply run_bind_Ok in H as (s_ob & ? & _ & H).
    apply run_bind_Ok in H as (s_fl & ? & _ & H).
    apply run_bind_Ok in H as (s_fn & ? & _ & H).
    apply run_bind_Ok in H as (f & ? & _ & H).
    apply run_bind_Ok in H as (s_cob & ? & _ & H).
    apply run_bind_Ok in H as (s_cfi & ? & _ & H).
    apply run_bind_Ok in H as (s_cfn & ? & _ & H).
    apply run_bind_Ok in H as (f' & ? & _ & H).
    by apply run_bind_Ok in H as (? & ? & [[=] _]%lift_Ok & _).
  - exists e. split; [done|]. unfold field_missing.
    apply run_bind_Raise in H as [->%state_get_Raise|(? & ? & _ & H)]; [auto|].
    apply run_bind_Raise in H as [->%state_get_Raise|(? & ? & _ & H)]; [auto|].
    apply run_bind_Raise in H as [->%state_get_Raise|(? & ? & _ & H)]; [auto|].
    apply run_bind_Raise in H as [?%lookup_f_Raise|(? & ? & _ & H)]; [auto|].
    apply run_bind_Raise in H as [->%state_get_Raise|(? & ? & _ & H)]; [auto|].
    apply run_bind_Raise in H as [->%state_get_Raise|(? & ? & _ & H)]; [auto|].
    apply run_bind_Raise in H as [->%state_get_Raise|(? & ? & _ & H)]; [auto|].
    apply run_bind_Raise in H as [?%lookup_f_Raise|(? & ? & _ & H)]; [auto|].
    apply run_bind_Raise in H as [H|(? & ? & [[=] _]%lift_Ok & _)].
    unfold lift, Str.index in H. simpl in H. injection H as <-. auto.
Qed.

(** X11. A cost line needs two fields: a line of the cost-line pattern with
    no space in it is never accepted. It ends [parse_body] with an exception:
    [IndexError] from the missing second field, unless a name of the context
    fails to resolve first. *)
Theorem cost_line_needs_two_fields raw c g :
  Re.cost_line (Str.strip raw) = true →
  string_forall (λ ch, negb (Ascii.eqb ch " ")) (Str.strip raw) = true →
  ∃ e, parse_body_line raw c g = Raise e
       ∧ (e = IndexError ∨ e = KeyError ∨ ∃ msg, e = Exception msg).
Proof.
  intros Hc Hs%split_no_sep. rewrite parse_body_line_cost by done.
  unfold mbind, run_bind. destruct (in_call c).
  - destruct (callcost_one_field (state c) _ g Hs) as (e & -> & He). eauto.
  - destruct (cost_one_field (state c) _ g Hs) as (e & -> & He). eauto.
Qed.

Lemma cost_line_needs_two_fields_witness :
  ∃ e, parse_body_line "16" initial_context initial_globals = Raise e
       ∧ (e = IndexError ∨ e = KeyError ∨ ∃ msg, e = Exception msg).
Proof.
  apply cost_line_needs_two_fields; vm_compute; reflexivity.
Defined.

(** ** What the walk prints *)

Lemma lines_pbind {A B} (P : string → Prop) (m : printing A)
    (k : A → printing B) :
  Forall P (fst m) →
  (∀ out a, m = (out, Returned a) → Forall P (fst (k a))) →
  Forall P (fst (pbind m k)).
Proof.
  destruct m as [out [a|e|]]; simpl; intros Hm Hk; [|done..].
  specialize (Hk out a eq_refl). destruct (k a) as [out' o]. simpl in *.
  by apply Forall_app.
Qed.

Lemma lines_plift {A} (P : string → Prop) (m : result A) :
  Forall P (fst (plift m)).
Proof. destruct m; constructor. Qed.

Lemma lines_pfor {A S} (P : string → Prop) (body : A → S → printing S) l s :
  (∀ x out s', x ∈ l → body x s = (out, Returned s') → s' = s) →
  (∀ x, x ∈ l → Forall P (fst (body x s))) →
  Forall P (fst (pfor body l s)).
Proof.
  induction l as [|x l IH]; intros Hst Hb; simpl; [constructor|].
  apply lines_pbind; [apply Hb; left|].
  intros out s' Hx. apply Hst in Hx as ->; [|left].
  apply IH; intros; [eapply Hst|apply Hb]; by try right.
Qed.

Lemma print_stacks_lines fuel :
  ∀ fs self stack count cost,
    NoDup stack →
    Forall (λ line, ∃ path v,
              call_path fs self path ∧ NoDup (stack ++ path)
              ∧ line = stack_line (stack ++ path) v)
      (fst (Function.print_stacks fuel fs self stack count cost)).
Proof.
  induction fuel as [|fuel IH]; intros fs self stack count cost Hnd;
    [constructor|].
  rewrite print_stacks_S. unfold_monad.
  apply lines_pbind; [apply lines_plift|].
  intros ? me [Hme%deref_Ok _]%plift_Returned. cbv zeta.
  case_bool_decide as Hin; [constructor|].
  assert (NoDup (stack ++ [Function.str me])) as Hnd'.
  { apply NoDup_app. split; [done|]. split; [|apply NoDup_singleton].
    by intros x Hx ->%list_elem_of_singleton. }
  assert (∀ v, ∃ path v0,
            call_path fs self path ∧ NoDup (stack ++ path)
            ∧ stack_line (stack ++ [Function.str me]) v
              = stack_line (stack ++ path) v0) as Hown.
  { intros v. exists [Function.str me], v. split; [by constructor|done]. }
  apply lines_pbind; [|constructor].
  destruct (0 <? _).
  - apply lines_pbind; [apply lines_plift|]. intros ? scale _.
    apply lines_pbind; [apply lines_plift|]. intros ? v _.
    apply lines_pbind; [repeat constructor; apply Hown|]. intros ? [] _.
    apply lines_pfor.
    + intros f out' s' _ Hb.
      apply pbind_Returned in Hb as (? & fe & ? & _ & Hb & _).
      apply pbind_Returned in Hb as (? & cc & ? & _ & Hb & _).
      apply pbind_Returned in Hb as (? & cn & ? & _ & Hb & _).
      apply pbind_Returned in Hb as (? & c & ? & _ & Hb & _).
      by eapply print_stacks_returns_stack.
    + intros f Hf.
      apply lines_pbind; [apply lines_plift|]. intros ? fe _.
      apply lines_pbind; [apply lines_plift|]. intros ? cc _.
      apply lines_pbind; [apply lines_plift|]. intros ? cn _.
      apply lines_pbind; [apply lines_plift|]. intros ? c _.
      eapply Forall_impl; [by apply IH|]. simpl.
      intros line (path & v0 & Hpath & Hnp & ->).
      exists (Function.str me :: path), v0.
      rewrite <-app_assoc in Hnp. rewrite <-app_assoc.
      split; [by econstructor|done].
  - apply lines_pbind; [repeat constructor; apply Hown|]. intros ? [] _.
    constructor.
Qed.

(** X12. Every line that [print_stacks] prints is the stack it was given,
    followed by a path of calls that starts at its own object, joined by
    semicolons, then a space and a number; and no frame occurs twice in the
    line, so a recursive call never shows. This holds for the lines printed
    before an exception as well. *)
Theorem printed_stacks_are_call_paths fuel fs self stack count cost line :
  NoDup stack →
  line ∈ fst (Function.print_stacks fuel fs self stack count cost) →
  ∃ path v,
    call_path fs self path ∧ NoDup (stack ++ path)
    ∧ line = stack_line (stack ++ path) v.
Proof.
  intros Hnd Hline.
  pose proof (print_stacks_lines fuel fs self stack count cost Hnd) as H.
  rewrite Forall_forall in H. by apply H.
Qed.

Lemma printed_stacks_are_call_paths_witness :
  ∃ path v,
    call_path documented_graph "file1.c#func1" path
    ∧ NoDup (["file1.c#main"] ++ path)
    ∧ "file1.c#main;file1.c#func1;file2.c#func2 300"
      = stack_line (["file1.c#main"] ++ path) v.
Proof.
  apply (printed_stacks_are_call_paths 3 documented_graph "file1.c#func1"
           ["file1.c#main"] 1 50).
  - apply NoDup_singleton.
  - vm_compute. right. left.
Defined.

(** X13. Every line of the output of [main] is a path of calls in the graph
    the parser built, from a function no one calls that calls someone, with
    no function twice on it. *)
Theorem main_prints_call_paths queue line :
  line ∈ fst (main queue) →
  ∃ rest g r me path v,
    parse_body (parse_header queue) initial_globals = Ok (rest, g)
    ∧ functions g !! r = Some me ∧ is_root me = true
    ∧ call_path (functions g) r path ∧ NoDup path
    ∧ line = stack_line path v.
Proof.
  assert (Forall (λ line, ∃ rest g r me path v,
                    parse_body (parse_header queue) initial_globals
                    = Ok (rest, g)
                    ∧ functions g !! r = Some me ∧ is_root me = true
                    ∧ call_path (functions g) r path ∧ NoDup path
                    ∧ line = stack_line path v)
            (fst (main queue))) as H.
  { unfold main. unfold_monad.
    apply lines_pbind; [apply lines_plift|].
    intros ? [rest g] [Hparse _]%plift_Returned.
    apply lines_pbind; [|constructor].
    apply lines_pfor; [by intros ??[]|]. intros r _.
    unfold traverse_from. unfold_monad.
    apply lines_pbind; [apply lines_plift|].
    intros ? me [Hme%deref_Ok _]%plift_Returned.
    destruct (is_root me) eqn:Hroot; [|constructor].
    apply lines_pbind; [|constructor].
    eapply Forall_impl; [apply print_stacks_lines, NoDup_nil_2|]. simpl.
    intros l (path & v & Hp & Hnd & ->). by exists rest, g, r, me, path, v. }
  rewrite Forall_forall in H. apply H.
Qed.

Lemma main_prints_call_paths_witness :
  ∃ rest g r me path v,
    parse_body (parse_header documented_input) initial_globals = Ok (rest, g)
    ∧ functions g !! r = Some me ∧ is_root me = true
    ∧ call_path (functions g) r path ∧ NoDup path
    ∧ "file1.c#main;file2.c#func2 400" = stack_line path v.
Proof.
  apply (main_prints_call_paths documented_input).
  rewrite documented_output. right. right. right. left.
Defined.

(** ** A profile without calls *)

Lemma lines_none {A} (m : printing A) :
  Forall (λ _, False) (fst m) → fst m = [].
Proof. destruct (fst m); [done|]. by intros [[] _]%Forall_cons. Qed.

Lemma no_callees_lookup_f a b c g r g' :
  no_callees (functions g) → lookup_f a b c g = Ok (r, g') →
  no_callees (functions g').
Proof.
  intros Hno (o & f & n & _ & _ & _ & -> & -> & _)%lookup_f_Ok.
  destruct (functions g !! _) eqn:Hr; [done|].
  intros r0 f0 [[_ <-]|[_ ?]]%lookup_insert_Some; [done|by eapply Hno].
Qed.

Lemma no_callees_cost st param g g' :
  no_callees (functions g) → cost st param g = Ok (tt, g') →
  no_callees (functions g').
Proof.
  intros Hno (s_ob & s_fl & s_fn & r & gm & field & n & me & _ & _ & _
              & Hf & _ & _ & Hme & ->)%cost_Ok.
  apply no_callees_lookup_f in Hf; [|done].
  intros r0 f0 [[_ <-]|[_ ?]]%lookup_insert_Some; [|by eapply Hf].
  simpl. by eapply Hf.
Qed.

Lemma parse_body_line_no_calls raw c g t g' :
  directive_key raw ≠ Some "calls" →
  in_call c = false → no_callees (functions g) →
  parse_body_line raw c g = Ok (t, g') →
  no_callees (functions g')
  ∧ match t with Consumed c' => in_call c' = false | EndOfBody => True end.
Proof.
  intros Hk Hc Hno. unfold parse_body_line, directive_key in *.
  unfold mret, run_ret.
  destruct (Str.startswith "#" (Str.strip raw)); [by intros [= <- <-]|].
  destruct (String.length (Str.strip raw) =? 0)%nat; [by intros [= <- <-]|].
  destruct (Re.directive (Str.strip raw)) as [[key value]|].
  - simpl in Hk.
    intros ([] & g1 & H1 & H)%run_bind_Ok.
    assert (functions g1 = functions g) as Hg1.
    { destruct (_ || _).
      - apply run_bind_Ok in H1 as (? & ? & ?%lookup_fl_functions & [= <-]).
        done.
      - by injection H1 as <-. }
    destruct (String.eqb (alias key) "calls") eqn:Hcalls.
    { apply String.eqb_eq in Hcalls. congruence. }
    injection H as <- <-. by rewrite Hg1.
  - destruct (Re.cost_line (Str.strip raw)); [|by intros [= <- <-]].
    rewrite Hc. intros ([] & g1 & H1 & [= <- <-])%run_bind_Ok.
    split; [|done]. by eapply no_callees_cost.
Qed.

Lemma parse_body_loop_no_calls queue :
  ∀ c g rest g',
    Forall (λ raw, directive_key raw ≠ Some "calls") queue →
    in_call c = false → no_callees (functions g) →
    parse_body_loop queue c g = Ok (rest, g') →
    no_callees (functions g').
Proof.
  induction queue as [|raw queue IH]; intros c g rest g' Hq Hc Hno; simpl;
    unfold mret, run_ret.
  - by intros [= _ <-].
  - apply Forall_cons in Hq as [Hraw Hq].
    intros (t & g1 & H1 & H)%run_bind_Ok.
    apply parse_body_line_no_calls in H1 as [Hno1 Hc1]; [|done..].
    destruct t as [c1|]; [by eapply IH|]. by injection H as _ <-.
Qed.

(** X14. A profile with no [calls] line prints nothing, whatever costs it
    gives: a function is printed only on a path from a function that calls
    someone. *)
Theorem no_calls_no_output queue :
  Forall (λ raw, directive_key raw ≠ Some "calls") queue →
  fst (main queue) = [].
Proof.
  intros Hq. apply lines_none. unfold main. unfold_monad.
  apply lines_pbind; [apply lines_plift|].
  intros ? [rest g] [Hparse _]%plift_Returned.
  apply parse_body_loop_no_calls in Hparse; [|
    |done|by intros ?? [=]].
  - apply lines_pbind; [|constructor].
    apply lines_pfor; [by intros ??[]|]. intros r _.
    unfold traverse_from. unfold_monad.
    apply lines_pbind; [apply lines_plift|].
    intros ? me [Hme%deref_Ok _]%plift_Returned.
    unfold is_root. rewrite (Hparse _ _ Hme). simpl.
    rewrite andb_false_r. constructor.
  - destruct (parse_header_suffix queue) as [skipped Hs].
    rewrite Hs in Hq. by apply Forall_app in Hq as [_ ?].
Qed.

Lemma no_calls_no_output_witness :
  fst (main ["events: Ir"; "fl=a.c"; "fn=main"; "1 20"; "fn=f"; "2 30"]) = [].
Proof.
  apply no_calls_no_output.
  repeat (apply Forall_cons; split; [by vm_compute|]). apply Forall_nil_2.
Defined.

(** ** Callees are objects of the graph *)

Lemma lookup_update_key (fs : Function.heap) r f f' c ce :
  fs !! r = Some f → Function.key f' = Function.key f → fs !! c = Some ce →
  ∃ ce', <[r := f']> fs !! c = Some ce' ∧ Function.key ce' = Function.key ce.
Proof.
  intros Hf Hk Hc. destruct (decide (r = c)) as [<-|Hne].
  - rewrite lookup_insert_eq. exists f'. split; [done|]. congruence.
  - rewrite lookup_insert_ne by done. by exists ce.
Qed.

Lemma linked_update fs r f f' :
  linked fs → fs !! r = Some f →
  Function.key f' = Function.key f →
  Function.calls f' = Function.calls f →
  Function.callfunctions f' = Function.callfunctions f →
  linked (<[r := f']> fs).
Proof.
  intros Hl Hf Hk Hc Hcf r0 me c Hme Hin.
  apply lookup_insert_Some in Hme as [[<- <-]|[Hne Hme]].
  - rewrite Hc in Hin. destruct (Hl _ _ _ Hf Hin) as (ce & Hce & Hkey).
    destruct (lookup_update_key fs r f f' c ce) as (ce' & ? & Hk'); [done..|].
    exists ce'. split; [done|]. by rewrite Hk', Hcf.
  - destruct (Hl _ _ _ Hme Hin) as (ce & Hce & Hkey).
    destruct (lookup_update_key fs r f f' c ce) as (ce' & ? & Hk'); [done..|].
    exists ce'. split; [done|]. by rewrite Hk'.
Qed.

Lemma linked_with_callee fs self me callee ce :
  linked fs → fs !! self = Some me → fs !! callee = Some ce →
  linked (<[self := Function.with_callee callee (Function.key ce) me]> fs).
Proof.
  intros Hl Hme Hce r0 f c Hf Hin.
  assert (∀ c0 ce0, fs !! c0 = Some ce0 →
            ∃ ce',
              <[self := Function.with_callee callee (Function.key ce) me]> fs
              !! c0 = Some ce'
              ∧ Function.key ce' = Function.key ce0) as Hup.
  { intros c0 ce0. by apply (lookup_update_key fs self me). }
  apply lookup_insert_Some in Hf as [[<- <-]|[Hne Hf]].
  - simpl in *. apply elem_of_app in Hin as [Hin| ->%list_elem_of_singleton].
    + destruct (Hl _ _ _ Hme Hin) as (ce0 & Hce0 & Hkey).
      destruct (Hup _ _ Hce0) as (ce' & ? & Hk'). exists ce'.
      split; [done|]. rewrite Hk'. set_solver.
    + destruct (Hup _ _ Hce) as (ce' & ? & Hk'). exists ce'.
      split; [done|]. rewrite Hk'. set_solver.
  - destruct (Hl _ _ _ Hf Hin) as (ce0 & Hce0 & Hkey).
    destruct (Hup _ _ Hce0) as (ce' & ? & Hk'). exists ce'.
    split; [done|]. by rewrite Hk'.
Qed.

Lemma linked_construct op fs fs' :
  linked fs → construct op fs = Ok fs' → linked fs'.
Proof.
  intros Hl. destruct op as [o f n|self callee count|self callee c|self c];
    simpl.
  - intros [= <-]. case_bool_decide as Hs; [done|].
    apply eq_None_not_Some in Hs.
    intros r0 me c0 [[<- <-]|[Hne Hme]]%lookup_insert_Some Hin.
    { by apply elem_of_nil in Hin. }
    destruct (Hl _ _ _ Hme Hin) as (ce & Hce & Hkey). exists ce.
    split; [|done]. rewrite lookup_insert_ne; [done|]. congruence.
  - unfold Function.add_call. unfold_monad.
    intros (me & Hme%deref_Ok & H)%rbind_Ok.
    apply rbind_Ok in H as (ce & Hce%deref_Ok & H). cbv zeta in H.
    set (me1 := if bool_decide _ then me else _) in H.
    assert (linked (<[self := me1]> fs)) as Hl1.
    { unfold me1. case_bool_decide.
      - by apply (linked_update fs self me me).
      - by apply linked_with_callee. }
    destruct (Function.eq me1 ce); [by injection H as <-|].
    apply rbind_Ok in H as (x & _ & H).
    apply rbind_Ok in H as (n & _ & H).
    apply rbind_Ok in H as (ce' & Hce'%deref_Ok & [= <-]).
    eapply linked_update; [|exact Hce'|done..].
    eapply linked_update; [exact Hl1|apply lookup_insert_eq|done..].
  - unfold Function.add_callcost. unfold_monad.
    intros (me & Hme%deref_Ok & H)%rbind_Ok.
    apply rbind_Ok in H as (ce & Hce%deref_Ok & H).
    destruct (Function.eq me ce); [by injection H as <-|].
    destruct (last (Function.calls me)) as [l|]; [|done].
    apply rbind_Ok in H as (le & _ & H).
    apply rbind_Ok in H as (x & _ & H).
    apply rbind_Ok in H as (ce' & Hce'%deref_Ok & [= <-]).
    eapply linked_update; [|exact Hce'|done..].
    by eapply linked_update.
  - unfold Function.add_cost. unfold_monad.
    intros (me & Hme%deref_Ok & [= <-])%rbind_Ok.
    by eapply linked_update.
Qed.

(** ** Floats: what can go wrong *)

Lemma shr_1_nonneg mrs : 0 ≤ shr_m mrs → 0 ≤ shr_m (shr_1 mrs).
Proof. destruct mrs as [[|[p|p|]|[p|p|]] r s]; simpl; lia. Qed.

Lemma iter_shr_1_nonneg p :
  ∀ mrs, 0 ≤ shr_m mrs → 0 ≤ shr_m (SpecFloat.iter_pos shr_1 p mrs).
Proof.
  induction p as [p IH|p IH|]; intros mrs H; simpl.
  - by apply IH, IH, shr_1_nonneg.
  - by apply IH, IH.
  - by apply shr_1_nonneg.
Qed.

Lemma shr_fexp_nonneg m e l :
  0 ≤ m → 0 ≤ shr_m (fst (shr_fexp Float.prec Float.emax m e l)).
Proof.
  intros Hm. unfold shr_fexp, shr.
  assert (0 ≤ shr_m (shr_record_of_loc m l)) as H
    by (by destruct l as [|[]]).
  destruct (_ - e); simpl; [done| |done]. by apply iter_shr_1_nonneg.
Qed.

Lemma binary_round_aux_not_nan s m e l :
  0 ≤ m → binary_round_aux Float.prec Float.emax s m e l ≠ S754_nan.
Proof.
  intros Hm. unfold binary_round_aux.
  pose proof (shr_fexp_nonneg m e l Hm) as H1.
  destruct (shr_fexp _ _ m e l) as [mrs1 e1]. simpl in H1.
  assert (0 ≤ round_nearest_even (shr_m mrs1) (loc_of_shr_record mrs1)) as H2.
  { unfold round_nearest_even.
    destruct (loc_of_shr_record mrs1) as [|[]]; try done; [|lia].
    destruct (Z.even _); lia. }
  pose proof (shr_fexp_nonneg _ e1 loc_Exact H2) as H3.
  destruct (shr_fexp _ _ _ e1 loc_Exact) as [mrs2 e2]. simpl in H3.
  destruct (shr_m mrs2); [done| |lia]. by destruct (_ <=? _).
Qed.

Lemma finite_or_overflow_Ok x y :
  Float.finite_or_overflow x = Ok y → is_finite y.
Proof. destruct x; simpl; [|done..|]; by intros [= <-]. Qed.

Lemma finite_or_overflow_Raise x e :
  Float.finite_or_overflow x = Raise e → e = OverflowError.
Proof. destruct x; simpl; try done; by intros [= <-]. Qed.

Lemma scale_of_Ok me count scale :
  Function.scale_of me count = Ok scale → is_finite scale.
Proof.
  unfold Function.scale_of, Float.int_truediv.
  destruct (0 <? _); [|by intros [= <-]].
  destruct (count <=? _); [|done]. destruct (_ =? 0); [done|].
  apply finite_or_overflow_Ok.
Qed.

Lemma scale_of_Raise me count e :
  Function.scale_of me count = Raise e → walk_error e.
Proof.
  unfold Function.scale_of, Float.int_truediv.
  destruct (0 <? Function.total_call_count me) eqn:Ht; [|done].
  destruct (count <=? _); [|intros [= <-]; by left].
  destruct (Function.total_call_count me =? 0) eqn:H0; [lia|].
  intros ->%finite_or_overflow_Raise. by right.
Qed.

Lemma scaled_Raise scale x e :
  is_finite scale → Function.scaled scale x = Raise e → e = OverflowError.
Proof.
  intros Hs. unfold Function.scaled, Float.mul_int, Float.of_int.
  unfold_monad. unfold rbind.
  destruct (Float.finite_or_overflow (binary_normalize _ _ x 0 false))
    as [y|e'] eqn:Hy; [|intros [= <-]; by eapply finite_or_overflow_Raise].
  apply finite_or_overflow_Ok in Hy. simpl.
  destruct scale as [s| | |s m ex]; [|done..|];
    destruct y as [s'| | |s' m' ex']; try done.
  unfold SFmul, Float.round.
  pose proof (binary_round_aux_not_nan (xorb s s') (Z.pos (m * m')) (ex + ex')
                loc_Exact ltac:(lia)) as Hn.
  destruct (binary_round_aux _ _ _ _ _ _); try done. by intros [= <-].
Qed.

(** ** How the walk can fail *)

Lemma getitem_registered_Raise (d : gmap Function.ident Z) k e :
  k ∈ dom d → Str.getitem d k ≠ Raise e.
Proof.
  intros [x Hx]%elem_of_dom. unfold Str.getitem. by rewrite Hx.
Qed.

Lemma print_stacks_failures fs fuel :
  linked fs → all_registered fs →
  ∀ self stack count cost f,
    is_Some (fs !! self) →
    failure_of (Function.print_stacks fuel fs self stack count cost) = Some f →
    f = Diverges ∨ ∃ e, f = Fails e ∧ walk_error e.
Proof.
  intros Hl Hreg.
  induction fuel as [|fuel IH]; intros self stack count cost f [me Hfs].
  { intros [= <-]. by left. }
  rewrite print_stacks_S. rewrite (deref_Some _ _ _ Hfs).
  unfold_monad. rewrite pbind_plift_Ok. cbv zeta.
  case_bool_decide as Hin; [done|].
  intros [H|(? & ? & _ & [=])]%failure_of_pbind.
  destruct (0 <? _).
  - apply failure_of_pbind in H
      as [(e & He & ->)%failure_of_plift
         |(? & scale & [Hscale%scale_of_Ok _]%plift_Returned & H)].
    { right. exists e. split; [done|]. by eapply scale_of_Raise. }
    apply failure_of_pbind in H
      as [(e & He & ->)%failure_of_plift|(? & v & _ & H)].
    { right. exists e. split; [done|]. right. by eapply scaled_Raise. }
    apply failure_of_pbind in H as [[=]|(? & [] & _ & H)].
    apply failure_of_pfor in H as (c & Hc & H).
    + destruct (Hl _ _ _ Hfs Hc) as (ce & Hce & Hkey).
      destruct (Hreg _ _ Hfs) as [Hcosts Hcounts].
      rewrite (deref_Some _ _ _ Hce) in H.
      rewrite pbind_plift_Ok in H.
      apply failure_of_pbind in H
        as [(e & He & _)%failure_of_plift|(? & cc & _ & H)].
      { apply getitem_registered_Raise in He; [done|by rewrite Hcosts]. }
      apply failure_of_pbind in H
        as [(e & He & _)%failure_of_plift|(? & cn & _ & H)].
      { apply getitem_registered_Raise in He; [done|by rewrite Hcounts]. }
      apply failure_of_pbind in H
        as [(e & He & ->)%failure_of_plift|(? & sc & _ & H)].
      { right. exists e. split; [done|]. right. by eapply scaled_Raise. }
      revert H. apply IH. eauto.
    + intros c out' s' _ Hb.
      apply pbind_Returned in Hb as (? & fe & ? & _ & Hb & _).
      apply pbind_Returned in Hb as (? & cc & ? & _ & Hb & _).
      apply pbind_Returned in Hb as (? & cn & ? & _ & Hb & _).
      apply pbind_Returned in Hb as (? & sc & ? & _ & Hb & _).
      by eapply print_stacks_returns_stack.
  - apply failure_of_pbind in H as [[=]|(? & [] & _ & [=])].
Qed.

Lemma linked_construct_all ops :
  ∀ fs fs', linked fs → construct_all ops fs = Ok fs' → linked fs'.
Proof.
  induction ops as [|op ops IH]; intros fs fs' Hl; simpl.
  - by intros [= <-].
  - unfold_monad. intros (fs1 & H1 & H)%rbind_Ok.
    eapply IH; [|done]. by eapply linked_construct.
Qed.

Lemma linked_empty : linked ∅.
Proof. intros r me c Hr. by rewrite lookup_empty in Hr. Qed.

Lemma all_registered_empty : all_registered ∅.
Proof. intros r me Hr. by rewrite lookup_empty in Hr. Qed.

(** ** How the parser can fail *)

Lemma lookup_f_grows a b c g r g' :
  lookup_f a b c g = Ok (r, g') →
  functions g ⊆ functions g' ∧ is_Some (functions g' !! r).
Proof.
  intros (o & f & n & _ & _ & _ & -> & -> & _)%lookup_f_Ok.
  destruct (functions g !! _) eqn:Hr.
  - split; [done|eauto].
  - split; [by apply insert_subseteq|]. rewrite lookup_insert_eq. eauto.
Qed.

Lemma linked_lookup_f a b c g r g' :
  linked (functions g) → lookup_f a b c g = Ok (r, g') →
  linked (functions g').
Proof.
  intros Hl (o & f & n & H)%lookup_f_constructs.
  by eapply linked_construct.
Qed.

Lemma deref_Raise (fs : Function.heap) r e :
  is_Some (fs !! r) → Function.deref fs r ≠ Raise e.
Proof. intros [f Hf]. by rewrite (deref_Some _ _ _ Hf). Qed.

Lemma rbind_Raise {A B} (m : result A) (k : A → result B) e :
  rbind m k = Raise e → m = Raise e ∨ ∃ a, m = Ok a ∧ k a = Raise e.
Proof. destruct m as [a|e']; simpl; [eauto|]. intros [= <-]. by left. Qed.

Lemma getitem_Raise (d : gmap Function.ident Z) k e :
  Str.getitem d k = Raise e → e = KeyError.
Proof. unfold Str.getitem. destruct (d !! k); [done|]. by intros [= <-]. Qed.

Lemma add_call_Raise self callee count fs e :
  is_Some (fs !! self) → is_Some (fs !! callee) →
  Function.add_call self callee count fs = Raise e → e = KeyError.
Proof.
  intros Hs Hc. unfold Function.add_call. unfold_monad.
  intros [H|(me & _ & H)]%rbind_Raise; [by apply deref_Raise in H|].
  apply rbind_Raise in H as [H|(ce & _ & H)]; [by apply deref_Raise in H|].
  cbv zeta in H. destruct (Function.eq _ ce); [done|].
  apply rbind_Raise in H as [H|(x & _ & H)]; [by eapply getitem_Raise|].
  apply rbind_Raise in H as [H|(n & _ & H)]; [by eapply getitem_Raise|].
  apply rbind_Raise in H as [H|(? & _ & [=])].
  apply deref_Raise in H; [done|].
  rewrite !lookup_insert_is_Some'. auto.
Qed.

Lemma add_callcost_Raise self callee c fs e :
  linked fs → is_Some (fs !! self) → is_Some (fs !! callee) →
  Function.add_callcost self callee c fs = Raise e →
  e = KeyError ∨ e = IndexError.
Proof.
  intros Hl Hs Hc. unfold Function.add_callcost. unfold_monad.
  intros [H|(me & Hme%deref_Ok & H)]%rbind_Raise;
    [by apply deref_Raise in H|].
  apply rbind_Raise in H as [H|(ce & _ & H)]; [by apply deref_Raise in H|].
  destruct (Function.eq me ce); [done|].
  destruct (last (Function.calls me)) as [l|] eqn:Hlast;
    [|injection H as <-; by right].
  apply rbind_Raise in H as [H|(le & _ & H)].
  { apply deref_Raise in H; [done|].
    apply last_Some in Hlast as [l' Hl'].
    destruct (Hl self me l Hme) as (x & Hx & _); [|eauto].
    rewrite Hl'. apply elem_of_app. right. by apply list_elem_of_singleton. }
  apply rbind_Raise in H as [H|(x & _ & H)];
    [left; by eapply getitem_Raise|].
  apply rbind_Raise in H as [H|(? & _ & [=])].
  apply deref_Raise in H; [done|].
  rewrite lookup_insert_is_Some'. auto.
Qed.

Lemma add_cost_Raise self c fs e :
  is_Some (fs !! self) → Function.add_cost self c fs ≠ Raise e.
Proof.
  intros Hs. unfold Function.add_cost. unfold_monad.
  intros [H|(? & _ & [=])]%rbind_Raise. by apply deref_Raise in H.
Qed.

Lemma on_functions_Raise f g e :
  on_functions f g = Raise e → f (functions g) = Raise e.
Proof.
  unfold on_functions. unfold_monad. unfold rbind.
  destruct (f (functions g)); [done|]. by intros [= <-].
Qed.

Lemma lift_Raise {A} (m : result A) g e : lift m g = Raise e → m = Raise e.
Proof. unfold lift. destruct m; [done|]. by intros [= <-]. Qed.

Lemma index_Raise {A} (l : list A) i e :
  Str.index l i = Raise e → e = IndexError.
Proof. unfold Str.index. destruct (l !! i); [done|]. by intros [= <-]. Qed.

Lemma int_Raise s e : Str.int s = Raise e → e = ValueError.
Proof.
  unfold Str.int. destruct (Str.strip s) as [|c r]; simpl;
    [by intros [= <-]|].
  repeat case_match; (done || by intros [= <-]).
Qed.

Ltac parse_error_step H :=
  first
    [ apply run_bind_Raise in H
        as [->%state_get_Raise|(? & ? & [_ ->]%state_get_Ok & H)];
      [by left|]
    | apply run_bind_Raise in H
        as [?%lookup_f_Raise|(? & ? & ? & H)]; [by right; right; right|]
    | apply run_bind_Raise in H
        as [->%lift_Raise%index_Raise|(? & ? & [_ ->]%lift_Ok & H)];
      [by right; left|]
    | apply run_bind_Raise in H
        as [->%lift_Raise%int_Raise|(? & ? & [_ ->]%lift_Ok & H)];
      [by right; right; left|] ].

Lemma calls_Raise st param g e :
  calls st param g = Raise e → parse_error e.
Proof.
  unfold calls, parse_error. intros H.
  do 3 parse_error_step H.
  apply run_bind_Raise in H as [?%lookup_f_Raise|(a & ga & Ha & H)];
    [by right; right; right|].
  do 3 parse_error_step H.
  apply run_bind_Raise in H as [?%lookup_f_Raise|(b & gb & Hb & H)];
    [by right; right; right|].
  do 2 parse_error_step H.
  apply on_functions_Raise, add_call_Raise in H as ->; [by left| |].
  - apply lookup_f_grows in Ha as [_ [fa Hfa]].
    apply lookup_f_grows in Hb as [Hsub _].
    exists fa. by eapply lookup_weaken.
  - by apply lookup_f_grows in Hb as [_ ?].
Qed.

Lemma callcost_Raise st param g e :
  linked (functions g) → callcost st param g = Raise e → parse_error e.
Proof.
  unfold callcost, parse_error. intros Hl H.
  do 3 parse_error_step H.
  apply run_bind_Raise in H as [?%lookup_f_Raise|(a & ga & Ha & H)];
    [by right; right; right|].
  do 3 parse_error_step H.
  apply run_bind_Raise in H as [?%lookup_f_Raise|(b & gb & Hb & H)];
    [by right; right; right|].
  do 2 parse_error_step H.
  apply on_functions_Raise, add_callcost_Raise in H as [-> | ->]; auto.
  - eapply linked_lookup_f; [|exact Hb]. by eapply linked_lookup_f.
  - apply lookup_f_grows in Ha as [_ [fa Hfa]].
    apply lookup_f_grows in Hb as [Hsub _].
    exists fa. by eapply lookup_weaken.
  - by apply lookup_f_grows in Hb as [_ ?].
Qed.

Lemma cost_Raise st param g e :
  cost st param g = Raise e → parse_error e.
Proof.
  unfold cost, parse_error. intros H.
  do 3 parse_error_step H.
  apply run_bind_Raise in H as [?%lookup_f_Raise|(a & ga & Ha & H)];
    [by right; right; right|].
  do 2 parse_error_step H.
  apply on_functions_Raise, add_cost_Raise in H; [done|].
  by apply lookup_f_grows in Ha as [_ ?].
Qed.

Lemma linked_method op g u g' :
  is_method op → linked (functions g) →
  on_functions (construct op) g = Ok (u, g') → linked (functions g').
Proof.
  intros _ Hl (fs & Hfs & ->)%on_functions_Ok. by eapply linked_construct.
Qed.

Lemma linked_lookup_fl v g x g' :
  linked (functions g) → lookup_fl v g = Ok (x, g') → linked (functions g').
Proof. by intros Hl ->%lookup_fl_functions. Qed.

Lemma parse_body_line_Raise raw c g e :
  linked (functions g) → parse_body_line raw c g = Raise e → parse_error e.
Proof.
  intros Hl. unfold parse_body_line. unfold mret, run_ret.
  destruct (Str.startswith "#" (Str.strip raw)); [done|].
  destruct (String.length (Str.strip raw) =? 0)%nat; [done|].
  destruct (Re.directive (Str.strip raw)) as [[key value]|].
  - intros [H|([] & g1 & H1 & H)]%run_bind_Raise.
    { destruct (_ || _); [|done].
      apply run_bind_Raise in H as [H|(? & ? & _ & [=])].
      unfold lookup_fl in H. unfold_monad. unfold rbind in H.
      destruct (lookup (fl g) value) as [[? ?]|e'] eqn:Hlk; [done|].
      injection H as <-. apply lookup_Raise in Hlk. by right; right; right. }
    destruct (String.eqb (alias key) "calls"); [|done].
    apply run_bind_Raise in H as [H|(? & ? & _ & [=])].
    by eapply calls_Raise.
  - destruct (Re.cost_line (Str.strip raw)); [|done].
    destruct (in_call c).
    + intros [H|(? & ? & _ & [=])]%run_bind_Raise. by eapply callcost_Raise.
    + intros [H|(? & ? & _ & [=])]%run_bind_Raise. by eapply cost_Raise.
Qed.

Lemma parse_body_loop_Raise queue :
  ∀ c g e,
    linked (functions g) → parse_body_loop queue c g = Raise e →
    parse_error e.
Proof.
  induction queue as [|raw queue IH]; intros c g e Hl; simpl; [done|].
  intros [H|(t & g1 & H1 & H)]%run_bind_Raise.
  - by eapply parse_body_line_Raise.
  - destruct t as [c1|]; [|done]. eapply IH; [|exact H].
    eapply (parse_body_line_invariant (λ g, linked (functions g)));
      [apply linked_lookup_f|apply linked_lookup_fl|apply linked_method
      |exact Hl|exact H1].
Qed.

(** ** The graph the parser hands to the walk *)

Lemma keys_listed_lookup_fl v g x g' :
  keys_listed g → lookup_fl v g = Ok (x, g') → keys_listed g'.
Proof.
  intros [Hnd Hk]. unfold lookup_fl. unfold_monad.
  intros ([? ?] & _ & [= _ <-])%rbind_Ok. by split.
Qed.

Lemma keys_listed_method op g u g' :
  is_method op → keys_listed g →
  on_functions (construct op) g = Ok (u, g') → keys_listed g'.
Proof.
  intros Hop [Hnd Hk] (fs & Hfs%(method_dom _ _ _ Hop) & ->)%on_functions_Ok.
  split; [done|]. simpl. intros k. rewrite Hk.
  by rewrite <-!elem_of_dom, Hfs.
Qed.

Lemma all_registered_lookup_f a b c g r g' :
  all_registered (functions g) → lookup_f a b c g = Ok (r, g') →
  all_registered (functions g').
Proof.
  intros Hreg (o & f & n & H)%lookup_f_constructs.
  by eapply all_registered_construct.
Qed.

Lemma all_registered_method op g u g' :
  is_method op → all_registered (functions g) →
  on_functions (construct op) g = Ok (u, g') → all_registered (functions g').
Proof.
  intros _ Hl (fs & Hfs & ->)%on_functions_Ok.
  by eapply all_registered_construct.
Qed.

Lemma parse_body_graph queue rest g :
  parse_body queue initial_globals = Ok (rest, g) →
  linked (functions g) ∧ all_registered (functions g) ∧ keys_listed g.
Proof.
  intros H. split; [|split].
  - revert H. apply (parse_body_loop_invariant (λ g, linked (functions g)));
      [apply linked_lookup_f|apply linked_lookup_fl|apply linked_method
      |apply linked_empty].
  - revert H.
    apply (parse_body_loop_invariant (λ g, all_registered (functions g)));
      [apply all_registered_lookup_f| |apply all_registered_method
      |apply all_registered_empty].
    by intros v g0 x g1 Hreg ->%lookup_fl_functions.
  - revert H. apply (parse_body_loop_invariant keys_listed);
      [apply keys_listed_lookup_f|apply keys_listed_lookup_fl
      |apply keys_listed_method|].
    split; [apply NoDup_nil_2|]. intros k. simpl.
    rewrite lookup_empty, elem_of_nil. split; [done|by intros [? ?]].
Qed.

(** ** What [main] reads of the queue *)

Lemma head_app_cons {A} (u : list A) a l l' :
  head (u ++ a :: l') = head (u ++ a :: l).
Proof. by destruct u. Qed.

Lemma parse_header_stop queue :
  ∀ rest,
    parse_header queue = rest → rest ≠ [] →
    ∃ used, queue = used ++ rest
      ∧ ∀ rest', head rest' = head rest →
                 parse_header (used ++ rest') = rest'.
Proof.
  induction queue as [|raw queue IH]; intros rest; [by intros <-|].
  rewrite parse_header_cons. destruct (is_header_line raw) eqn:Hraw.
  - intros H Hne. destruct (IH _ H Hne) as (used & -> & Hu).
    exists (raw :: used).
    split; [done|]. intros rest' Hh. simpl app.
    rewrite parse_header_cons, Hraw. by apply Hu.
  - intros <- _. exists []. split; [done|].
    intros [|raw' rest'] [=]. subst raw'. simpl app.
    by rewrite parse_header_cons, Hraw.
Qed.

Lemma parse_body_loop_stop queue :
  ∀ c g rest g',
    parse_body_loop queue c g = Ok (rest, g') → rest ≠ [] →
    ∃ used, queue = used ++ rest
      ∧ ∀ rest', head rest' = head rest →
                 parse_body_loop (used ++ rest') c g = Ok (rest', g').
Proof.
  induction queue as [|raw queue IH]; intros c g rest g'; simpl.
  { unfold mret, run_ret. by intros [= <- _]. }
  unfold mbind, run_bind.
  destruct (parse_body_line raw c g) as [[[c1|] g1]|] eqn:Hline; [| |done].
  - intros H Hne. destruct (IH _ _ _ _ H Hne) as (used & -> & Hu).
    exists (raw :: used).
    split; [done|]. intros rest' Hh. simpl. unfold mbind, run_bind.
    rewrite Hline. by apply Hu.
  - unfold mret, run_ret. intros [= <- <-] _. exists []. split; [done|].
    intros [|raw' rest'] [=]. subst raw'. simpl. unfold mbind, run_bind.
    by rewrite Hline.
Qed.

Lemma pbind_returns_other {A B} (m : printing A) (a b : B) out :
  pbind m (λ _, pret a) = (out, Returned a) →
  pbind m (λ _, pret b) = (out, Returned b).
Proof.
  destruct m as [o [x|e|]]; simpl; [|done..]. by intros [= <-].
Qed.

(** X17. [main] reads one header, one body and one more header, and nothing
    after that: when it leaves a line in the queue, whatever follows that
    line has no effect on the output. A second body after a header line
    such as [totals] is not read. *)
Theorem main_ignores_the_rest queue out bad post :
  main queue = (out, Returned (bad :: post)) →
  ∃ used,
    queue = used ++ bad :: post
    ∧ ∀ post', main (used ++ bad :: post') = (out, Returned (bad :: post')).
Proof.
  unfold main. unfold_monad.
  destruct (parse_body (parse_header queue) initial_globals)
    as [[q2 g]|e] eqn:Hbody; [|done].
  rewrite pbind_plift_Ok.
  set (walk := pfor (λ r _, traverse_from (functions g) r)
                 (functions_keys g) tt).
  intros Hmain.
  assert (parse_header q2 = bad :: post) as H3.
  { destruct walk as [o [[]|?|]]; simpl in Hmain; [|done..].
    by injection Hmain as _ <-. }
  apply parse_header_stop in H3 as (u2 & -> & Hu2); [|done].
  apply parse_body_loop_stop in Hbody as (u1 & H1 & Hu1);
    [|by destruct u2].
  apply parse_header_stop in H1 as (u0 & -> & Hu0); [|by destruct u1, u2].
  exists (u0 ++ u1 ++ u2). split; [by rewrite <-!app_assoc|].
  intros post'. rewrite <-!app_assoc.
  rewrite (Hu0 (u1 ++ u2 ++ bad :: post'));
    [|rewrite !app_assoc; apply head_app_cons].
  unfold parse_body.
  rewrite (Hu1 (u2 ++ bad :: post')) by apply head_app_cons.
  rewrite pbind_plift_Ok. rewrite (Hu2 (bad :: post')) by done.
  fold walk. revert Hmain. rewrite (Hu2 (bad :: post)) by done.
  apply pbind_returns_other.
Qed.

Lemma main_ignores_the_rest_witness :
  ∃ used,
    ["fn=main"; "cfn=f"; "calls=1 2"; "3 4"; "totals: 4"; "fn=g"; "5 6"]
    = used ++ ["fn=g"; "5 6"]
    ∧ ∀ post', main (used ++ "fn=g" :: post')
               = (["???#main 0"; "???#main;???#f 4"],
                  Returned ("fn=g" :: post')).
Proof.
  apply (main_ignores_the_rest
           ["fn=main"; "cfn=f"; "calls=1 2"; "3 4"; "totals: 4"; "fn=g";
            "5 6"]).
  vm_compute. reflexivity.
Defined.

(** ** Calls between two functions *)

Lemma registered_accumulated_costs me k :
  accumulators_registered me →
  (if bool_decide (k ∈ Function.callfunctions me) then me
   else Function.with_callee "" k me).(Function.callcosts) !! k
  = Some (accumulated (Function.callcosts me) k).
Proof.
  intros [Hcosts _]. unfold accumulated. case_bool_decide as Hin; simpl.
  - rewrite <-Hcosts in Hin. apply elem_of_dom in Hin as [x ->]. done.
  - rewrite lookup_insert_eq. rewrite <-Hcosts in Hin.
    apply not_elem_of_dom in Hin as ->. done.
Qed.

Lemma registered_accumulated_counts me k :
  accumulators_registered me →
  (if bool_decide (k ∈ Function.callfunctions me) then me
   else Function.with_callee "" k me).(Function.callcounts) !! k
  = Some (accumulated (Function.callcounts me) k).
Proof.
  intros [_ Hcounts]. unfold accumulated. case_bool_decide as Hin; simpl.
  - rewrite <-Hcounts in Hin. apply elem_of_dom in Hin as [x ->]. done.
  - rewrite lookup_insert_eq. rewrite <-Hcounts in Hin.
    apply not_elem_of_dom in Hin as ->. done.
Qed.

(** X18. A call from one function to another: [add_call] succeeds, lists
    the callee if it was not registered yet, adds the count to the count of
    this edge and to the total of the callee, and changes no other count, no
    cost and no other object. *)
Theorem add_call_between_two_functions fs self callee me ce count :
  fs !! self = Some me → fs !! callee = Some ce →
  accumulators_registered me →
  Function.eq me ce = false →
  ∃ fs1 me1 ce1,
    Function.add_call self callee count fs = Ok fs1
    ∧ fs1 !! self = Some me1 ∧ fs1 !! callee = Some ce1
    ∧ (∀ r, r ≠ self → r ≠ callee → fs1 !! r = fs !! r)
    ∧ Function.calls me1
      = Function.calls me
        ++ (if bool_decide (Function.key ce ∈ Function.callfunctions me)
            then [] else [callee])
    ∧ accumulated (Function.callcounts me1) (Function.key ce)
      = accumulated (Function.callcounts me) (Function.key ce) + count
    ∧ (∀ k, k ≠ Function.key ce →
            accumulated (Function.callcounts me1) k
            = accumulated (Function.callcounts me) k)
    ∧ (∀ k, accumulated (Function.callcosts me1) k
            = accumulated (Function.callcosts me) k)
    ∧ Function.total_call_count ce1 = Function.total_call_count ce + count
    ∧ Function.total_call_cost ce1 = Function.total_call_cost ce
    ∧ Function.cost ce1 = Function.cost ce
    ∧ Function.calls ce1 = Function.calls ce
    ∧ Function.cost me1 = Function.cost me
    ∧ Function.total_call_count me1 = Function.total_call_count me
    ∧ Function.total_call_cost me1 = Function.total_call_cost me.
Proof.
  intros Hme Hce Hreg Heq.
  pose proof (eq_false_refs _ _ _ _ _ Hme Hce (eq_false_key _ _ Heq)) as Hne.
  set (k := Function.key ce).
  set (me1 := if bool_decide (k ∈ Function.callfunctions me) then me
              else Function.with_callee callee k me).
  set (x := accumulated (Function.callcosts me) k).
  set (n := accumulated (Function.callcounts me) k).
  assert (Function.eq me1 ce = false) as Heq1.
  { unfold me1. case_bool_decide; exact Heq. }
  assert (Function.callcosts me1 !! k = Some x) as Hx.
  { pose proof (registered_accumulated_costs me k Hreg) as H.
    unfold me1. by case_bool_decide. }
  assert (Function.callcounts me1 !! k = Some n) as Hn.
  { pose proof (registered_accumulated_counts me k Hreg) as H.
    unfold me1. by case_bool_decide. }
  set (me3 := Function.with_callcounts
                (<[k := n + count]> (Function.callcounts me1))
                (Function.with_callcosts
                   (<[k := x + 0]> (Function.callcosts me1)) me1)).
  set (ce1 := Function.with_total_call_count
                (Function.total_call_count ce + count) ce).
  exists (<[callee := ce1]> (<[self := me3]> (<[self := me1]> fs))), me3, ce1.
  assert (∀ k', accumulated (Function.callcounts me1) k'
                = accumulated (Function.callcounts me) k') as Hcounts1.
  { intros k'. unfold me1. case_bool_decide as Hin; [done|]. simpl.
    apply accumulated_fresh, not_elem_of_dom. by rewrite (proj2 Hreg). }
  assert (∀ k', accumulated (Function.callcosts me1) k'
                = accumulated (Function.callcosts me) k') as Hcosts1.
  { intros k'. unfold me1. case_bool_decide as Hin; [done|]. simpl.
    apply accumulated_fresh, not_elem_of_dom. by rewrite (proj1 Hreg). }
  split.
  { unfold Function.add_call, Function.deref. rewrite Hme, Hce.
    unfold_monad. simpl. fold k. fold me1. rewrite Heq1.
    rewrite (getitem_Some _ _ _ Hx). simpl.
    rewrite (getitem_Some _ _ _ Hn). simpl.
    rewrite !lookup_insert_ne by done. rewrite Hce. simpl.
    by rewrite !insert_insert_eq. }
  rewrite insert_insert_eq.
  split; [by rewrite lookup_insert_ne, lookup_insert_eq|].
  split; [by rewrite lookup_insert_eq|].
  split; [by intros r ??; rewrite !lookup_insert_ne|].
  split.
  { simpl. unfold me1. fold k.
    case_bool_decide; simpl; [by rewrite app_nil_r|done]. }
  split.
  { simpl. unfold accumulated at 1. by rewrite lookup_insert_eq. }
  split.
  { intros k' Hk'. simpl. rewrite <-Hcounts1. unfold accumulated.
    by rewrite lookup_insert_ne. }
  split.
  { intros k'. simpl. rewrite <-Hcosts1. unfold accumulated.
    destruct (decide (k = k')) as [<-|Hk'].
    - rewrite lookup_insert_eq, Hx. simpl. lia.
    - by rewrite lookup_insert_ne. }
  repeat split; simpl; unfold me1; by case_bool_decide.
Qed.

Lemma shared_callee_registered : all_registered shared_callee_graph.
Proof.
  intros r f. apply (constructed_registered shared_callee_steps).
  vm_compute. reflexivity.
Qed.

Lemma add_call_between_two_functions_witness :
  ∃ fs1 me1 ce1,
    Function.add_call "a.c#main" "a.c#f" 4 shared_callee_graph = Ok fs1
    ∧ fs1 !! "a.c#main" = Some me1 ∧ fs1 !! "a.c#f" = Some ce1
    ∧ Function.calls me1 = ["a.c#f"; "a.c#g"]
    ∧ accumulated (Function.callcounts me1) (Function.key shared_f) = 5
    ∧ Function.total_call_count ce1 = 5.
Proof.
  destruct (add_call_between_two_functions shared_callee_graph
              "a.c#main" "a.c#f" shared_main shared_f 4)
    as (fs1 & me1 & ce1 & H1 & H2 & H3 & _ & H4 & H5 & _ & _ & H6 & _).
  - vm_compute. reflexivity.
  - vm_compute. reflexivity.
  - apply (shared_callee_registered "a.c#main"). vm_compute. reflexivity.
  - vm_compute. reflexivity.
  - exists fs1, me1, ce1.
    split; [exact H1|]. split; [exact H2|]. split; [exact H3|].
    split; [rewrite H4; vm_compute; reflexivity|].
    split; [rewrite H5; vm_compute; reflexivity|].
    rewrite H6. vm_compute. reflexivity.
Defined.

(** X19. [add_callcost] between two functions adds the cost to the edge of
    the callee that was listed last, which need not be the callee it is
    given, and to the total of the callee it is given. No count and no other
    edge changes. *)
Theorem add_callcost_books_on_last_callee fs self callee me ce l le c :
  fs !! self = Some me → fs !! callee = Some ce →
  accumulators_registered me →
  Function.eq me ce = false →
  last (Function.calls me) = Some l → fs !! l = Some le →
  Function.key le ∈ Function.callfunctions me →
  ∃ fs1 me1 ce1,
    Function.add_callcost self callee c fs = Ok fs1
    ∧ fs1 !! self = Some me1 ∧ fs1 !! callee = Some ce1
    ∧ (∀ r, r ≠ self → r ≠ callee → fs1 !! r = fs !! r)
    ∧ accumulated (Function.callcosts me1) (Function.key le)
      = accumulated (Function.callcosts me) (Function.key le) + c
    ∧ (∀ k, k ≠ Function.key le →
            accumulated (Function.callcosts me1) k
            = accumulated (Function.callcosts me) k)
    ∧ Function.callcounts me1 = Function.callcounts me
    ∧ Function.calls me1 = Function.calls me
    ∧ Function.cost me1 = Function.cost me
    ∧ Function.total_call_cost ce1 = Function.total_call_cost ce + c
    ∧ Function.total_call_count ce1 = Function.total_call_count ce
    ∧ Function.cost ce1 = Function.cost ce.
Proof.
  intros Hme Hce [Hcosts Hcounts] Heq Hlast Hle Hin.
  pose proof (eq_false_refs _ _ _ _ _ Hme Hce (eq_false_key _ _ Heq)) as Hne.
  rewrite <-Hcosts in Hin. apply elem_of_dom in Hin as [x Hx].
  set (me1 := Function.with_callcosts
                (<[Function.key le := x + c]> (Function.callcosts me)) me).
  set (ce1 := Function.with_total_call_cost
                (Function.total_call_cost ce + c) ce).
  exists (<[callee := ce1]> (<[self := me1]> fs)), me1, ce1.
  split.
  { unfold Function.add_callcost, Function.deref. rewrite Hme, Hce.
    unfold_monad. simpl. rewrite Heq, Hlast, Hle. simpl.
    rewrite (getitem_Some _ _ _ Hx). simpl.
    rewrite lookup_insert_ne by done. by rewrite Hce. }
  split; [by rewrite lookup_insert_ne, lookup_insert_eq|].
  split; [by rewrite lookup_insert_eq|].
  split; [by intros r ??; rewrite !lookup_insert_ne|].
  split.
  { simpl. unfold accumulated. by rewrite lookup_insert_eq, Hx. }
  split.
  { intros k Hk. simpl. unfold accumulated. by rewrite lookup_insert_ne. }
  done.
Qed.

Lemma add_callcost_books_on_last_callee_witness :
  ∃ fs1 me1 ce1,
    Function.add_callcost "a.c#main" "a.c#f" 7 shared_callee_graph = Ok fs1
    ∧ fs1 !! "a.c#main" = Some me1 ∧ fs1 !! "a.c#f" = Some ce1
    ∧ accumulated (Function.callcosts me1) (Function.key shared_g) = 407
    ∧ accumulated (Function.callcosts me1) (Function.key shared_f) = 400
    ∧ Function.total_call_cost ce1 = 407.
Proof.
  destruct (add_callcost_books_on_last_callee shared_callee_graph
              "a.c#main" "a.c#f" shared_main shared_f "a.c#g" shared_g 7)
    as (fs1 & me1 & ce1 & H1 & H2 & H3 & _ & H4 & H5 & _ & _ & _ & H6 & _).
  - vm_compute. reflexivity.
  - vm_compute. reflexivity.
  - apply (shared_callee_registered "a.c#main"). vm_compute. reflexivity.
  - vm_compute. reflexivity.
  - vm_compute. reflexivity.
  - vm_compute. reflexivity.
  - vm_compute. set_solver.
  - exists fs1, me1, ce1.
    split; [exact H1|]. split; [exact H2|]. split; [exact H3|].
    split; [rewrite H4; vm_compute; reflexivity|].
    split; [rewrite H5; [vm_compute; reflexivity|by vm_compute]|].
    rewrite H6. vm_compute. reflexivity.
Defined.

(** ** Function objects as dictionary keys *)

(** X20. [__eq__] is an equivalence on [Function] objects, and [__hash__]
    respects it: objects that are equal have the same [repr], which is what
    is hashed. The converse does not hold: two objects that differ can have
    the same [repr], so the same hash. *)
Theorem eq_is_an_equivalence :
  (∀ a, Function.eq a a = true)
  ∧ (∀ a b, Function.eq a b = Function.eq b a)
  ∧ (∀ a b c, Function.eq a b = true → Function.eq b c = true →
              Function.eq a c = true)
  ∧ (∀ a b, Function.eq a b = true →
            Function.repr a = Function.repr b
            ∧ Function.str a = Function.str b)
  ∧ (∃ a b, Function.repr a = Function.repr b ∧ Function.eq a b = false).
Proof.
  split; [|split; [|split; [|split]]].
  - intros a. by apply eq_key.
  - intros a b. apply eq_true_iff_eq. rewrite !eq_key. split; congruence.
  - intros a b c. rewrite !eq_key. congruence.
  - intros a b Hk%eq_key. unfold Function.repr, Function.str.
    unfold Function.key in Hk. by injection Hk as -> -> ->.
  - exists (Function.init "o#a" "b" "f"), (Function.init "o" "a#b" "f").
    split; reflexivity.
Qed.

Lemma eq_is_an_equivalence_witness :
  Function.repr shared_f = Function.repr (Function.init "o" "a.c" "f")
  ∧ Function.str shared_f = Function.str (Function.init "o" "a.c" "f").
Proof.
  apply (proj1 (proj2 (proj2 (proj2 eq_is_an_equivalence)))).
  vm_compute. reflexivity.
Defined.

(** * The graph of the parser, for every input *)

(** ** The calls a function has received *)

Lemma inbound_insert_new fs r f k :
  fs !! r = None →
  inbound (<[r := f]> fs) k
  = inbound fs k + accumulated (Function.callcounts f) k.
Proof.
  intros Hr. unfold inbound. rewrite map_fold_insert_L; [done| |done].
  intros. lia.
Qed.

Lemma inbound_delete fs r f k :
  fs !! r = Some f →
  inbound fs k
  = inbound (delete r fs) k + accumulated (Function.callcounts f) k.
Proof.
  intros Hr. unfold inbound.
  rewrite (map_fold_delete_L _ _ r f fs); [done| |done]. intros. lia.
Qed.

Lemma inbound_update fs r f f' k :
  fs !! r = Some f →
  inbound (<[r := f']> fs) k
  = inbound fs k - accumulated (Function.callcounts f) k
    + accumulated (Function.callcounts f') k.
Proof.
  intros Hr. rewrite <-insert_delete_eq.
  rewrite inbound_insert_new by apply lookup_delete_eq.
  rewrite (inbound_delete fs r f k Hr). lia.
Qed.

Lemma inbound_zero fs k :
  (∀ r f, fs !! r = Some f → accumulated (Function.callcounts f) k = 0) →
  inbound fs k = 0.
Proof.
  induction fs as [|r f fs Hr IH] using map_ind; intros H; [done|].
  rewrite inbound_insert_new by done.
  rewrite IH, (H r f); [done|apply lookup_insert_eq|].
  intros r' f' Hr'. apply (H r'). rewrite lookup_insert_ne; [done|].
  intros <-. congruence.
Qed.

Lemma inbound_one fs p P k :
  fs !! p = Some P →
  (∀ q Q, fs !! q = Some Q → q ≠ p →
          accumulated (Function.callcounts Q) k = 0) →
  inbound fs k = accumulated (Function.callcounts P) k.
Proof.
  intros Hp H. rewrite (inbound_delete fs p P k Hp).
  rewrite inbound_zero; [done|].
  intros q Q [Hne HQ]%lookup_delete_Some. by apply (H q).
Qed.

(** ** What every step of the construction keeps *)

Lemma signed_update fs r f f' :
  signed fs → fs !! r = Some f → Function.key f' = Function.key f →
  signed (<[r := f']> fs).
Proof.
  intros Hs Hf Hk r0 f0 [[<- <-]|[_ H0]]%lookup_insert_Some; [|by apply Hs].
  rewrite (key_str _ _ Hk). by apply Hs.
Qed.

Lemma listed_update fs r f f' :
  listed fs → fs !! r = Some f →
  Function.key f' = Function.key f →
  Function.calls f' = Function.calls f →
  Function.callfunctions f' = Function.callfunctions f →
  listed (<[r := f']> fs).
Proof.
  intros Hl Hf Hk Hc Hcf r0 f0 k H0 Hin.
  assert (∃ c ce, c ∈ Function.calls f0 ∧ fs !! c = Some ce
                  ∧ Function.key ce = k) as (c & ce & Hc0 & Hce & Hkc).
  { apply lookup_insert_Some in H0 as [[<- <-]|[_ H0]].
    - rewrite Hc. rewrite Hcf in Hin. by eapply Hl.
    - by eapply Hl. }
  destruct (lookup_update_key fs r f f' c ce) as (ce' & ? & Hk'); [done..|].
  exists c, ce'. split; [done|]. split; [done|]. congruence.
Qed.

Lemma balanced_update fs r f f' :
  balanced fs → fs !! r = Some f →
  Function.key f' = Function.key f →
  Function.callcounts f' = Function.callcounts f →
  Function.total_call_count f' = Function.total_call_count f →
  balanced (<[r := f']> fs).
Proof.
  intros Hb Hf Hk Hc Ht c ce Hce.
  rewrite (inbound_update fs r f f' _ Hf), Hc.
  apply lookup_insert_Some in Hce as [[<- <-]|[_ Hce]].
  - rewrite Ht, Hk, (Hb _ _ Hf). lia.
  - rewrite (Hb _ _ Hce). lia.
Qed.

(** An update that touches no name, no callee and no count. *)
Lemma built_update fs r f f' :
  graph_built fs → fs !! r = Some f →
  Function.key f' = Function.key f →
  Function.calls f' = Function.calls f →
  Function.callfunctions f' = Function.callfunctions f →
  accumulators_registered f' →
  Function.callcounts f' = Function.callcounts f →
  Function.total_call_count f' = Function.total_call_count f →
  graph_built (<[r := f']> fs).
Proof.
  intros [Hs Hl Hli Hr Hb] Hf Hk Hc Hcf Hreg Hn Ht. split.
  - by eapply signed_update.
  - by eapply linked_update.
  - by eapply listed_update.
  - by apply all_registered_insert.
  - by eapply balanced_update.
Qed.

Lemma no_inbound_for_new fs o f n :
  signed fs → listed fs → all_registered fs →
  fs !! (f +:+ "#" +:+ n) = None →
  inbound fs (o, f, n) = 0.
Proof.
  intros Hs Hl Hr Hnew. apply inbound_zero. intros r0 f0 H0.
  unfold accumulated.
  destruct (_ !! _) as [x|] eqn:Hx in |- *; [|done].
  exfalso. assert ((o, f, n) ∈ Function.callfunctions f0) as Hin.
  { rewrite <-(proj2 (Hr _ _ H0)). apply elem_of_dom. eauto. }
  destruct (Hl _ _ _ H0 Hin) as (c & ce & _ & Hce & Hk).
  pose proof (Hs _ _ Hce) as Hc. unfold Function.str in Hc.
  unfold Function.key in Hk. injection Hk as _ Hf Hn. rewrite Hf, Hn in Hc.
  congruence.
Qed.

Lemma built_new fs o f n :
  graph_built fs → fs !! (f +:+ "#" +:+ n) = None →
  graph_built (<[f +:+ "#" +:+ n := Function.init o f n]> fs).
Proof.
  intros [Hs Hl Hli Hr Hb] Hnew. set (r := f +:+ "#" +:+ n) in *. split.
  - intros r0 f0 [[<- <-]|[_ H0]]%lookup_insert_Some; [done|by apply Hs].
  - apply (linked_construct (NewFunction o f n) fs); [done|]. simpl.
    unfold Function.str. simpl. fold r.
    by rewrite bool_decide_eq_false_2 by (rewrite Hnew; by intros [? ?]).
  - intros r0 f0 k [[<- <-]|[_ H0]]%lookup_insert_Some Hin.
    { simpl in Hin. set_solver. }
    destruct (Hli _ _ _ H0 Hin) as (c & ce & Hc & Hce & Hk).
    exists c, ce. split; [done|]. split; [|done].
    rewrite lookup_insert_ne; [done|]. congruence.
  - apply all_registered_insert; [done|].
    split; simpl; by rewrite dom_empty_L.
  - intros c ce Hce. rewrite inbound_insert_new by done. simpl.
    unfold accumulated. rewrite lookup_empty. simpl.
    apply lookup_insert_Some in Hce as [[<- <-]|[_ Hce]].
    + simpl. change (Function.key (Function.init o f n)) with (o, f, n).
      rewrite (no_inbound_for_new fs o f n) by done. done.
    + rewrite (Hb _ _ Hce). lia.
Qed.

(** The caller with the callee registered, as [add_call] makes it first. *)
Lemma built_with_callee fs self callee me ce :
  graph_built fs → fs !! self = Some me → fs !! callee = Some ce →
  graph_built
    (<[self := if bool_decide (Function.key ce ∈ Function.callfunctions me)
               then me
               else Function.with_callee callee (Function.key ce) me]> fs).
Proof.
  intros Hg Hme Hce. case_bool_decide as Hin.
  { rewrite insert_id by done. done. }
  destruct Hg as [Hs Hl Hli Hr Hb].
  assert (∀ k, accumulated
                 (Function.callcounts
                    (Function.with_callee callee (Function.key ce) me)) k
               = accumulated (Function.callcounts me) k) as Hacc.
  { intros k. simpl. apply accumulated_fresh, not_elem_of_dom.
    by rewrite (proj2 (Hr _ _ Hme)). }
  split.
  - by eapply signed_update.
  - by apply linked_with_callee.
  - intros r0 f0 k H0 Hk.
    assert (∃ c ce0, c ∈ Function.calls f0 ∧ fs !! c = Some ce0
                     ∧ Function.key ce0 = k) as (c & ce0 & Hc0 & Hce0 & Hkc).
    { apply lookup_insert_Some in H0 as [[<- <-]|[_ H0]]; [|by eapply Hli].
      simpl in *. apply elem_of_union in Hk as [->%elem_of_singleton|Hk].
      - exists callee, ce. split; [|done]. apply elem_of_app. right.
        by apply list_elem_of_singleton.
      - destruct (Hli _ _ _ Hme Hk) as (c & ce0 & ? & ? & ?).
        exists c, ce0. split; [|done]. apply elem_of_app. by left. }
    destruct (lookup_update_key fs self me
                (Function.with_callee callee (Function.key ce) me) c ce0)
      as (ce' & ? & Hk'); [done..|].
    exists c, ce'. split; [done|]. split; [done|]. congruence.
  - apply all_registered_insert; [done|].
    apply registered_with_callee. by eapply Hr.
  - intros c x Hx. rewrite (inbound_update fs self me _ _ Hme), Hacc.
    apply lookup_insert_Some in Hx as [[<- <-]|[_ Hx]].
    + simpl. rewrite (Hb _ _ Hme).
      change (Function.key (Function.with_callee callee (Function.key ce) me))
        with (Function.key me). lia.
    + rewrite (Hb _ _ Hx). lia.
Qed.

Lemma built_add_call fs self callee count fs' :
  graph_built fs → Function.add_call self callee count fs = Ok fs' →
  graph_built fs'.
Proof.
  intros Hg. unfold Function.add_call. unfold_monad.
  intros (me & Hme%deref_Ok & H)%rbind_Ok.
  apply rbind_Ok in H as (ce & Hce%deref_Ok & H). cbv zeta in H.
  pose proof (built_with_callee fs self callee me ce Hg Hme Hce) as Hg1.
  set (k := Function.key ce) in *.
  set (me1 := if bool_decide _ then me else _) in *.
  set (fs1 := <[self := me1]> fs) in *.
  assert (Function.key me1 = Function.key me) as Hk1
    by (unfold me1; case_bool_decide; reflexivity).
  destruct (Function.eq me1 ce) eqn:Heq; [by injection H as <-|].
  apply eq_false_key in Heq.
  assert (self ≠ callee) as Hne.
  { eapply eq_false_refs; [exact Hme|exact Hce|congruence]. }
  apply rbind_Ok in H as (x & Hx%getitem_Ok & H).
  apply rbind_Ok in H as (n & Hn%getitem_Ok & H). simpl in Hn.
  apply rbind_Ok in H as (ce' & Hce'%deref_Ok & [= <-]).
  rewrite lookup_insert_ne in Hce' by done.
  assert (fs1 !! callee = Some ce) as Hce1
    by (unfold fs1; by rewrite lookup_insert_ne).
  assert (ce' = ce) as -> by (unfold fs1 in *; congruence).
  assert (fs1 !! self = Some me1) as Hme1 by apply lookup_insert_eq.
  destruct Hg1 as [Hs Hl Hli Hr Hb].
  set (me3 := Function.with_callcounts _ _).
  set (ce1 := Function.with_total_call_count _ _).
  assert (∀ k', accumulated (Function.callcounts me3) k'
                = accumulated (Function.callcounts me1) k'
                  + (if decide (k' = k) then count else 0)) as Hacc.
  { intros k'. unfold me3. simpl. unfold accumulated.
    destruct (decide (k' = k)) as [->|Hk'].
    - rewrite lookup_insert_eq, Hn. simpl. lia.
    - rewrite lookup_insert_ne by done. lia. }
  assert (accumulators_registered me3) as Hreg3.
  { apply (registered_update_counts
             (Function.with_callcosts
                (<[k := x + 0]> (Function.callcosts me1)) me1)
             k n (n + count)); [|exact Hn].
    eapply registered_update_costs; [by eapply Hr|exact Hx]. }
  assert (<[self := me3]> fs1 !! callee = Some ce) as Hce2
    by (by rewrite lookup_insert_ne).
  split.
  - eapply signed_update; [|exact Hce2|done].
    by eapply signed_update.
  - eapply linked_update; [|exact Hce2|done..].
    by eapply linked_update.
  - eapply listed_update; [|exact Hce2|done..].
    by eapply listed_update.
  - apply all_registered_insert.
    + by apply all_registered_insert.
    + destruct (Hr _ _ Hce1). by split.
  - intros c0 x0 Hx0.
    rewrite (inbound_update _ callee ce ce1 _ Hce2).
    rewrite (inbound_update fs1 self me1 me3 _ Hme1), Hacc.
    change (Function.callcounts ce1) with (Function.callcounts ce).
    apply lookup_insert_Some in Hx0 as [[<- <-]|[Hc0 Hx0]].
    + change (Function.key ce1) with k. rewrite decide_True by done.
      simpl. rewrite (Hb _ _ Hce1). fold k. lia.
    + apply lookup_insert_Some in Hx0 as [[<- <-]|[Hc1 Hx0]].
      * change (Function.key me3) with (Function.key me1).
        rewrite decide_False by exact Heq.
        change (Function.total_call_count me3)
          with (Function.total_call_count me1).
        rewrite (Hb _ _ Hme1). lia.
      * rewrite decide_False.
        { rewrite (Hb _ _ Hx0). lia. }
        intros Hk%key_str. rewrite (Hs _ _ Hx0), (Hs _ _ Hce1) in Hk.
        congruence.
Qed.

Lemma built_add_callcost fs self callee c fs' :
  graph_built fs → Function.add_callcost self callee c fs = Ok fs' →
  graph_built fs'.
Proof.
  intros Hg. unfold Function.add_callcost. unfold_monad.
  intros (me & Hme%deref_Ok & H)%rbind_Ok.
  apply rbind_Ok in H as (ce & Hce%deref_Ok & H).
  destruct (Function.eq me ce); [by injection H as <-|].
  destruct (last (Function.calls me)) as [l|]; [|done].
  apply rbind_Ok in H as (le & _ & H).
  apply rbind_Ok in H as (x & Hx%getitem_Ok & H).
  apply rbind_Ok in H as (ce' & Hce'%deref_Ok & [= <-]).
  eapply built_update; [|exact Hce'|done..| |done|done].
  - eapply built_update; [exact Hg|exact Hme|done..| |done|done].
    eapply registered_update_costs; [|exact Hx].
    by eapply (built_registered _ Hg).
  - assert (graph_built
              (<[self := Function.with_callcosts
                   (<[Function.key le := x + c]> (Function.callcosts me)) me]>
                 fs)) as Hg2.
    { eapply built_update; [exact Hg|exact Hme|done..| |done|done].
      eapply registered_update_costs; [|exact Hx].
      by eapply (built_registered _ Hg). }
    destruct (built_registered _ Hg2 _ _ Hce'). by split.
Qed.

Lemma built_add_cost fs self c fs' :
  graph_built fs → Function.add_cost self c fs = Ok fs' → graph_built fs'.
Proof.
  intros Hg. unfold Function.add_cost. unfold_monad.
  intros (me & Hme%deref_Ok & [= <-])%rbind_Ok.
  eapply built_update; [exact Hg|exact Hme|done..| |done|done].
  destruct (built_registered _ Hg _ _ Hme). by split.
Qed.

Lemma built_construct op fs fs' :
  graph_built fs → construct op fs = Ok fs' → graph_built fs'.
Proof.
  intros Hg. destruct op as [o f n|a b count|a b c|a c]; simpl.
  - intros [= <-]. case_bool_decide as Hs; [done|].
    apply built_new; [done|]. by apply eq_None_not_Some.
  - by apply built_add_call.
  - by apply built_add_callcost.
  - by apply built_add_cost.
Qed.

Lemma built_empty : graph_built ∅.
Proof.
  split; intros r f; by rewrite lookup_empty.
Qed.

Lemma parse_body_built queue rest g :
  parse_body queue initial_globals = Ok (rest, g) →
  graph_built (functions g).
Proof.
  apply (parse_body_loop_invariant (λ g, graph_built (functions g))).
  - intros a b c g0 r g1 Hg (o & f & n & H)%lookup_f_constructs.
    by eapply built_construct.
  - by intros v g0 x g1 Hg ->%lookup_fl_functions.
  - intros op g0 u g1 _ Hg (fs & Hfs & ->)%on_functions_Ok.
    by eapply built_construct.
  - apply built_empty.
Qed.

(** * One caller *)

Lemma one_caller_total fs p P c C :
  graph_built fs → fs !! p = Some P → fs !! c = Some C →
  map_Forall (λ q Q, c ∈ Function.calls Q → q = p) fs →
  Function.total_call_count C
  = accumulated (Function.callcounts P) (Function.key C).
Proof.
  intros [Hs Hl Hli Hr Hb] HP HC Hone.
  rewrite (Hb _ _ HC). apply (inbound_one _ p); [done|].
  intros q Q HQ Hne. unfold accumulated.
  destruct (_ !! _) as [x|] eqn:Hx in |- *; [|done]. exfalso.
  assert (Function.key C ∈ Function.callfunctions Q) as Hin.
  { rewrite <-(proj2 (Hr _ _ HQ)). apply elem_of_dom. eauto. }
  destruct (Hli _ _ _ HQ Hin) as (c' & C' & Hc' & HC' & Hk%key_str).
  rewrite (Hs _ _ HC'), (Hs _ _ HC) in Hk. subst c'.
  apply Hne. by apply (map_Forall_lookup_1 _ _ _ _ Hone HQ).
Qed.

(** What a walk that completes has done for one callee of its object. *)
Lemma print_stacks_callee fuel fs p P c stack count cost scale out s :
  fs !! p = Some P → Function.str P ∉ stack →
  Function.scale_of P count = Ok scale →
  c ∈ Function.calls P →
  Function.print_stacks (S (S fuel)) fs p stack count cost
  = (out, Returned s) →
  ∃ C K n v o,
    fs !! c = Some C
    ∧ Function.callcosts P !! Function.key C = Some K
    ∧ Function.callcounts P !! Function.key C = Some n
    ∧ Function.scaled scale K = Ok v
    ∧ Function.print_stacks (S fuel) fs c (stack ++ [Function.str P]) n v
      = (o, Returned (stack ++ [Function.str P]))
    ∧ ∀ line, line ∈ o → line ∈ out.
Proof.
  intros HP Hin Hscale Hc. rewrite print_stacks_S.
  rewrite (deref_Some _ _ _ HP). unfold_monad.
  rewrite pbind_plift_Ok.
  rewrite bool_decide_eq_false_2 by done. cbv zeta.
  rewrite length_pos_nonempty
    by (intros E; rewrite E in Hc; by apply elem_of_nil in Hc).
  rewrite Hscale, pbind_plift_Ok.
  intros (o1 & s1 & o2 & H & _ & ->)%pbind_Returned.
  apply pbind_Returned in H as (o3 & v0 & o4 & _ & H & ->).
  apply pbind_Returned in H as (o5 & [] & o6 & _ & H & ->).
  eapply (pfor_Returned_elem _ _ c) in H as (o & Hb & Ho); [|clear H|done].
  - apply pbind_Returned in Hb
      as (? & C & ? & [HC%deref_Ok ->]%plift_Returned & Hb & ->).
    apply pbind_Returned in Hb
      as (? & K & ? & [HK%getitem_Ok ->]%plift_Returned & Hb & ->).
    apply pbind_Returned in Hb
      as (? & n & ? & [Hn%getitem_Ok ->]%plift_Returned & Hb & ->).
    apply pbind_Returned in Hb
      as (? & v & ol & [Hv ->]%plift_Returned & Hb & ->).
    exists C, K, n, v, ol. simpl in Ho. repeat split; try done.
    intros line Hline. apply elem_of_app. left. apply elem_of_app. right.
    apply elem_of_app. right. by apply Ho.
  - intros f s0 out' s' _ Hb.
    apply pbind_Returned in Hb as (? & fe & ? & _ & Hb & _).
    apply pbind_Returned in Hb as (? & cc & ? & _ & Hb & _).
    apply pbind_Returned in Hb as (? & cn & ? & _ & Hb & _).
    apply pbind_Returned in Hb as (? & cx & ? & _ & Hb & _).
    by eapply print_stacks_returns_stack.
Qed.

(** C1, as the code has it. In a graph that the parser has built, let the
    callee [C] have one caller only, [P], which calls it [n] times,
    [n > 0], over an edge of cost [K]. Then the total of [C] is [n], the
    count it is visited with, and its scale is 1.0. A walk through [P] that
    completes has printed the line of the path that enters [C]: with the
    self cost of [C], not with [K], when [C] has callees; with the cost of
    the edge scaled by the scale of [P] when [C] is a leaf, so with [K]
    itself when the scale of [P] is 1.0. (Costs below 2^53 in magnitude,
    which floats hold exactly.) *)
Theorem C1_single_caller queue rest g p P c C n K :
  parse_body queue initial_globals = Ok (rest, g) →
  functions g !! p = Some P → functions g !! c = Some C →
  c ∈ Function.calls P →
  map_Forall (λ q Q, c ∈ Function.calls Q → q = p) (functions g) →
  Function.callcounts P !! Function.key C = Some n → 0 < n →
  Function.callcosts P !! Function.key C = Some K →
  Function.total_call_count C = n
  ∧ Function.scale_of C n = Ok Float.one
  ∧ ∀ fuel stack count cost scale out s,
      Function.str P ∉ stack →
      Function.str C ∉ stack ++ [Function.str P] →
      Function.scale_of P count = Ok scale →
      Function.print_stacks (S (S fuel)) (functions g) p stack count cost
      = (out, Returned s) →
      (Function.calls C ≠ [] → Z.abs (Function.cost C) < 2 ^ 53 →
       stack_line (stack ++ [Function.str P; Function.str C])
         (Function.cost C) ∈ out)
      ∧ (Function.calls C = [] → ∀ v,
         Function.scaled scale K = Ok v →
         stack_line (stack ++ [Function.str P; Function.str C]) v ∈ out)
      ∧ (Function.calls C = [] → scale = Float.one → Z.abs K < 2 ^ 53 →
         stack_line (stack ++ [Function.str P; Function.str C]) K ∈ out).
Proof.
  intros Hg%parse_body_built HP HC Hc Hone Hn Hpos HK.
  assert (Function.total_call_count C = n) as Ht.
  { rewrite (one_caller_total _ _ _ _ _ Hg HP HC Hone).
    unfold accumulated. by rewrite Hn. }
  assert (Function.scale_of C n = Ok Float.one) as Hone_scale.
  { unfold Function.scale_of. rewrite Ht.
    destruct (Z.ltb_spec 0 n); [|lia]. destruct (Z.leb_spec n n); [|lia].
    by apply int_truediv_same. }
  split; [done|]. split; [done|].
  intros fuel stack count cost scale out s Hin HinC Hscale Hrun.
  destruct (print_stacks_callee _ _ _ _ _ _ _ _ _ _ _ HP Hin Hscale Hc Hrun)
    as (C' & K' & n' & v & o & HC' & HK' & Hn' & Hv & Hsub & Ho).
  assert (C' = C) as -> by congruence.
  assert (K' = K) as -> by congruence.
  assert (n' = n) as -> by congruence.
  assert (stack ++ [Function.str P; Function.str C]
          = (stack ++ [Function.str P]) ++ [Function.str C]) as Hpath
    by (by rewrite <-app_assoc).
  unfold stack_line. rewrite Hpath. split; [|split].
  - intros Hcalls Hcost. apply Ho.
    destruct (print_stacks_first_line fuel (functions g) c C
                (stack ++ [Function.str P]) n v Float.one (Function.cost C))
      as (rest' & o' & Hfirst); try done.
    { by apply scaled_one. }
    rewrite Hfirst in Hsub. injection Hsub as <- _. left.
  - intros Hleaf v' Hv'. apply Ho.
    rewrite (print_stacks_leaf _ _ _ C) in Hsub by done.
    injection Hsub as <-. assert (v' = v) as -> by congruence. left.
  - intros Hleaf -> HKb. apply Ho.
    rewrite (print_stacks_leaf _ _ _ C) in Hsub by done.
    injection Hsub as <-. rewrite scaled_one in Hv by done.
    injection Hv as <-. left.
Qed.

Lemma C1_single_caller_witness :
  Function.total_call_count documented_func1 = 1
  ∧ Function.scale_of documented_func1 1 = Ok Float.one
  ∧ stack_line
      ([] ++ [Function.str documented_main; Function.str documented_func1])
      (Function.cost documented_func1)
    ∈ ["file1.c#main 20";
       "file1.c#main;file1.c#func1 100";
       "file1.c#main;file1.c#func1;file2.c#func2 300";
       "file1.c#main;file2.c#func2 400"].
Proof.
  destruct (C1_single_caller (parse_header documented_input) []
              documented_globals
              "file1.c#main" documented_main "file1.c#func1" documented_func1
              1 400) as (H1 & H2 & H3).
  - vm_compute. reflexivity.
  - vm_compute. reflexivity.
  - vm_compute. reflexivity.
  - vm_compute. apply list_elem_of_here.
  - match goal with |- ?G => apply (bool_decide_unpack G) end.
    vm_compute. exact I.
  - vm_compute. reflexivity.
  - lia.
  - vm_compute. reflexivity.
  - split; [exact H1|]. split; [exact H2|].
    destruct (H3 2%nat [] 0 0 Float.one
                ["file1.c#main 20";
                 "file1.c#main;file1.c#func1 100";
                 "file1.c#main;file1.c#func1;file2.c#func2 300";
                 "file1.c#main;file2.c#func2 400"] []) as (Hline & _).
    + intros H. inversion H.
    + vm_compute. intros H. inversion H as [|? ? ? H']. inversion H'.
    + reflexivity.
    + vm_compute. reflexivity.
    + apply Hline; [discriminate|]. vm_compute. reflexivity.
Defined.

(** * The functions at which [main] starts a walk *)

Lemma lines_of_pbind_l {A B} (m : printing A) (k : A → printing B) line :
  line ∈ fst m → line ∈ fst (pbind m k).
Proof.
  destruct m as [out [a|e|]]; simpl; [|done..].
  destruct (k a) as [out' o]. simpl. intros ?. apply elem_of_app. by left.
Qed.

Lemma lines_of_pbind_r {A B} (m : printing A) (k : A → printing B) out a line :
  m = (out, Returned a) → line ∈ fst (k a) → line ∈ fst (pbind m k).
Proof.
  intros ->. simpl. destruct (k a) as [out' o]. simpl. intros ?.
  apply elem_of_app. by right.
Qed.

Lemma fst_pbind_pret {A B} (m : printing A) (b : B) :
  fst (pbind m (λ _, pret b)) = fst m.
Proof. destruct m as [out [a|e|]]; simpl; [|done..]. apply app_nil_r. Qed.

(** A turn of a loop whose earlier turns have returned. *)
Lemma pfor_line {A} (body : A → unit → printing unit) pre x post out0 line :
  pfor body pre tt = (out0, Returned tt) →
  line ∈ fst (body x tt) →
  line ∈ fst (pfor body (pre ++ x :: post) tt).
Proof.
  revert out0. induction pre as [|y pre IH]; intros out0; simpl.
  - intros _. apply lines_of_pbind_l.
  - intros (o1 & [] & o2 & Hy & Hpre & _)%pbind_Returned Hline.
    eapply lines_of_pbind_r; [exact Hy|]. by eapply IH.
Qed.

(** What [main] prints is what its loop over the functions prints. *)
Lemma main_lines queue rest g :
  parse_body (parse_header queue) initial_globals = Ok (rest, g) →
  fst (main queue)
  = fst (pfor (λ r _, traverse_from (functions g) r) (functions_keys g) tt).
Proof.
  intros H. unfold main. unfold_monad. rewrite H, pbind_plift_Ok.
  apply fst_pbind_pret.
Qed.

Lemma main_Returned queue rest g out q :
  parse_body (parse_header queue) initial_globals = Ok (rest, g) →
  main queue = (out, Returned q) →
  pfor (λ r _, traverse_from (functions g) r) (functions_keys g) tt
  = (out, Returned tt).
Proof.
  intros H. unfold main. unfold_monad. rewrite H, pbind_plift_Ok.
  destruct (pfor _ _ _) as [o [[]|e|]]; simpl; [|done..].
  rewrite app_nil_r. by intros [= -> _].
Qed.

Lemma call_path_frames fs r path frame :
  call_path fs r path → frame ∈ path →
  ∃ r' me', fs !! r' = Some me' ∧ frame = Function.str me'
    ∧ (r' = r ∨ ∃ q Q, fs !! q = Some Q ∧ r' ∈ Function.calls Q).
Proof.
  induction 1 as [r me Hme|r me c frames Hme Hc Hpath IH].
  - intros ->%list_elem_of_singleton. exists r, me. auto.
  - intros [->|Hin]%elem_of_cons; [exists r, me; auto|].
    destruct (IH Hin) as (r' & me' & Hr' & -> & [->|Hq]).
    + exists c, me'. split; [done|]. split; [done|]. right. eauto.
    + exists r', me'. auto.
Qed.

Lemma main_line_path queue rest g line :
  parse_body (parse_header queue) initial_globals = Ok (rest, g) →
  line ∈ fst (main queue) →
  ∃ r me path v,
    functions g !! r = Some me ∧ is_root me = true
    ∧ call_path (functions g) r path ∧ NoDup path
    ∧ line = stack_line path v.
Proof.
  intros Hparse. rewrite (main_lines _ _ _ Hparse).
  assert (Forall (λ line, ∃ r me path v,
                    functions g !! r = Some me ∧ is_root me = true
                    ∧ call_path (functions g) r path ∧ NoDup path
                    ∧ line = stack_line path v)
            (fst (pfor (λ r _, traverse_from (functions g) r)
                    (functions_keys g) tt))) as H.
  { apply lines_pfor; [by intros ??[]|]. intros r _.
    unfold traverse_from. unfold_monad.
    apply lines_pbind; [apply lines_plift|].
    intros ? me [Hme%deref_Ok _]%plift_Returned.
    destruct (is_root me) eqn:Hroot; [|constructor].
    apply lines_pbind; [|constructor].
    eapply Forall_impl; [apply print_stacks_lines, NoDup_nil_2|]. simpl.
    intros l (path & v & Hp & Hnd & ->). by exists r, me, path, v. }
  rewrite Forall_forall in H. apply H.
Qed.

(** C5, as the code has it. On the graph of the parser, [main] starts a walk
    exactly at the functions with [total_call_count] 0 and a callee: every
    line of the output is a path from such a function. Such a function gets
    its line, its signature and [round(1.0 * cost)], if that number can be
    computed and the walks started before it in the loop have returned: an
    exception in one walk ends the program, and the functions after it get
    nothing. When [main] returns, every such function has its line. For a
    self cost below 2^53 in magnitude the number is the self cost. A
    function with no callees starts no walk, whatever its self cost, and if
    no function lists it as a callee its signature is on no line. *)
Theorem C5_roots queue rest g :
  parse_body (parse_header queue) initial_globals = Ok (rest, g) →
  (∀ r me, functions g !! r = Some me →
     (is_root me = true
      ↔ Function.total_call_count me = 0 ∧ Function.calls me ≠ []))
  ∧ (∀ line, line ∈ fst (main queue) →
     ∃ r me path v,
       functions g !! r = Some me ∧ is_root me = true
       ∧ call_path (functions g) r path ∧ line = stack_line path v
       ∧ ∀ r0 f0, functions g !! r0 = Some f0 → Function.calls f0 = [] →
           (∀ q Q, functions g !! q = Some Q → r0 ∉ Function.calls Q) →
           Function.str f0 ∉ path)
  ∧ (∀ pre r post me out0 v,
       functions_keys g = pre ++ r :: post →
       functions g !! r = Some me → is_root me = true →
       pfor (λ r _, traverse_from (functions g) r) pre tt
       = (out0, Returned tt) →
       Function.scaled Float.one (Function.cost me) = Ok v →
       stack_line [Function.str me] v ∈ fst (main queue))
  ∧ (∀ out q r me,
       main queue = (out, Returned q) →
       functions g !! r = Some me → is_root me = true →
       ∃ v, Function.scaled Float.one (Function.cost me) = Ok v
            ∧ (Z.abs (Function.cost me) < 2 ^ 53 → v = Function.cost me)
            ∧ stack_line [Function.str me] v ∈ out)
  ∧ (∀ r me, functions g !! r = Some me →
       Function.total_call_count me = 0 → Function.calls me = [] →
       traverse_from (functions g) r = ([], Returned tt)).
Proof.
  intros Hparse.
  pose proof (parse_body_built _ _ _ Hparse) as Hg.
  destruct (parse_body_graph _ _ _ Hparse) as (_ & _ & _ & Hkeys).
  split; [intros r me _; apply is_root_spec|].
  split; [|split; [|split]].
  - intros line (r & me & path & v & Hme & Hroot & Hpath & _ & ->)
             %(main_line_path _ _ _ _ Hparse).
    exists r, me, path, v. repeat split; try done.
    intros r0 f0 H0 Hleaf Hunlisted Hin.
    destruct (call_path_frames _ _ _ _ Hpath Hin)
      as (r' & me' & Hr' & Hstr & Hwhere).
    rewrite (built_signed _ Hg _ _ H0), (built_signed _ Hg _ _ Hr') in Hstr.
    subst r'. assert (me' = f0) as -> by congruence.
    destruct Hwhere as [->|(q & Q & HQ & Hc)].
    + assert (f0 = me) as -> by congruence.
      apply is_root_spec in Hroot as [_ Hcalls]. done.
    + by apply (Hunlisted q Q).
  - intros pre r post me out0 v Hk Hme Hroot Hpre Hv.
    rewrite (main_lines _ _ _ Hparse), Hk.
    eapply pfor_line; [exact Hpre|].
    destruct (traverse_from_cases (functions g) r me Hme)
      as (_ & _ & _ & Hline & _).
    destruct (Hline Hroot v Hv) as (rest' & o & ->). left.
  - intros out q r me Hmain Hme Hroot.
    pose proof (main_Returned _ _ _ _ _ Hparse Hmain) as Hloop.
    assert (r ∈ functions_keys g) as Hr by (apply Hkeys; eauto).
    eapply (pfor_Returned_elem _ _ r) in Hloop as (o & Hb & Ho);
      [|by intros ? [] ? []|done].
    destruct (traverse_from_cases (functions g) r me Hme)
      as (_ & _ & _ & Hline & _ & Hraise).
    destruct (Function.scaled Float.one (Function.cost me)) as [v|e] eqn:Hv.
    + exists v. split; [done|]. split.
      * intros Hk. rewrite scaled_one in Hv by done. congruence.
      * apply Ho. destruct (Hline Hroot v eq_refl) as (rest' & o' & Hl).
        rewrite Hl in Hb. injection Hb as <- _. left.
    + rewrite (Hraise Hroot e eq_refl) in Hb. done.
  - intros r me Hme Ht Hc.
    by destruct (traverse_from_cases (functions g) r me Hme)
      as (_ & _ & H & _); apply H.
Qed.

Lemma C5_roots_witness :
  ∃ v, Function.scaled Float.one (Function.cost documented_main) = Ok v
       ∧ (Z.abs (Function.cost documented_main) < 2 ^ 53 →
          v = Function.cost documented_main)
       ∧ stack_line [Function.str documented_main] v
         ∈ ["file1.c#main 20";
            "file1.c#main;file1.c#func1 100";
            "file1.c#main;file1.c#func1;file2.c#func2 300";
            "file1.c#main;file2.c#func2 400"].
Proof.
  destruct (C5_roots documented_input [] documented_globals)
    as (_ & _ & _ & H & _).
  - vm_compute. reflexivity.
  - apply (H _ [] "file1.c#main").
    + apply documented_output.
    + vm_compute. reflexivity.
    + reflexivity.
Defined.

(** A function that no one calls, with a callee and self cost 7, and yet
    no line: the walk started before it, at a function whose self cost is
    too large for a float, has ended the program. *)
Lemma C5_root_without_line :
  ¬ (∀ queue rest g r me,
       parse_body (parse_header queue) initial_globals = Ok (rest, g) →
       functions g !! r = Some me →
       Function.total_call_count me = 0 → Function.calls me ≠ [] →
       Z.abs (Function.cost me) < 2 ^ 53 →
       fst (main queue) ≠ []).
Proof.
  intros H.
  apply (H two_roots_input [] two_roots_globals "???#b" two_roots_b).
  - vm_compute. reflexivity.
  - vm_compute. reflexivity.
  - reflexivity.
  - discriminate.
  - vm_compute. reflexivity.
  - vm_compute. reflexivity.
Qed.

(** * The walk under the bound on nested calls *)

Lemma print_stacks_within_eq room fs self stack count cost :
  print_stacks_within room fs self stack count cost =
  (me ← plift (Function.deref fs self);
   let signature := Function.str me in
   if bool_decide (signature ∈ stack) then pret stack
   else
     let stack := stack ++ [signature] in
     stack ←
       (if (0 <? Z.of_nat (length (Function.calls me))) then
          scale ← plift (Function.scale_of me count);
          v ← plift (Function.scaled scale (Function.cost me));
          _ ← print (Str.join ";" stack) (pretty v);
          pfor (λ f stack,
                  match room with
                  | O => ([], Raised RecursionError)
                  | S room =>
                      fe ← plift (Function.deref fs f);
                      callcost ← plift (Str.getitem (Function.callcosts me)
                                          (Function.key fe));
                      callcount ← plift (Str.getitem (Function.callcounts me)
                                           (Function.key fe));
                      c ← plift (Function.scaled scale callcost);
                      print_stacks_within room fs f stack callcount c
                  end)
               (Function.calls me) stack
        else
          _ ← print (Str.join ";" stack) (pretty cost);
          pret stack);
     pret (removelast stack)).
Proof. destruct room; reflexivity. Qed.

Lemma pfor_ext {A S} (b1 b2 : A → S → printing S) l s :
  (∀ x, x ∈ l → b1 x s = b2 x s) →
  (∀ x out s', x ∈ l → b2 x s = (out, Returned s') → s' = s) →
  pfor b1 l s = pfor b2 l s.
Proof.
  induction l as [|x l IH]; intros Hb Hst; simpl; [done|].
  rewrite (Hb x) by left.
  destruct (b2 x s) as [out [s'|e|]] eqn:Hx; simpl; [|done..].
  assert (s' = s) as -> by (eapply Hst; [left|done]).
  rewrite IH; [done| |].
  - intros y Hy. apply Hb. by right.
  - intros y out' s' Hy. apply Hst. by right.
Qed.

(** With room for as many levels as there are functions not yet on the
    path, the bound is not met: the walk is the walk of the program. *)
Lemma print_stacks_within_enough fuel :
  ∀ room fs self stack count cost,
    (size (unvisited fs stack) ≤ room)%nat →
    (size (unvisited fs stack) < fuel)%nat →
    print_stacks_within room fs self stack count cost
    = Function.print_stacks fuel fs self stack count cost.
Proof.
  induction fuel as [|fuel IH]; intros room fs self stack count cost Hr Hf;
    [lia|].
  rewrite print_stacks_S, print_stacks_within_eq. unfold_monad.
  destruct (Function.deref fs self) as [me|e] eqn:Hme; [|done].
  apply deref_Ok in Hme. rewrite !pbind_plift_Ok. cbv zeta.
  case_bool_decide as Hin; [done|].
  pose proof (unvisited_push _ _ _ _ Hme Hin) as Hlt.
  destruct room as [|room]; [lia|].
  destruct (0 <? _); [|done].
  destruct (Function.scale_of me count) as [scale|e]; [|done].
  rewrite !pbind_plift_Ok.
  destruct (Function.scaled scale (Function.cost me)) as [v|e]; [|done].
  rewrite !pbind_plift_Ok, !pbind_print.
  erewrite pfor_ext; [reflexivity| |].
  - intros c _. simpl.
    destruct (Function.deref fs c) as [fe|e]; [|done].
    rewrite !pbind_plift_Ok.
    destruct (Str.getitem (Function.callcosts me) _) as [cc|e]; [|done].
    rewrite !pbind_plift_Ok.
    destruct (Str.getitem (Function.callcounts me) _) as [cn|e]; [|done].
    rewrite !pbind_plift_Ok.
    destruct (Function.scaled scale cc) as [x|e]; [|done].
    rewrite !pbind_plift_Ok. apply IH; lia.
  - intros c out' s' _ Hb.
    apply pbind_Returned in Hb as (? & fe & ? & _ & Hb & _).
    apply pbind_Returned in Hb as (? & cc & ? & _ & Hb & _).
    apply pbind_Returned in Hb as (? & cn & ? & _ & Hb & _).
    apply pbind_Returned in Hb as (? & sc & ? & _ & Hb & _).
    by eapply print_stacks_returns_stack.
Qed.

Lemma print_stacks_within_returns_stack room :
  ∀ fs self stack count cost out stack',
    print_stacks_within room fs self stack count cost
    = (out, Returned stack') →
    stack' = stack.
Proof.
  induction room as [|room IH]; intros fs self stack count cost out stack';
    rewrite print_stacks_within_eq; unfold_monad;
    intros (o1 & me & o2 & [Hme ->]%plift_Returned & H & ->)%pbind_Returned;
    cbv zeta in H; (case_bool_decide as Hin; [by injection H as _ ->|]);
    apply pbind_Returned in H as (o3 & s3 & o4 & H & [= _ <-] & _);
    (assert (s3 = stack ++ [Function.str me]) as ->;
       [|apply removelast_last]);
    (destruct (0 <? _);
       [|by apply pbind_Returned in H as (? & [] & ? & _ & [= _ <-] & _)]);
    apply pbind_Returned in H as (? & scale & ? & _ & H & _);
    apply pbind_Returned in H as (? & v & ? & _ & H & _);
    apply pbind_Returned in H as (? & [] & ? & _ & H & _);
    (eapply pfor_state; [|exact H]); intros f s out' s' _ Hb; [done|].
  apply pbind_Returned in Hb as (? & fe & ? & _ & Hb & _).
  apply pbind_Returned in Hb as (? & cc & ? & _ & Hb & _).
  apply pbind_Returned in Hb as (? & cn & ? & _ & Hb & _).
  apply pbind_Returned in Hb as (? & sc & ? & _ & Hb & _).
  by eapply IH.
Qed.

Lemma print_stacks_within_failures fs room :
  linked fs → all_registered fs →
  ∀ self stack count cost f,
    is_Some (fs !! self) →
    failure_of (print_stacks_within room fs self stack count cost) = Some f →
    ∃ e, f = Fails e ∧ (walk_error e ∨ e = RecursionError).
Proof.
  intros Hl Hreg.
  induction room as [|room IH]; intros self stack count cost f [me Hfs];
    rewrite print_stacks_within_eq, (deref_Some _ _ _ Hfs);
    unfold_monad; rewrite pbind_plift_Ok; cbv zeta;
    (case_bool_decide as Hin; [done|]);
    intros [H|(? & ? & _ & [=])]%failure_of_pbind;
    (destruct (0 <? _);
       [|by apply failure_of_pbind in H as [[=]|(? & [] & _ & [=])]]);
    (apply failure_of_pbind in H
       as [(e & He & ->)%failure_of_plift
          |(? & scale & [Hscale%scale_of_Ok _]%plift_Returned & H)];
       [exists e; split; [done|]; left; by eapply scale_of_Raise|]);
    (apply failure_of_pbind in H
       as [(e & He & ->)%failure_of_plift|(? & v & _ & H)];
       [exists e; split; [done|]; left; right; by eapply scaled_Raise|]);
    apply failure_of_pbind in H as [[=]|(? & [] & _ & H)].
  - apply failure_of_pfor in H as (c & Hc & H); [|done].
    injection H as <-. eauto.
  - apply failure_of_pfor in H as (c & Hc & H).
    + destruct (Hl _ _ _ Hfs Hc) as (ce & Hce & Hkey).
      destruct (Hreg _ _ Hfs) as [Hcosts Hcounts].
      rewrite (deref_Some _ _ _ Hce) in H.
      rewrite pbind_plift_Ok in H.
      apply failure_of_pbind in H
        as [(e & He & _)%failure_of_plift|(? & cc & _ & H)].
      { apply getitem_registered_Raise in He; [done|by rewrite Hcosts]. }
      apply failure_of_pbind in H
        as [(e & He & _)%failure_of_plift|(? & cn & _ & H)].
      { apply getitem_registered_Raise in He; [done|by rewrite Hcounts]. }
      apply failure_of_pbind in H
        as [(e & He & ->)%failure_of_plift|(? & sc & _ & H)].
      { exists e. split; [done|]. left. right. by eapply scaled_Raise. }
      revert H. apply IH. eauto.
    + intros c out' s' _ Hb.
      apply pbind_Returned in Hb as (? & fe & ? & _ & Hb & _).
      apply pbind_Returned in Hb as (? & cc & ? & _ & Hb & _).
      apply pbind_Returned in Hb as (? & cn & ? & _ & Hb & _).
      apply pbind_Returned in Hb as (? & sc & ? & _ & Hb & _).
      by eapply print_stacks_within_returns_stack.
Qed.

Lemma print_stacks_within_failure fs room self stack count cost f :
  linked fs → all_registered fs → is_Some (fs !! self) →
  failure_of (print_stacks_within room fs self stack count cost) = Some f →
  f = Fails AssertionError ∨ f = Fails OverflowError
  ∨ (f = Fails RecursionError ∧ (room < size (unvisited fs stack))%nat).
Proof.
  intros Hl Hreg Hself Hf.
  destruct (decide (size (unvisited fs stack) ≤ room)%nat) as [Hroom|Hroom].
  - rewrite (print_stacks_within_enough (S (size fs))) in Hf;
      [|done|pose proof (unvisited_size fs stack); lia].
    destruct (print_stacks_failures fs _ Hl Hreg _ _ _ _ _ Hself Hf)
      as [->|(e & -> & [->| ->])]; [|by left|by right; left].
    by apply print_stacks_terminates in Hf.
  - destruct (print_stacks_within_failures fs room Hl Hreg _ _ _ _ _ Hself Hf)
      as (e & -> & [[->| ->]| ->]); [by left|by right; left|].
    right. right. split; [done|lia].
Qed.

(** X15. On a graph where every listed callee is an object with its
    accumulators registered, the walk ends in one of four ways: it returns,
    it fails the assertion, a number is too large for a float, or the
    interpreter's bound on nested calls is met ([RecursionError]). The last
    happens only when the bound leaves room for fewer levels than there are
    functions not yet on the path; with room for that many levels the walk
    under the bound is the walk without it. A missing object, a missing
    dictionary entry, a division by zero or a NaN cannot happen. *)
Theorem walk_fails_three_ways room fs self stack count cost :
  linked fs → all_registered fs → is_Some (fs !! self) →
  (∀ f,
     failure_of (print_stacks_within room fs self stack count cost) = Some f →
     f = Fails AssertionError ∨ f = Fails OverflowError
     ∨ (f = Fails RecursionError ∧ (room < size (unvisited fs stack))%nat))
  ∧ ((size (unvisited fs stack) ≤ room)%nat →
     print_stacks_within room fs self stack count cost
     = Function.print_stacks (S (size fs)) fs self stack count cost).
Proof.
  intros Hl Hreg Hself. split.
  - intros f. by apply print_stacks_within_failure.
  - intros Hroom. apply print_stacks_within_enough; [done|].
    pose proof (unvisited_size fs stack). lia.
Qed.

Lemma walk_fails_three_ways_witness :
  Fails RecursionError = Fails AssertionError
  ∨ Fails RecursionError = Fails OverflowError
  ∨ (Fails RecursionError = Fails RecursionError
     ∧ (0 < size (unvisited shared_callee_graph []))%nat).
Proof.
  assert (construct_all shared_callee_steps ∅ = Ok shared_callee_graph) as Hc
    by (vm_compute; reflexivity).
  apply (proj1 (walk_fails_three_ways 0 shared_callee_graph "a.c#main" [] 0 0
                  (linked_construct_all _ _ _ linked_empty Hc)
                  (all_registered_construct_all _ _ _ all_registered_empty Hc)
                  (mk_is_Some _ shared_main eq_refl))).
  vm_compute. reflexivity.
Defined.

(** ** [main] under the bound *)

Lemma traverse_within_enough room fs r :
  (size fs ≤ room)%nat → traverse_within room fs r = traverse_from fs r.
Proof.
  intros Hroom. unfold traverse_within, traverse_from.
  rewrite (print_stacks_within_enough (S (size fs))); [done| |];
    pose proof (unvisited_size fs []); lia.
Qed.

Lemma pfor_ext_all {A S} (b1 b2 : A → S → printing S) l s :
  (∀ x s, b1 x s = b2 x s) → pfor b1 l s = pfor b2 l s.
Proof.
  intros Hb. revert s. induction l as [|x l IH]; intros s; simpl; [done|].
  rewrite Hb. destruct (b2 x s) as [out [s'|e|]]; simpl; [|done..].
  by rewrite IH.
Qed.

(** X16. All the ways in which [main] can fail. Either the parser raises,
    and then it is a [KeyError], an [IndexError], a [ValueError] or the
    exception of an unknown name; or the parser has built the graph, and
    then the walk fails the assertion, finds a number too large for a float,
    or meets the interpreter's bound on nested calls ([RecursionError]),
    which takes a bound that leaves room for fewer levels than the graph has
    functions. With room for as many levels as there are functions, [main]
    under the bound is [main]. No missing object, no missing dictionary
    entry, no division by zero. *)
Theorem main_failures room queue :
  (∀ f,
     failure_of (main_within room queue) = Some f →
     (∃ e, parse_body (parse_header queue) initial_globals = Raise e
           ∧ f = Fails e ∧ parse_error e)
     ∨ (∃ rest g,
          parse_body (parse_header queue) initial_globals = Ok (rest, g)
          ∧ (f = Fails AssertionError ∨ f = Fails OverflowError
             ∨ (f = Fails RecursionError
                ∧ (room < size (functions g))%nat))))
  ∧ (∀ rest g,
       parse_body (parse_header queue) initial_globals = Ok (rest, g) →
       (size (functions g) ≤ room)%nat →
       main_within room queue = main queue).
Proof.
  split.
  - intros f. unfold main_within. unfold_monad.
    intros [(e & He & ->)%failure_of_plift
           |(? & [rest g] & [Hparse _]%plift_Returned & H)]%failure_of_pbind.
    { left. exists e. split; [done|]. split; [done|].
      eapply parse_body_loop_Raise; [|exact He]. apply linked_empty. }
    right. exists rest, g. split; [done|].
    destruct (parse_body_graph _ _ _ Hparse) as (Hl & Hreg & _ & Hkeys).
    apply failure_of_pbind in H as [H|(? & ? & _ & [=])].
    apply failure_of_pfor in H as (r & Hr & H); [|by intros ??[]].
    apply Hkeys in Hr as [me Hme].
    unfold traverse_within in H. rewrite (deref_Some _ _ _ Hme) in H.
    unfold_monad. rewrite pbind_plift_Ok in H.
    destruct (is_root me); [|done].
    apply failure_of_pbind in H as [H|(? & ? & _ & [=])].
    destruct (print_stacks_within_failure _ _ _ _ _ _ _ Hl Hreg
                (mk_is_Some _ _ Hme) H) as [->|[->|[-> Hroom]]]; auto.
    right. right. split; [done|].
    pose proof (unvisited_size (functions g) []). lia.
  - intros rest g Hparse Hroom. unfold main_within, main. unfold_monad.
    rewrite Hparse, !pbind_plift_Ok. f_equal.
    apply pfor_ext_all. intros r []. by apply traverse_within_enough.
Qed.

Lemma main_failures_witness :
  (∃ e, parse_body (parse_header small_body) initial_globals = Raise e
        ∧ Fails RecursionError = Fails e ∧ parse_error e)
  ∨ (∃ rest g,
       parse_body (parse_header small_body) initial_globals = Ok (rest, g)
       ∧ (Fails RecursionError = Fails AssertionError
          ∨ Fails RecursionError = Fails OverflowError
          ∨ (Fails RecursionError = Fails RecursionError
             ∧ (0 < size (functions g))%nat))).
Proof.
  apply (proj1 (main_failures 0 small_body)). vm_compute. reflexivity.
Defined.
